(** * blobserver: the blob tracker, the mask utility, the detector output
      buffer and the flow scheduler with its control protocol

    A shallow embedding of [include/detector.h] and [src/blobserver.cpp].

    Conventions.
    - A pointer into a [std::vector] is the index of the element it points
      to: [&pBlobs[j]] is [j].  Two such pointers are equal exactly when the
      indices are, which is what the address comparisons of the source test.
    - [float] values that are only compared ([BlobPair::_dist]) are rationals:
      every finite [float] is a rational and [>] on finite floats is [>] on
      the rationals.
    - [int] is a 32-bit two's complement integer and [unsigned int] a 32-bit
      natural; both are [Z] with the wrap-around written out. *)

From Stdlib Require Import QArith.
From stdpp Require Import base option list numbers strings pretty gmap.

Local Open Scope Z_scope.

Notation "f <$$> x" := (fmap (M := option) (fmap (M := list) f) x)
  (at level 61, left associativity, only parsing).

(** ** Machine integers *)

Module Int.

Definition modulus : Z := 2 ^ 32.
Definition half_modulus : Z := 2 ^ 31.

(** Conversion to [unsigned int]. *)
Definition to_unsigned (z : Z) : Z := z mod modulus.

(** Conversion to [int] (two's complement). *)
Definition to_signed (z : Z) : Z :=
  let u := z mod modulus in
  if u <? half_modulus then u else u - modulus.

Definition in_int (z : Z) : Prop := - half_modulus ≤ z < half_modulus.
Definition in_unsigned (z : Z) : Prop := 0 ≤ z < modulus.

End Int.

(** ** [Blob::properties] (blob.h) *)

Module Blob.

Record properties := {
  position : Z * Z;       (* cv::Point *)
  speed : Z * Z;          (* cv::Point *)
  color : Z * Z * Z;      (* cv::Vec3b *)
  orientation : Q;        (* float *)
  size : Q                (* float *)
}.

End Blob.

(** ** The blob tracker: [BlobPair] and [trackBlobs] (detector.h) *)

Module Tracker.

(** The operations [trackBlobs] calls on its template parameter [T], as the
    fields of an interface; [newBlob] is the value of the default constructor
    in [T newBlob;]. *)
Class TrackedBlob (T : Type) := {
  newBlob : T;
  init : T → Blob.properties → T;
  predict : T → T;
  setNewMeasures : T → Blob.properties → T;
  getDistanceFromPrediction : T → Blob.properties → Q;
  renewLifetime : T → T;
  getOlder : T → T;
  getLifetime : T → Z;
  setLifetime : T → Z → T
}.

(** [BlobPair<T>]: [_current] points into [pBlobs], [_measure] into
    [pProperties]. *)
Record BlobPair := {
  _current : nat;
  _measure : nat;
  _dist : Q
}.

Definition Qgtb (a b : Q) : bool := negb (Qle_bool a b).

(** [BlobPair::operator<]: [this->_dist > second.getDist()]. *)
Definition pair_lt (this second : BlobPair) : bool :=
  Qgtb (_dist this) (_dist second).

(** The inner [for] of the matching loop: erase at [j] without advancing,
    otherwise advance. *)
Fixpoint erasePairs (nearest : BlobPair) (lSearchPairs : list BlobPair)
  : list BlobPair :=
  match lSearchPairs with
  | [] => []
  | p :: rest =>
      if (_current p =? _current nearest)%nat then erasePairs nearest rest
      else if (_measure p =? _measure nearest)%nat then erasePairs nearest rest
      else p :: erasePairs nearest rest
  end.

(** [isIn] of the aging loop: some pair's [getCurrent()] equals [&pBlobs[i]]. *)
Definition isInCurrent (lPairs : list BlobPair) (i : nat) : bool :=
  existsb (λ p, (_current p =? i)%nat) lPairs.

(** [isIn] of the birth loop: some pair's [getMeasure()] equals
    [&pProperties[i]]. *)
Definition isInMeasure (lPairs : list BlobPair) (i : nat) : bool :=
  existsb (λ p, (_measure p =? i)%nat) lPairs.

Section tracker.
Context {T : Type} `{!TrackedBlob T}.

(** [make_heap] followed by [pop_heap] on the whole vector, in place.  The
    standard library is not part of the sources; its contract is
    [heap_contract] below. *)
Variable heapify : list BlobPair → list BlobPair.

(** The constructor [BlobPair(current, measure)] at [&pBlobs[j]],
    [&pProperties[i]]. *)
Definition mkBlobPair (j : nat) (b : T) (i : nat) (m : Blob.properties)
  : BlobPair :=
  {| _current := j; _measure := i; _dist := getDistanceFromPrediction b m |}.

(** The two nested [for] loops filling [lSearchPairs]: measurements outside,
    tracks inside. *)
Definition searchPairs (pProperties : list Blob.properties) (pBlobs : list T)
  : list BlobPair :=
  mjoin (imap (λ i m, imap (λ j b, mkBlobPair j b i m) pBlobs) pProperties).

(** [while (lSearchPairs.size())].  Every round removes at least the popped
    pair, so [length lSearchPairs] rounds are enough ([matchLoop_total]);
    [None] is an exhausted [fuel], or a [heapify] that lost the elements. *)
Fixpoint matchLoop (fuel : nat) (lSearchPairs lPairs : list BlobPair)
  : option (list BlobPair) :=
  match lSearchPairs with
  | [] => Some lPairs
  | _ :: _ =>
      match fuel with
      | O => None
      | S fuel' =>
          let heap := heapify lSearchPairs in
          match last heap with
          | None => None
          | Some nearest =>
              matchLoop fuel' (erasePairs nearest (removelast heap))
                        (lPairs ++ [nearest])
          end
      end
  end.

(** The block computing [lPairs]. *)
Definition matchPairs (pProperties : list Blob.properties) (pBlobs : list T)
  : option (list BlobPair) :=
  if decide (length pBlobs ≠ 0%nat) then
    let lSearchPairs := searchPairs pProperties pBlobs in
    matchLoop (length lSearchPairs) lSearchPairs []
  else Some [].

(** "We update the blobs which we were able to track".  The pointers of a
    pair come from [searchPairs], so both lookups are in range. *)
Definition applyUpdates (pProperties : list Blob.properties)
  (lPairs : list BlobPair) (pBlobs : list T) : list T :=
  foldl (λ blobs p,
           match pProperties !! _measure p with
           | Some m =>
               alter (λ b, renewLifetime (setNewMeasures b m)) (_current p) blobs
           | None => blobs
           end) pBlobs lPairs.

(** "We delete the blobs we were not able to track".  [i] is the loop index
    and [rest] the elements of [pBlobs] from index [i] on; the elements
    before [i] are final.  [erase] keeps [i] and shifts [rest] down, while the
    pointers in [lPairs] stay what they were. *)
Fixpoint ageFrom (lPairs : list BlobPair) (i : nat) (rest : list T) : list T :=
  match rest with
  | [] => []
  | b :: rest' =>
      if isInCurrent lPairs i then b :: ageFrom lPairs (S i) rest'
      else
        let b' := getOlder b in
        if getLifetime b' <? 0 then ageFrom lPairs i rest'
        else b' :: ageFrom lPairs (S i) rest'
  end.

(** "And we create new blobs for the new objects detected". *)
Definition births (pProperties : list Blob.properties) (lPairs : list BlobPair)
  (pLifetime : Z) : list T :=
  mjoin (imap (λ i m,
                  if isInMeasure lPairs i then []
                  else [setLifetime (init newBlob m) pLifetime])
               pProperties).

Definition trackBlobs (pProperties : list Blob.properties) (pBlobs : list T)
  (pLifetime : Z) : option (list T) :=
  let predicted := predict <$> pBlobs in
  lPairs ← matchPairs pProperties predicted;
  Some (ageFrom lPairs 0 (applyUpdates pProperties lPairs predicted)
          ++ births pProperties lPairs pLifetime).

End tracker.

(** *** Vocabulary of the statements *)

(** [p] shares neither the track nor the measurement of [nearest]. *)
Definition compatible (nearest p : BlobPair) : Prop :=
  _current p ≠ _current nearest ∧ _measure p ≠ _measure nearest.

#[export] Instance compatible_dec nearest p : Decision (compatible nearest p).
Proof. unfold compatible. apply _. Defined.

(** What the C++ standard promises of [make_heap] then [pop_heap] with
    [operator<]: the vector is permuted in place and no element is greater
    than the one moved to the back. *)
Definition heap_contract (heapify : list BlobPair → list BlobPair) : Prop :=
  ∀ l, heapify l ≡ₚ l ∧
       ∀ nearest, last (heapify l) = Some nearest →
                  ∀ p, p ∈ l → pair_lt nearest p = false.

(** A run of the greedy matching from the candidates [cands]: the pairs
    committed, in the order they are committed. *)
Inductive greedy : list BlobPair → list BlobPair → Prop :=
  | greedy_done : greedy [] []
  | greedy_commit cands nearest rest lPairs :
      cands ≡ₚ rest ++ [nearest] →
      (∀ p, p ∈ cands → (_dist nearest <= _dist p)%Q) →
      greedy (filter (compatible nearest) rest) lPairs →
      greedy cands (nearest :: lPairs).

(** The track and the measurement of a pair. *)
Definition key (p : BlobPair) : nat * nat := (_current p, _measure p).

(** [cands] holds exactly one pair for every track of [tracks] and every
    measurement of [measures]. *)
Definition isGrid (cands : list BlobPair) (tracks measures : list nat) : Prop :=
  NoDup tracks ∧ NoDup measures ∧ NoDup (key <$> cands) ∧
  ∀ c m, (c, m) ∈ key <$> cands ↔ c ∈ tracks ∧ m ∈ measures.

(** The committed distances never decrease. *)
Definition nondecreasing (lPairs : list BlobPair) : Prop :=
  ∀ i j p q, (i ≤ j)%nat → lPairs !! i = Some p → lPairs !! j = Some q →
             (_dist p <= _dist q)%Q.

(** The first pair of [lPairs] whose [getCurrent()] is [&pBlobs[i]]. *)
Definition pairOf (lPairs : list BlobPair) (i : nat) : option BlobPair :=
  List.find (λ p, (_current p =? i)%nat) lPairs.

(** The tracks after the prediction and the updates: a paired track is
    predicted, given the measurement of its pair and a renewed lifetime; an
    unpaired one is predicted. *)
Definition updatedTracks {T} `{!TrackedBlob T}
  (pProperties : list Blob.properties) (lPairs : list BlobPair)
  (pBlobs : list T) : list T :=
  imap (λ i b,
          match pairOf lPairs i ≫= λ p, pProperties !! _measure p with
          | Some m => renewLifetime (setNewMeasures (predict b) m)
          | None => predict b
          end) pBlobs.

(** The tracks that are kept, [tracks] being taken one after the other.  A
    track is looked up among the pairs by the position it has once the
    erased tracks before it are gone, which is the number of tracks kept so
    far: if a pair points there the track is kept as it is; otherwise it is
    aged by one, and kept unless its lifetime is below zero. *)
Definition aged {T} `{!TrackedBlob T} (lPairs : list BlobPair)
  (tracks : list T) : list T :=
  foldl (λ kept b,
           if decide (length kept ∈ _current <$> lPairs) then kept ++ [b]
           else if decide (0 ≤ getLifetime (getOlder b))
                then kept ++ [getOlder b]
                else kept) [] tracks.

(** The measurements no pair points to, in their order. *)
Definition unpaired (lPairs : list BlobPair)
  (pProperties : list Blob.properties) : list Blob.properties :=
  (filter (λ im, im.1 ∉ _measure <$> lPairs) (imap pair pProperties)).*2.

(** *** A conforming [make_heap]/[pop_heap]

    Moves the first pair of least distance to the back and keeps the others
    in their order. *)

Fixpoint nearestIndex (l : list BlobPair) : nat :=
  match l with
  | [] => 0
  | p :: l' =>
      match l' !! nearestIndex l' with
      | Some q => if pair_lt p q then S (nearestIndex l') else 0
      | None => 0
      end
  end%nat.

Definition selectNearest (l : list BlobPair) : list BlobPair :=
  match l !! nearestIndex l with
  | Some nearest => delete (nearestIndex l) l ++ [nearest]
  | None => l
  end.

(** *** A tracked blob

    Modelled from the spec: the class [trackBlobs] is instantiated with is
    missing.  Section 4.1: [init] seeds the state with the measured position
    and zero velocity; [predict] advances the position by the velocity;
    [setNewMeasures] recomputes the velocity as new position minus previous
    position; [renewLifetime] resets the counter to the configured value,
    [getOlder] decrements it, [setLifetime] configures it.  Section 9: the
    distance is the squared Euclidean distance of the positions; it is a
    [float] (section 4.1, and [BlobPair::_dist]). *)
Record Blob2D := {
  measured : Z * Z;
  predicted : Z * Z;
  velocity : Z * Z;
  lifetime : Z;
  totalLifetime : Z;
  updated : bool
}.

Definition sqDistance (a b : Z * Z) : Z :=
  (a.1 - b.1) * (a.1 - b.1) + (a.2 - b.2) * (a.2 - b.2).

(** The [float] a non-negative integer converts to: itself below [2^24];
    from there on the 24 leading bits, rounded to nearest, a tie to the even
    one.  The squared distance of two [cv::Point]s is below [2^66], far
    from the largest [float]. *)
Definition toFloat (z : Z) : Z :=
  if z <? 2 ^ 24 then z else
  let ulp := 2 ^ (Z.log2 z - 23) in
  let q := z / ulp in
  let r := z mod ulp in
  if (ulp <? 2 * r) || ((ulp =? 2 * r) && Z.odd q)
  then (q + 1) * ulp else q * ulp.

#[export] Instance Blob2D_tracked : TrackedBlob Blob2D := {|
  newBlob := {| measured := (0, 0); predicted := (0, 0); velocity := (0, 0);
                lifetime := 30; totalLifetime := 30; updated := false |};
  init b m := {| measured := Blob.position m; predicted := Blob.position m;
                 velocity := (0, 0); lifetime := lifetime b;
                 totalLifetime := totalLifetime b; updated := true |};
  predict b := {| measured := measured b;
                  predicted := ((predicted b).1 + (velocity b).1,
                                (predicted b).2 + (velocity b).2);
                  velocity := velocity b; lifetime := lifetime b;
                  totalLifetime := totalLifetime b; updated := false |};
  setNewMeasures b m :=
    {| measured := Blob.position m; predicted := Blob.position m;
       velocity := ((Blob.position m).1 - (measured b).1,
                    (Blob.position m).2 - (measured b).2);
       lifetime := lifetime b; totalLifetime := totalLifetime b;
       updated := true |};
  getDistanceFromPrediction b m :=
    inject_Z (toFloat (sqDistance (predicted b) (Blob.position m)));
  renewLifetime b :=
    {| measured := measured b; predicted := predicted b;
       velocity := velocity b; lifetime := totalLifetime b;
       totalLifetime := totalLifetime b; updated := updated b |};
  getOlder b :=
    {| measured := measured b; predicted := predicted b;
       velocity := velocity b; lifetime := lifetime b - 1;
       totalLifetime := totalLifetime b; updated := updated b |};
  getLifetime := lifetime;
  setLifetime b n :=
    {| measured := measured b; predicted := predicted b;
       velocity := velocity b; lifetime := n;
       totalLifetime := n; updated := updated b |}
|}.

(** A measurement at [(x, y)]. *)
Definition measureAt (x y : Z) : Blob.properties :=
  {| Blob.position := (x, y); Blob.speed := (0, 0); Blob.color := (0, 0, 0);
     Blob.orientation := 0%Q; Blob.size := 5%Q |}.

(** A resting track at [(x, y)] with lifetime [n] out of [total]. *)
Definition trackAt (x y : Z) (n total : Z) : Blob2D :=
  {| measured := (x, y); predicted := (x, y); velocity := (0, 0);
     lifetime := n; totalLifetime := total; updated := false |}.

End Tracker.

(** ** [Parallel_Mask] (detector.h) *)

Module Mask.

(** A [cv::Mat]: [rows] rows of [cols] pixels of [elemSize] bytes each.  A
    row starts [step] bytes after the row before it; the bytes of a row
    after its pixels are padding, as a matrix that is a region of a wider
    one has.  Pixel [(y, x)] is the [elemSize] bytes from byte
    [y * step + x * elemSize] on. *)
Record Mat := {
  rows : nat;
  cols : nat;
  elemSize : nat;
  step : nat;
  data : list Z
}.

(** The data hold the rows, and a row holds its pixels. *)
Definition allocated (m : Mat) : Prop :=
  length (data m) = (rows m * step m)%nat ∧
  (cols m * elemSize m ≤ step m)%nat.

(** [cv::Mat::isContinuous()], for a matrix with its data: the rows follow
    each other without padding. *)
Definition continuous (m : Mat) : Prop :=
  step m = (cols m * elemSize m)%nat ∧
  length (data m) = (rows m * step m)%nat.

(** The bytes of pixel [(y, x)]. *)
Definition pixel (m : Mat) (y x : nat) : list Z :=
  take (elemSize m) (drop (y * step m + x * elemSize m) (data m)).

(** [cv::Range]. *)
Record Range := { start : nat; end_ : nat }.

(** [*p] for a [PixType* p] at byte offset [off], [PixType] of [s] bytes;
    [None] is a read outside the allocation. *)
Definition readPix (s : nat) (bytes : list Z) (off : nat) : option (list Z) :=
  if decide (off + s ≤ length bytes)%nat
  then Some (take s (drop off bytes)) else None.

(** [*p = PixType(0)]; [None] is a write outside the allocation. *)
Definition writeZero (s : nat) (bytes : list Z) (off : nat)
  : option (list Z) :=
  if decide (off + s ≤ length bytes)%nat
  then Some (take off bytes ++ replicate s 0 ++ drop (off + s) bytes)
  else None.

(** [v == 0] for an integer pixel of these bytes. *)
Definition isZero (px : list Z) : bool := forallb (λ b, b =? 0) px.

Definition sizeofUchar : nat := 1.

(** Whether the byte at [i] is there and zero. *)
Definition zeroAt (bytes : list Z) (i : nat) : bool :=
  match bytes !! i with Some b => b =? 0 | None => false end.

Section mask.
(** [sizeof(PixType)].  The loop is written over it as the source is; the
    declaration [PixType* mask = &(_mask->at<uchar>(r.start, 0))]
    (detector.h:50) is well typed for [PixType = uchar] only, so the class
    exists at [sizeofPixType = 1], where the properties below are stated. *)
Variable sizeofPixType : nat.

(** The inner [for]: [x] runs from [x] up to [_buffer->cols], [n] columns are
    left.  [buffer] and [mask] are both [PixType*], here as byte offsets
    [bufferOff] and [maskOff]; adding [k] to a [PixType*] moves it by
    [k * sizeof(PixType)] bytes. *)
Fixpoint maskRow (maskBytes : list Z) (maskOff bufferOff : nat) (x n : nat)
  (bufferBytes : list Z) : option (list Z) :=
  match n with
  | O => Some bufferBytes
  | S n' =>
      px ← readPix sizeofPixType maskBytes
             (maskOff + x * sizeofUchar * sizeofPixType);
      bufferBytes' ←
        (if isZero px
         then writeZero sizeofPixType bufferBytes
                (bufferOff + x * sizeofPixType * sizeofPixType)
         else Some bufferBytes);
      maskRow maskBytes maskOff bufferOff (S x) n' bufferBytes'
  end.

(** The outer [for]: [n] rows are left; after each row
    [buffer += _buffer->cols*sizeof(PixType)] and
    [mask += _mask->cols*sizeof(uchar)]. *)
Fixpoint maskRows (bufferCols maskCols : nat) (maskBytes : list Z)
  (maskOff bufferOff : nat) (n : nat) (bufferBytes : list Z)
  : option (list Z) :=
  match n with
  | O => Some bufferBytes
  | S n' =>
      bufferBytes' ←
        maskRow maskBytes maskOff bufferOff 0 bufferCols bufferBytes;
      maskRows bufferCols maskCols maskBytes
        (maskOff + maskCols * sizeofUchar * sizeofPixType)
        (bufferOff + bufferCols * sizeofPixType * sizeofPixType)
        n' bufferBytes'
  end.

(** [Parallel_Mask<PixType>::operator()(r)] on [_buffer] and [_mask]; the
    result is the buffer.  [at<PixType>(r.start, 0)] is the first byte of row
    [r.start], [r.start * step] bytes from the start of the data; from a row
    to the next the loop moves by the columns, not by [step].  [None] is an
    access outside an allocation, or a range whose end is before its start,
    which [y != r.end] never reaches. *)
Definition Parallel_Mask (_buffer _mask : Mat) (r : Range) : option Mat :=
  if decide (start r ≤ end_ r)%nat then
    bytes ← maskRows (cols _buffer) (cols _mask) (data _mask)
               (start r * step _mask)
               (start r * step _buffer)
               (end_ r - start r) (data _buffer);
    Some {| rows := rows _buffer; cols := cols _buffer;
            elemSize := elemSize _buffer; step := step _buffer;
            data := bytes |}
  else None.

(** The masking contract for pixels of [sizeofPixType] bytes: for every
    continuous buffer and mask of equal row count, the mask at least as wide
    as the buffer, running over all rows returns a buffer in which a pixel is
    zero where the mask is zero and is the old pixel elsewhere. *)
Definition masking_contract : Prop :=
  ∀ _buffer _mask,
    continuous _buffer → continuous _mask →
    elemSize _buffer = sizeofPixType → elemSize _mask = sizeofUchar →
    rows _buffer = rows _mask → (cols _buffer ≤ cols _mask)%nat →
    ∃ out,
      Parallel_Mask _buffer _mask {| start := 0; end_ := rows _buffer |}
      = Some out ∧
      rows out = rows _buffer ∧ cols out = cols _buffer ∧
      elemSize out = elemSize _buffer ∧
      ∀ y x, (y < rows _buffer)%nat → (x < cols _buffer)%nat →
             pixel out y x
             = if isZero (pixel _mask y x)
               then replicate sizeofPixType 0 else pixel _buffer y x.

(** C9 as the specification words it: equal row counts are all that is asked
    of the buffer and of the mask, each a matrix with its data and the
    pixels of its type; the pixels at stake are those that have a mask
    pixel. *)
Definition masking_claim : Prop :=
  ∀ _buffer _mask,
    allocated _buffer → allocated _mask →
    elemSize _buffer = sizeofPixType → elemSize _mask = sizeofUchar →
    rows _buffer = rows _mask →
    ∃ out,
      Parallel_Mask _buffer _mask {| start := 0; end_ := rows _buffer |}
      = Some out ∧
      ∀ y x, (y < rows _buffer)%nat → (x < cols _buffer)%nat →
             (x < cols _mask)%nat →
             pixel out y x
             = if isZero (pixel _mask y x)
               then replicate sizeofPixType 0 else pixel _buffer y x.

End mask.

(** What the rows [a] to [b] of a one-byte mask of [mc] columns leave of the
    bytes of a one-byte buffer of [bc] columns: a zero where the mask byte of
    the same row and column is zero, in these rows. *)
Definition maskedBytes (bc mc : nat) (maskBytes : list Z) (a b : nat)
  (bytes : list Z) : list Z :=
  imap (λ k v, if decide (a * bc ≤ k < b * bc)%nat
               then if zeroAt maskBytes (k / bc * mc + k mod bc) then 0 else v
               else v) bytes.

End Mask.

(** ** [Detector::getOutput] (detector.h) and its use in [App::loop] *)

Module Output.

(** Pixel buffers live in a store; a [cv::Mat] is a header that points to
    one.  Copying a [cv::Mat] copies the header, so the copy shares the
    pixels; [clone] allocates new pixels. *)
Record Mat := {
  rows : nat;
  cols : nat;
  data : nat
}.

Abbreviation Store := (gmap nat (list Z)).

(** [cv::Mat::clone()]. *)
Definition clone (σ : Store) (m : Mat) : Store * Mat :=
  let p := fresh (dom σ) in
  (<[p := default [] (σ !! data m)]> σ,
   {| rows := rows m; cols := cols m; data := p |}).

(** [m.at<uchar>(i) = v], a write through the header [m]. *)
Definition writeAt (σ : Store) (m : Mat) (i : nat) (v : Z) : Store :=
  alter (λ px, <[i := v]> px) (data m) σ.

(** The pixels seen through the header [m]. *)
Definition pixels (σ : Store) (m : Mat) : list Z := default [] (σ !! data m).

(** The attribute of [Detector] at stake. *)
Record Detector := {
  mOutputBuffer : Mat
}.

(** [cv::Mat getOutput() {return mOutputBuffer.clone();}] *)
Definition getOutput (σ : Store) (d : Detector) : Store * Mat :=
  clone σ (mOutputBuffer d).

(** A sequence of writes through one header. *)
Definition writesAt (σ : Store) (m : Mat) (ws : list (nat * Z)) : Store :=
  foldl (λ σ w, writeAt σ m w.1 w.2) σ ws.

(** The lines of [App::loop] from [getOutput()] to the display list:
    [output] is pushed on [lBuffers] (a header copy) and its pixels are
    handed to the shared memory; the result is the store, the display list
    and the published pixels. *)
Definition publishOutput (σ : Store) (d : Detector) (lBuffers : list Mat)
  : Store * list Mat * list Z :=
  let '(σ', output) := getOutput σ d in
  (σ', lBuffers ++ [output], pixels σ' output).

End Output.

(** ** The flow scheduler and the control protocol (blobserver.cpp) *)

Module Server.

(** *** Messages

    The atom library is not part of the repository.  A message is a vector
    of typed values; [toInt] and [toString] throw [BadTypeTagError] on a
    value of another type (the handlers catch that exception around them),
    here [None]. *)
Inductive Value :=
  | IntValue (i : Z)
  | FloatValue (f : Q)
  | StringValue (s : string).

Abbreviation Message := (list Value).

Definition toInt (v : Value) : option Z :=
  match v with IntValue i => Some i | _ => None end.

Definition toString (v : Value) : option string :=
  match v with StringValue s => Some s | _ => None end.

(** [OscClient]: a [lo_address] made by [lo_address_new(host, port)]. *)
Record OscClient := {
  host : string;
  port : string
}.

(** A message handed to [lo_send] or [lo_send_message]. *)
Record OscMsg := {
  dest : OscClient;
  path : string;
  args : Message
}.

(** *** What the server is built on

    liblo, the two factories with the classes registered in them, and the
    virtual methods of [Source] and [Detector]: parameters of the model.  A
    source object lives in a heap and is designated by its address, a [nat]:
    the [shared_ptr<Source>] of the source. *)
Class Platform := {
  Image : Type;                                   (* cv::Mat *)
  Source : Type;
  Detector : Type;
  lo_address_errno : OscClient → Z;
  lo_address_get_url : OscClient → string;
  (* mDetectorFactory: key_exists is being [Some], create the value *)
  mDetectorFactory : string → option Detector;
  (* mSourceFactory: create(name, index) *)
  mSourceFactory : string → option (Z → Source);
  (* Detector::mSourceNbr, which the static Detector::getSourceNbr returns *)
  mSourceNbr : Z;
  Source_getName : Source → string;
  Source_getSubsourceNbr : Source → Z;
  (* the object once connect() has succeeded *)
  Source_connect : Source → Source;
  Source_setParameter : Source → Message → Source;
  Detector_detect : Detector → list Image → Message * Detector;
  Detector_getOutput : Detector → Image;
  Detector_getOscPath : Detector → string;
  Detector_setParameter : Detector → Message → Detector;
  Detector_addSource : Detector → nat → Detector
}.

Section server.
Context `{Platform}.

(** Modelled from the spec: the header that declares [Flow] is missing.
    Section 3: a flow id, one detector, an ordered vector of sources, a
    subscriber endpoint, a shared-memory output channel keyed by the flow
    id, a boolean [run] flag.  These are the fields the source uses; [id] is
    an [unsigned int], as [getValidId] returns. *)
Record Flow := {
  detector : Detector;
  sources : list nat;
  client : OscClient;
  shm : string;
  id : Z;
  run : bool
}.

(** The attributes of [App] the handlers and the loop use, and the heap of
    the source objects. *)
Record App := {
  mSources : list nat;
  mFlows : list Flow;
  mCurrentId : Z;
  mHeap : gmap nat Source
}.

(** What a handler or the loop does to the outside.  [Frame] is a message
    the main loop sends while it processes the flow of that id. *)
Inductive Effect :=
  | Reply (m : OscMsg)
  | ShmOpen (shmFile : string)
  | Detect (flow : Z) (frames : list Image)
  | SetImage (flow : Z) (shmFile : string) (output : Image)
  | Frame (flow : Z) (m : OscMsg).

(** A handler returns, or the process stops on an uncaught exception or an
    access out of range. *)
Inductive Outcome :=
  | Returned (ret : Z) (theApp : App) (effects : list Effect)
  | Crashed.

(** [App::App()]. *)
Definition initialApp : App :=
  {| mSources := []; mFlows := []; mCurrentId := 0; mHeap := ∅ |}.

(** [unsigned int getValidId() {return ++mCurrentId;}]: the new value of the
    counter, which is also the value returned. *)
Definition getValidId (theApp : App) : Z :=
  Int.to_unsigned (mCurrentId theApp + 1).

(** [sprintf(buffer, "%i", n)]. *)
Definition sprintf_i (n : Z) : string := pretty n.

(** [lo_send(address, path, "s", text)] *)
Definition sendString (address : OscClient) (path text : string) : Effect :=
  Reply {| dest := address; path := path; args := [StringValue text] |}.

(** *** [App::oscHandlerConnect] *)

(** [getName() == sourceName && getSubsourceNbr() == (unsigned int)index]
    on the object at [p].  Every address kept in [mSources] or in a flow is
    that of an object of the heap; an address that is not has no name. *)
Definition isSource (heap : gmap nat Source) (sourceName : string)
  (subsourceNbr : Z) (p : nat) : bool :=
  match heap !! p with
  | Some s =>
      bool_decide (Source_getName s = sourceName)
      && bool_decide (Source_getSubsourceNbr s = subsourceNbr)
  | None => false
  end.

(** The loop allocating the sources.  [args] is the message from [iter] on,
    [pos] the position of [iter] in the message, [heap] the heap with the
    sources created so far and [sources] the local vector.  [devices pos]
    tells whether [connect()] succeeds for the source named at [pos].  The
    result is the text of the error reply, or the heap and the vector. *)
Fixpoint allocSources (theApp : App) (devices : nat → bool) (pos : nat)
  (args : Message) (heap : gmap nat Source) (sources : list nat)
  : string + (gmap nat Source * list nat) :=
  match args with
  | [] => inr (heap, sources)
  | [_] => inl "Missing sub-source number"
  | a :: b :: rest =>
      match toString a, toInt b with
      | Some sourceName, Some sourceIndex =>
          match List.filter
                  (isSource (mHeap theApp) sourceName
                            (Int.to_unsigned sourceIndex))
                  (mSources theApp) with
          | [] =>
              match mSourceFactory sourceName with
              | None => inl ("Unable to create source " +:+ sourceName)
              | Some create =>
                  if devices pos then
                    let p := fresh (dom heap) in
                    allocSources theApp devices (pos + 2) rest
                      (<[p := Source_connect (create sourceIndex)]> heap)
                      (sources ++ [p])
                  else inl ("Unable to connect to source " +:+ sourceName)
              end
          | found =>
              allocSources theApp devices (pos + 2) rest heap
                (sources ++ found)
          end
      | _, _ => inl "Expected integer as a sub-source number"
      end
  end.

(** [isInSources]: some source of [mSources] has the name and the
    sub-source number of the object at [source]. *)
Definition isInSources (heap : gmap nat Source) (mSources : list nat)
  (source : nat) : bool :=
  match heap !! source with
  | Some s =>
      existsb (isSource heap (Source_getName s) (Source_getSubsourceNbr s))
              mSources
  | None => false
  end.

(** The loop over [sources] that fills [mSources] and calls [addSource]. *)
Definition registerSources (heap : gmap nat Source) (sources : list nat)
  (mSources : list nat) (detector : Detector) : list nat * Detector :=
  foldl (λ acc source,
           (if isInSources heap acc.1 source then acc.1
            else acc.1 ++ [source],
            Detector_addSource acc.2 source))
        (mSources, detector) sources.

Definition oscHandlerConnect (theApp : App) (devices : nat → bool)
  (message : Message) : Outcome :=
  match message !! 1%nat with
  | None => Crashed
  | Some portValue =>
  match toInt portValue with
  | None => Returned 1 theApp []
  | Some portNbr =>
  (* char port[8] *)
  if negb (String.length (sprintf_i portNbr) <? 8)%nat then Crashed else
  match message !! 0%nat ≫= toString with
  | None => Crashed
  | Some hostName =>
  let address := {| host := hostName; port := sprintf_i portNbr |} in
  if negb (lo_address_errno address =? 0) then Returned 1 theApp [] else
  if (length message <? 5)%nat then
    Returned 1 theApp
      [sendString address "/blobserver/connect" "Too few arguments"]
  else
  match message !! 2%nat ≫= toString with
  | None =>
      Returned 1 theApp
        [sendString address "/blobserver/connect"
           "Expected a detector type at position 2"]
  | Some detectorName =>
  match mDetectorFactory detectorName with
  | None =>
      Returned 1 theApp
        [sendString address "/blobserver/connect"
           "Detector type not recognized"]
  | Some detector =>
  match allocSources theApp devices 3 (drop 3 message) (mHeap theApp) [] with
  | inl error =>
      Returned 1 theApp [sendString address "/blobserver/connect" error]
  | inr (heap, sources) =>
  if mSourceNbr <=? Z.of_nat (length sources) then
    let flowId := getValidId theApp in
    let shmFile := "/tmp/blobserver_output_" +:+ sprintf_i (Int.to_signed flowId) in
    let registered := registerSources heap sources (mSources theApp) detector in
    let flow := {| detector := registered.2; sources := sources;
                   client := address; shm := shmFile; id := flowId;
                   run := false |} in
    Returned 0
      {| mSources := registered.1; mFlows := mFlows theApp ++ [flow];
         mCurrentId := flowId; mHeap := heap |}
      [ShmOpen shmFile;
       Reply {| dest := address; path := "/blobserver/connect";
                args := [StringValue "Connected";
                         IntValue (Int.to_signed flowId)] |}]
  else
    Returned 1 theApp
      [sendString address "/blobserver/connect"
         "The specified detector needs more sources"]
  end end end end end end.

(** *** [App::oscHandlerDisconnect] *)

(** The loop over [mFlows].  [erase(flow)] leaves the iterator on the next
    element, [flow++] moves to it.  [detectorId == flow->id] compares an
    [int] with an [unsigned int]. *)
Fixpoint eraseFlows (url : string) (all : bool) (detectorId : Z)
  (flows : list Flow) : list Flow * list Effect :=
  match flows with
  | [] => ([], [])
  | flow :: rest =>
      let r := eraseFlows url all detectorId rest in
      if bool_decide (lo_address_get_url (client flow) = url) then
        if all || (Int.to_unsigned detectorId =? id flow) then
          (r.1,
           sendString (client flow) "/blobserver/disconnect" "Disconnected"
             :: r.2)
        else (flow :: r.1, r.2)
      else (flow :: r.1, r.2)
  end.

Definition oscHandlerDisconnect (theApp : App) (message : Message)
  : Outcome :=
  match message !! 0%nat ≫= toString with
  | None => Crashed
  | Some addressStr =>
  let address := {| host := addressStr; port := "9000" |} in
  if negb (lo_address_errno address =? 0) then Returned 1 theApp [] else
  if negb (length message =? 1)%nat && negb (length message =? 2)%nat then
    Returned 1 theApp
      [sendString address "/blobserver/disconnect" "Wrong number of arguments"]
  else
  match (if (length message =? 1)%nat then Some (true, 0)
         else detectorId ← message !! 1%nat ≫= toInt;
              Some (false, detectorId)) with
  | None => Crashed
  | Some (all, detectorId) =>
      let r := eraseFlows (lo_address_get_url address) all detectorId
                 (mFlows theApp) in
      Returned 0
        {| mSources := mSources theApp; mFlows := r.1;
           mCurrentId := mCurrentId theApp; mHeap := mHeap theApp |}
        r.2
  end end.

(** *** [App::oscHandlerSetParameter] *)

Definition setDetector (flow : Flow) (d : Detector) : Flow :=
  {| detector := d; sources := sources flow; client := client flow;
     shm := shm flow; id := id flow; run := run flow |}.

Definition setRun (flow : Flow) (b : bool) : Flow :=
  {| detector := detector flow; sources := sources flow;
     client := client flow; shm := shm flow; id := id flow; run := b |}.

(** The body of the loop for a flow whose id is [flowId]: the flow, the
    heap, [result] and what is sent; [None] is an uncaught exception. *)
Definition setParameterFlow (message : Message) (flow : Flow)
  (heap : gmap nat Source) (result : Z)
  : option (Flow * gmap nat Source * Z * list Effect) :=
  target ← message !! 2%nat ≫= toString;
  if bool_decide (target = "Detector") then
    if (length message <? 5)%nat then
      Some (flow, heap, 1,
            [sendString (client flow) "/blobserver/setParameter"
               "Wrong number of arguments"])
    else
      Some (setDetector flow
              (Detector_setParameter (detector flow) (drop 3 message)),
            heap, result, [])
  else if bool_decide (target = "Source") then
    if (length message <? 6)%nat then
      Some (flow, heap, 1,
            [sendString (client flow) "/blobserver/setParameter"
               "Wrong number of arguments"])
    else
      srcNbr ← message !! 3%nat ≫= toInt;
      (* srcNbr >= flow->sources.size(), the int converted to size_t *)
      if (srcNbr <? 0) || (Z.of_nat (length (sources flow)) <=? srcNbr) then
        Some (flow, heap, 1,
              [sendString (client flow) "/blobserver/setParameter"
                 "Wrong source index"])
      else
        source ← sources flow !! Z.to_nat srcNbr;
        Some (flow,
              alter (λ s, Source_setParameter s (drop 4 message)) source heap,
              result, [])
  else if bool_decide (target = "Start") then
    Some (setRun flow true, heap, result, [])
  else if bool_decide (target = "Stop") then
    Some (setRun flow false, heap, result, [])
  else Some (flow, heap, result, []).

(** The loop over [mFlows]. *)
Fixpoint setParameterFlows (message : Message) (flowId : Z)
  (flows : list Flow) (heap : gmap nat Source) (result : Z)
  : option (list Flow * gmap nat Source * Z * list Effect) :=
  match flows with
  | [] => Some ([], heap, result, [])
  | flow :: rest =>
      if id flow =? flowId then
        '(flow', heap', result', sent) ←
          setParameterFlow message flow heap result;
        '(rest', heap'', result'', sent') ←
          setParameterFlows message flowId rest heap' result';
        Some (flow' :: rest', heap'', result'', sent ++ sent')
      else
        '(rest', heap', result', sent) ←
          setParameterFlows message flowId rest heap result;
        Some (flow :: rest', heap', result', sent)
  end.

Definition oscHandlerSetParameter (theApp : App) (message : Message)
  : Outcome :=
  match message !! 0%nat ≫= toString with
  | None => Crashed
  | Some addressStr =>
  let address := {| host := addressStr; port := "9000" |} in
  if (length message <? 3)%nat then
    Returned 1 theApp
      [sendString address "/blobserver/setParameter"
         "Wrong number of arguments"]
  else
  if negb (lo_address_errno address =? 0) then Returned 1 theApp [] else
  match message !! 1%nat ≫= toInt with
  | None => Crashed
  | Some flowArg =>
  match setParameterFlows message (Int.to_unsigned flowArg) (mFlows theApp)
          (mHeap theApp) 0 with
  | None => Crashed
  | Some (flows, heap, result, sent) =>
      Returned result
        {| mSources := mSources theApp; mFlows := flows;
           mCurrentId := mCurrentId theApp; mHeap := heap |}
        sent
  end end end.

(** *** [App::loop]: the traversal of the flows

    The display ([lBuffers], [imshow], [waitKey]) is left out.
    [captures p] is what [retrieveCorrectedFrame()] returns for the source
    at [p] in this iteration. *)

(** [message[k]] for an [int k]. *)
Definition messageAt (message : Message) (k : Z) : option Value :=
  if k <? 0 then None else message !! Z.to_nat k.

(** The inner [for]: the values [message[i * size + 2 + j]], [j < size];
    [None] is an access out of range. *)
Definition blobMessage (message : Message) (size i : Z) : option Message :=
  mapM (λ j, messageAt message (Int.to_signed (i * size + 2 + j)))
       (seqZ 0 size).

(** The outer [for]: one message for every [i < nbr]. *)
Definition blobMessages (message : Message) (nbr size : Z)
  : option (list Message) :=
  mapM (blobMessage message size) (seqZ 0 nbr).

(** The body of the [for_each] for one flow. *)
Definition frameFlow (frameNbr : Z) (captures : nat → Image) (flow : Flow)
  : option (Flow * list Effect) :=
  if negb (run flow) then Some (flow, []) else
  let frames := captures <$> sources flow in
  let detected := Detector_detect (detector flow) frames in
  let message := detected.1 in
  let output := Detector_getOutput detected.2 in
  nbr ← message !! 0%nat ≫= toInt;
  size ← message !! 1%nat ≫= toInt;
  blobs ← blobMessages message nbr size;
  Some (setDetector flow detected.2,
        [Detect (id flow) frames;
         SetImage (id flow) (shm flow) output;
         Frame (id flow)
           {| dest := client flow; path := "/blobserver/startFrame";
              args := [IntValue frameNbr;
                       IntValue (Int.to_signed (id flow))] |}]
        ++ ((λ msg, Frame (id flow)
                      {| dest := client flow;
                         path := Detector_getOscPath detected.2;
                         args := msg |}) <$> blobs)
        ++ [Frame (id flow)
              {| dest := client flow; path := "/blobserver/endFrame";
                 args := [IntValue frameNbr;
                          IntValue (Int.to_signed (id flow))] |}]).

Fixpoint frameFlows (frameNbr : Z) (captures : nat → Image)
  (flows : list Flow) : option (list Flow * list Effect) :=
  match flows with
  | [] => Some ([], [])
  | flow :: rest =>
      '(flow', sent) ← frameFlow frameNbr captures flow;
      '(rest', sent') ← frameFlows frameNbr captures rest;
      Some (flow' :: rest', sent ++ sent')
  end.

(** *** The server as a transition system *)

(** The state: the application and the [frameNbr] of [App::loop]. *)
Record Sys := {
  theApp : App;
  frameNbr : Z
}.

Inductive Request :=
  | Connect (devices : nat → bool) (message : Message)
  | Disconnect (message : Message)
  | SetParameter (message : Message)
  | LoopIteration (captures : nat → Image).

Definition ofOutcome (frameNbr : Z) (o : Outcome)
  : option (Sys * list Effect) :=
  match o with
  | Returned _ theApp effects =>
      Some ({| theApp := theApp; frameNbr := frameNbr |}, effects)
  | Crashed => None
  end.

(** One request handled, or one iteration of the [while] of [App::loop];
    [None] is the end of the process. *)
Definition handle (s : Sys) (r : Request) : option (Sys * list Effect) :=
  match r with
  | Connect devices message =>
      ofOutcome (frameNbr s) (oscHandlerConnect (theApp s) devices message)
  | Disconnect message =>
      ofOutcome (frameNbr s) (oscHandlerDisconnect (theApp s) message)
  | SetParameter message =>
      ofOutcome (frameNbr s) (oscHandlerSetParameter (theApp s) message)
  | LoopIteration captures =>
      '(flows, sent) ← frameFlows (frameNbr s) captures (mFlows (theApp s));
      Some ({| theApp := {| mSources := mSources (theApp s); mFlows := flows;
                            mCurrentId := mCurrentId (theApp s);
                            mHeap := mHeap (theApp s) |};
               frameNbr := Int.to_signed (frameNbr s + 1) |},
            sent)
  end.

Fixpoint handleAll (s : Sys) (requests : list Request)
  : option (Sys * list Effect) :=
  match requests with
  | [] => Some (s, [])
  | r :: requests' =>
      '(s', effects) ← handle s r;
      '(s'', effects') ← handleAll s' requests';
      Some (s'', effects ++ effects')
  end.

Definition initialSys : Sys := {| theApp := initialApp; frameNbr := 0 |}.

(** *** Vocabulary of the statements *)

(** The flow id a reply to a successful connect carries. *)
Definition connectedId (e : Effect) : option Z :=
  match e with
  | Reply {| path := p; args := [StringValue text; IntValue flowId] |} =>
      if bool_decide (p = "/blobserver/connect")
         && bool_decide (text = "Connected")
      then Some flowId else None
  | _ => None
  end.

(** The flow ids returned by the successful connects, in order. *)
Definition connectedIds (effects : list Effect) : list Z :=
  omap connectedId effects.

(** The flow the main loop acts for. *)
Definition loopFlow (e : Effect) : option Z :=
  match e with
  | Detect flow _ | SetImage flow _ _ | Frame flow _ => Some flow
  | Reply _ | ShmOpen _ => None
  end.

(** Nothing is detected, published or sent for the flow [flowId]. *)
Definition silentFor (flowId : Z) (effects : list Effect) : Prop :=
  ∀ e, e ∈ effects → loopFlow e ≠ Some flowId.

(** Every flow of that id is stopped. *)
Definition stopped (flowId : Z) (a : App) : Prop :=
  ∀ flow, flow ∈ mFlows a → id flow = flowId → run flow = false.

(** The record of blob [i] in a report with records of [size] values: the
    values at the positions [2 + i * size] to [2 + i * size + size - 1]. *)
Definition record (message : Message) (size i : Z) : Message :=
  take (Z.to_nat size) (drop (Z.to_nat (2 + i * size)) message).

(** [lo_address_new(addressStr, "9000")]: the address a handler builds from
    the [<ip>] of its request, whatever the port the subscriber gave when it
    connected. *)
Definition callerOf (ip : string) : OscClient :=
  {| host := ip; port := "9000" |}.

(** [/blobserver/disconnect <ip> [<flow-id>]] *)
Definition disconnectMessage (ip : string) (flowArg : option Z) : Message :=
  StringValue ip
    :: match flowArg with Some flowId => [IntValue flowId] | None => [] end.

(** What the loop of [oscHandlerDisconnect] tests of a flow: the URL of its
    client is the URL of [<ip>] on port 9000 and, when the request carries a
    flow id, the flow has that id. *)
Definition disconnects (ip : string) (flowArg : option Z) (flow : Flow)
  : Prop :=
  lo_address_get_url (client flow) = lo_address_get_url (callerOf ip) ∧
  match flowArg with
  | Some flowId => Int.to_unsigned flowId = id flow
  | None => True
  end.

(** C6 as the specification words it: the flow is one of the calling
    subscriber, the subscriber at [<ip>] with the port it connected with,
    and, when the request carries a flow id, has that id. *)
Definition ofSubscriber (ip : string) (flowArg : option Z) (flow : Flow)
  : Prop :=
  host (client flow) = ip ∧
  match flowArg with
  | Some flowId => flowId = id flow
  | None => True
  end.

#[export] Instance disconnects_dec ip flowArg flow :
  Decision (disconnects ip flowArg flow).
Proof. unfold disconnects. destruct flowArg; apply _. Defined.

(** A reply of a handler that carries one string. *)
Definition isTextReply (e : Effect) : Prop :=
  ∃ address replyPath text, e = sendString address replyPath text.

(** [run] set to [b] in the flows of id [flowId]. *)
Definition setRunOf (flowId : Z) (b : bool) (flows : list Flow) : list Flow :=
  (λ flow, if id flow =? flowId then setRun flow b else flow) <$> flows.

(** [/blobserver/setParameter <ip> <flow-id> Start] or [... Stop] *)
Definition runMessage (ip : string) (flowArg : Z) (b : bool) : Message :=
  [StringValue ip; IntValue flowArg;
   StringValue (if b then "Start" else "Stop")].

(** The two markers of a frame. *)
Definition startFrame (frameNbr : Z) (flow : Flow) : Effect :=
  Frame (id flow)
    {| dest := client flow; path := "/blobserver/startFrame";
       args := [IntValue frameNbr; IntValue (Int.to_signed (id flow))] |}.

Definition endFrame (frameNbr : Z) (flow : Flow) : Effect :=
  Frame (id flow)
    {| dest := client flow; path := "/blobserver/endFrame";
       args := [IntValue frameNbr; IntValue (Int.to_signed (id flow))] |}.

(** How a set-parameter request may change a flow: never its id, and its
    [run] flag only to [false], or to [true] on ["Start"]. *)
Definition runChange (message : Message) (flow flow' : Flow) : Prop :=
  id flow' = id flow ∧
  (run flow' = run flow ∨ run flow' = false ∨
   (run flow' = true ∧ message !! 2%nat = Some (StringValue "Start"))).

(** A request to start the flow [flowId]. *)
Definition startsFlow (flowId : Z) (r : Request) : Prop :=
  match r with
  | SetParameter message =>
      ∃ flowArg, message !! 1%nat = Some (IntValue flowArg) ∧
                 Int.to_unsigned flowArg = flowId ∧
                 message !! 2%nat = Some (StringValue "Start")
  | _ => False
  end.

(** The sources a connect request names, [args] being the message from
    position 3 on: the name and the sub-source number as the handler
    compares it, [(unsigned int)sourceIndex]. *)
Fixpoint namedSources (args : Message) : list (string * Z) :=
  match args with
  | a :: b :: rest =>
      match toString a, toInt b with
      | Some sourceName, Some sourceIndex =>
          (sourceName, Int.to_unsigned sourceIndex) :: namedSources rest
      | _, _ => []
      end
  | _ => []
  end.

(** A source of that name and sub-source number is in [mSources]. *)
Definition registered (a : App) (named : string * Z) : Prop :=
  ∃ p, p ∈ mSources a ∧ isSource (mHeap a) named.1 named.2 p = true.

(** The name and the sub-source number of the object at [p]. *)
Definition sourceKey (heap : gmap nat Source) (p : nat)
  : option (string * Z) :=
  (λ s, (Source_getName s, Source_getSubsourceNbr s)) <$> heap !! p.

(** Every registered source is an object of the heap, and no two registered
    sources have the same name and sub-source number. *)
Definition distinctSources (a : App) : Prop :=
  (∀ p, p ∈ mSources a → is_Some (mHeap a !! p)) ∧
  NoDup (sourceKey (mHeap a) <$> mSources a).

(** What a flow keeps for as long as it lives. *)
Definition keeps (flow flow' : Flow) : Prop :=
  id flow' = id flow ∧ client flow' = client flow ∧
  sources flow' = sources flow ∧ shm flow' = shm flow.

(** The shared-memory path of the flow of that id:
    [sprintf(shmFile, "/tmp/blobserver_output_%i", flow.id)]. *)
Definition shmOf (flowId : Z) : string :=
  "/tmp/blobserver_output_" +:+ sprintf_i (Int.to_signed flowId).

(** The number of iterations of the main loop among the requests. *)
Fixpoint iterations (requests : list Request) : Z :=
  match requests with
  | [] => 0
  | LoopIteration _ :: requests' => 1 + iterations requests'
  | _ :: requests' => iterations requests'
  end.

(** The flows of [flows'] are flows of [flows], in their order, with what
    a flow keeps. *)
Definition survive (flows flows' : list Flow) : Prop :=
  ∃ kept, kept `sublist_of` flows ∧ Forall2 keeps kept flows'.

(** The flows a set-parameter request looks for. *)
Definition flowsOf (flowId : Z) (flows : list Flow) : list Flow :=
  filter (λ flow, id flow = flowId) flows.

(** The report of the detector of the flow on the frames of an iteration,
    and the detector after it. *)
Definition detectionOf (captures : nat → Image) (flow : Flow)
  : Message * Detector :=
  Detector_detect (detector flow) (captures <$> sources flow).

(** A report as section 4.3 describes it: the number of blobs, the size of a
    record, then the values of the records. *)
Definition wellFormed (report : Message) : Prop :=
  ∃ nbr size,
    report !! 0%nat = Some (IntValue nbr) ∧
    report !! 1%nat = Some (IntValue size) ∧
    0 ≤ nbr ∧ 0 ≤ size ∧
    2 + nbr * size ≤ Z.of_nat (length report) ∧
    Z.of_nat (length report) < Int.half_modulus.

(** The number of blobs and the size of a record a report announces. *)
Definition nbrOf (report : Message) : Z :=
  default 0 (report !! 0%nat ≫= toInt).

Definition sizeOf (report : Message) : Z :=
  default 0 (report !! 1%nat ≫= toInt).

(** Per-frame emission for a flow: nothing for a stopped flow; for a
    running one the detector is run on the frames of its sources, its
    output is written to the shared memory of the flow, and the client is
    sent the start marker, one message for every record of the report and
    the end marker. *)
Definition emission (frameNbr : Z) (captures : nat → Image) (flow : Flow)
  : list Effect :=
  if run flow then
    let report := (detectionOf captures flow).1 in
    let after := (detectionOf captures flow).2 in
    [Detect (id flow) (captures <$> sources flow);
     SetImage (id flow) (shm flow) (Detector_getOutput after);
     startFrame frameNbr flow]
    ++ ((λ i, Frame (id flow)
                {| dest := client flow; path := Detector_getOscPath after;
                   args := record report (sizeOf report) i |})
          <$> seqZ 0 (nbrOf report))
    ++ [endFrame frameNbr flow]
  else [].

(** The flow after an iteration: the detector of a running flow has seen
    the frames. *)
Definition afterFrame (captures : nat → Image) (flow : Flow) : Flow :=
  if run flow then setDetector flow (detectionOf captures flow).2 else flow.

(** The state after an iteration of the main loop. *)
Definition afterLoop (captures : nat → Image) (s : Sys) : Sys :=
  {| theApp := {| mSources := mSources (theApp s);
                  mFlows := afterFrame captures <$> mFlows (theApp s);
                  mCurrentId := mCurrentId (theApp s);
                  mHeap := mHeap (theApp s) |};
     frameNbr := Int.to_signed (frameNbr s + 1) |}.

(** The state after a ["Start"] ([b = true]) or a ["Stop"] request for the
    flow id [flowArg]. *)
Definition afterRun (flowArg : Z) (b : bool) (s : Sys) : Sys :=
  {| theApp := {| mSources := mSources (theApp s);
                  mFlows := setRunOf (Int.to_unsigned flowArg) b
                              (mFlows (theApp s));
                  mCurrentId := mCurrentId (theApp s);
                  mHeap := mHeap (theApp s) |};
     frameNbr := frameNbr s |}.

(** The running flows report well formed messages on these frames. *)
Definition reports (captures : nat → Image) (flows : list Flow) : Prop :=
  Forall (λ flow, run flow = true →
                  wellFormed (detectionOf captures flow).1) flows.

End server.

(** *** [App::updateSources] and [App::oscHandlerGetParameter]

    The methods of [Source] and [Detector] they call, parameters of the
    model like those of [Platform]; [getParameter] is not a [const] method,
    so it returns the object as it leaves it. *)
Class Queries `{Platform} := {
  Source_grabFrame : Source → Source;
  Source_getParameter : Source → Message → Message * Source;
  Detector_getParameter : Detector → Message → Message * Detector
}.

Section queries.
Context `{Queries}.

(** [source.use_count()] in the loop of [updateSources]: one for every copy
    of the pointer in [mSources], one for the local [source], one for every
    copy in the [sources] of a flow.  The detectors hold [weak_ptr]s, which
    do not count. *)
Definition use_count (mSources : list nat) (flows : list Flow) (p : nat)
  : Z :=
  Z.of_nat (length (filter (λ q, q = p) mSources)) + 1
  + Z.of_nat (length (filter (λ q, q = p) (mjoin (sources <$> flows)))).

(** The [for] loop of [updateSources].  [done] are the elements of
    [mSources] before [iter] and [rest] those from [iter] on.
    [erase(iter)] shifts the next element to the slot of [iter]; [--iter]
    and the [++iter] of the loop come back to this slot.  The erased
    pointer was the last but [source], so the object goes with it. *)
Fixpoint grabSources (flows : list Flow) (done rest : list nat)
  (heap : gmap nat Source) : list nat * gmap nat Source :=
  match rest with
  | [] => (done, heap)
  | p :: rest' =>
      let heap' := alter Source_grabFrame p heap in
      if use_count (done ++ rest) flows p =? 2
      then grabSources flows done rest' (delete p heap')
      else grabSources flows (done ++ [p]) rest' heap'
  end.

(** One pass of the [while] of [App::updateSources]. *)
Definition updateSources (theApp : App) : App :=
  let r := grabSources (mFlows theApp) [] (mSources theApp) (mHeap theApp) in
  {| mSources := r.1; mFlows := mFlows theApp;
     mCurrentId := mCurrentId theApp; mHeap := r.2 |}.

(** The sources some flow points to. *)
Definition usedSources (flows : list Flow) : list nat :=
  mjoin (sources <$> flows).

(** [lo_send_message(flow.client->get(), "/blobserver/getParameter", oscMsg)] *)
Definition sendParameter (flow : Flow) (msg : Message) : Effect :=
  Reply {| dest := client flow; path := "/blobserver/getParameter";
           args := msg |}.

(** The body of the [for_each] of [oscHandlerGetParameter] for a flow whose
    id is [flowId]: the flow, the heap, [result] and what is sent; [None] is
    an access out of range.  The [return 1] of the [catch] leaves the
    lambda, not the handler: it ends the work on this flow, and [for_each]
    drops the value. *)
Definition getParameterFlow (message : Message) (entity : string)
  (flow : Flow) (heap : gmap nat Source) (result : Z)
  : option (Flow * gmap nat Source * Z * list Effect) :=
  if bool_decide (entity = "Detector") then
    name ← message !! 3%nat;
    let answer := Detector_getParameter (detector flow) [name] in
    Some (setDetector flow answer.2, heap, result,
          [sendParameter flow answer.1])
  else if bool_decide (entity = "Sources") then
    if (length message <? 5)%nat then
      Some (flow, heap, 1,
            [sendString (client flow) "/blobserver/getParameter"
               "Wrong number of arguments"])
    else
      match message !! 3%nat ≫= toInt with
      | None => Some (flow, heap, result, [])
      | Some srcNbr =>
          (* srcNbr >= flow.sources.size(), the int converted to size_t *)
          if (srcNbr <? 0) || (Z.of_nat (length (sources flow)) <=? srcNbr)
          then Some (flow, heap, 1, [])
          else
            p ← sources flow !! Z.to_nat srcNbr;
            source ← heap !! p;
            name ← message !! 4%nat;
            let answer := Source_getParameter source [name] in
            Some (flow, <[p := answer.2]> heap, result,
                  [sendParameter flow answer.1])
      end
  else Some (flow, heap, result, []).

(** The [for_each] over [mFlows]. *)
Fixpoint getParameterFlows (message : Message) (flowId : Z) (entity : string)
  (flows : list Flow) (heap : gmap nat Source) (result : Z)
  : option (list Flow * gmap nat Source * Z * list Effect) :=
  match flows with
  | [] => Some ([], heap, result, [])
  | flow :: rest =>
      if id flow =? flowId then
        '(flow', heap', result', sent) ←
          getParameterFlow message entity flow heap result;
        '(rest', heap'', result'', sent') ←
          getParameterFlows message flowId entity rest heap' result';
        Some (flow' :: rest', heap'', result'', sent ++ sent')
      else
        '(rest', heap', result', sent) ←
          getParameterFlows message flowId entity rest heap result;
        Some (flow :: rest', heap', result', sent)
  end.

(** [App::oscHandlerGetParameter].  [message[0]] is read before the size of
    the message is looked at; the address is not checked with
    [lo_address_errno]. *)
Definition oscHandlerGetParameter (theApp : App) (message : Message)
  : Outcome :=
  match message !! 0%nat with
  | None => Crashed
  | Some first =>
  match toString first with
  | None => Returned 1 theApp []
  | Some addressStr =>
  let address := {| host := addressStr; port := "9000" |} in
  if (length message <? 4)%nat then
    Returned 1 theApp
      [sendString address "/blobserver/getParameter"
         "Wrong number of arguments"]
  else
  match message !! 1%nat ≫= toInt, message !! 2%nat ≫= toString with
  | Some flowArg, Some entity =>
      match getParameterFlows message (Int.to_unsigned flowArg) entity
              (mFlows theApp) (mHeap theApp) 0 with
      | None => Crashed
      | Some (flows, heap, result, sent) =>
          Returned result
            {| mSources := mSources theApp; mFlows := flows;
               mCurrentId := mCurrentId theApp; mHeap := heap |}
            sent
      end
  | _, _ => Returned 1 theApp []
  end end end.

(** A message of [oscHandlerGetParameter] to the client of a flow of that
    id. *)
Definition answersFlow (flowId : Z) (flows : list Flow) (e : Effect) : Prop :=
  ∃ flow m, flow ∈ flows ∧ id flow = flowId ∧
            e = Reply m ∧ dest m = client flow ∧
            path m = "/blobserver/getParameter".

End queries.

(** *** A platform for the examples

    One detector class, ["Demo"], which needs one source and reports two
    blobs of three values each; one source class, ["Camera"]; every address
    is valid. *)
Definition demoReport : Message :=
  [IntValue 2; IntValue 3;
   IntValue 10; IntValue 11; IntValue 12;
   IntValue 20; IntValue 21; IntValue 22].

#[export] Instance demoPlatform : Platform := {|
  Image := list Z;
  Source := string * Z;
  Detector := Message;
  lo_address_errno _ := 0;
  lo_address_get_url c := "osc.udp://" +:+ host c +:+ ":" +:+ port c +:+ "/";
  mDetectorFactory name :=
    if bool_decide (name = "Demo") then Some demoReport else None;
  mSourceFactory name :=
    if bool_decide (name = "Camera")
    then Some (λ index, (name, index)) else None;
  mSourceNbr := 1;
  Source_getName := fst;
  Source_getSubsourceNbr := snd;
  Source_connect s := s;
  Source_setParameter s _ := s;
  Detector_detect d _ := (d, d);
  Detector_getOutput _ := [];
  Detector_getOscPath _ := "/blobserver/demo";
  Detector_setParameter d _ := d;
  Detector_addSource d _ := d
|}.

#[export] Instance demoQueries : Queries := {|
  Source_grabFrame s := s;
  Source_getParameter s m := (m ++ [IntValue s.2], s);
  Detector_getParameter d m := (m ++ [IntValue 0], d)
|}.

Definition demoDetector : Detector := demoReport.

Definition noImage : Image := [].

(** [/blobserver/connect 10.0.0.1 9000 Demo Camera 0] *)
Definition demoConnect : Message :=
  [StringValue "10.0.0.1"; IntValue 9000; StringValue "Demo";
   StringValue "Camera"; IntValue 0].

Definition demoClient : OscClient := {| host := "10.0.0.1"; port := "9000" |}.

(** The flow [demoConnect] creates on the initial state. *)
Definition demoFlow (running : bool) : Flow :=
  {| detector := demoDetector; sources := [0%nat]; client := demoClient;
     shm := "/tmp/blobserver_output_1"; id := 1; run := running |}.

(** The state after [demoConnect] on the initial state. *)
Definition demoApp : App :=
  {| mSources := [0%nat]; mFlows := [demoFlow false]; mCurrentId := 1;
     mHeap := {[ 0%nat := ("Camera", 0) ]} |}.

End Server.

(** * Properties *)

Module IntFacts.
Import Int.

Lemma to_unsigned_range z : in_unsigned (to_unsigned z).
Proof. unfold in_unsigned, to_unsigned, modulus. apply Z.mod_pos_bound. lia. Qed.

Lemma to_unsigned_id z : in_unsigned z → to_unsigned z = z.
Proof. unfold in_unsigned, to_unsigned. intros. by apply Z.mod_small. Qed.

Lemma to_signed_id z : in_int z → to_signed z = z.
Proof.
  unfold in_int, to_signed, half_modulus, modulus. intros Hz.
  destruct (decide (0 ≤ z)) as [Hpos|Hneg].
  - rewrite Z.mod_small by lia.
    destruct (Z.ltb_spec z (2 ^ 31)); lia.
  - replace (z mod 2 ^ 32) with (z + 2 ^ 32).
    + destruct (Z.ltb_spec (z + 2 ^ 32) (2 ^ 31)); lia.
    + apply Z.mod_unique with (q := -1); lia.
Qed.

Lemma to_signed_range z : in_int (to_signed z).
Proof.
  unfold in_int, to_signed, half_modulus, modulus.
  pose proof (Z.mod_pos_bound z (2 ^ 32)).
  destruct (Z.ltb_spec (z mod 2 ^ 32) (2 ^ 31)); lia.
Qed.

Lemma to_unsigned_signed z : to_unsigned (to_signed z) = to_unsigned z.
Proof.
  unfold to_unsigned, to_signed, half_modulus, modulus.
  destruct (Z.ltb_spec (z mod 2 ^ 32) (2 ^ 31)).
  - apply Z.mod_mod; lia.
  - replace (z mod 2 ^ 32 - 2 ^ 32) with (z mod 2 ^ 32 + (-1) * 2 ^ 32) by lia.
    rewrite Z.mod_add by lia. apply Z.mod_mod; lia.
Qed.

Lemma to_unsigned_add_l a b : to_unsigned (to_unsigned a + b) = to_unsigned (a + b).
Proof. unfold to_unsigned, modulus. apply Zplus_mod_idemp_l. Qed.

Lemma to_signed_unsigned z : to_signed (to_unsigned z) = to_signed z.
Proof.
  unfold to_signed, to_unsigned, modulus. by rewrite Z.mod_mod by lia.
Qed.

Lemma to_signed_add_l a b : to_signed (to_unsigned a + b) = to_signed (a + b).
Proof.
  rewrite <-to_signed_unsigned, to_unsigned_add_l. apply to_signed_unsigned.
Qed.

End IntFacts.

Module TrackerFacts.
Import Tracker.

Lemma Qgtb_false a b : Qgtb a b = false ↔ (a <= b)%Q.
Proof.
  unfold Qgtb. rewrite negb_false_iff. apply Qle_bool_iff.
Qed.

Lemma Qgtb_true a b : Qgtb a b = true ↔ (b < a)%Q.
Proof.
  unfold Qgtb. rewrite negb_true_iff. split.
  - intros Hf. apply Qnot_le_lt. intros Hle.
    apply Qle_bool_iff in Hle. congruence.
  - intros Hlt. destruct (Qle_bool a b) eqn:E; [|done].
    apply Qle_bool_iff in E. exfalso. by apply (Qlt_not_le b a).
Qed.

Lemma pair_lt_false nearest p :
  pair_lt nearest p = false ↔ (_dist nearest <= _dist p)%Q.
Proof. apply Qgtb_false. Qed.

(** The erase loop is a filter. *)
Lemma erasePairs_filter nearest l :
  erasePairs nearest l = filter (compatible nearest) l.
Proof.
  induction l as [|p l IH]; [done|]. simpl.
  destruct (Nat.eqb_spec (_current p) (_current nearest)) as [Hc|Hc].
  { rewrite filter_cons_False; [done|]. unfold compatible. tauto. }
  destruct (Nat.eqb_spec (_measure p) (_measure nearest)) as [Hm|Hm].
  { rewrite filter_cons_False; [done|]. unfold compatible. tauto. }
  rewrite filter_cons_True by done. by rewrite IH.
Qed.

Lemma removelast_snoc {A} (l : list A) x : removelast (l ++ [x]) = l.
Proof. apply removelast_last. Qed.

(** **** The selection used in the examples conforms *)

Lemma nearestIndex_lt l : l ≠ [] → (nearestIndex l < length l)%nat.
Proof.
  induction l as [|p l IH]; [done|]. intros _. simpl.
  destruct (l !! nearestIndex l) as [q|] eqn:E; [|lia].
  destruct (pair_lt p q); [|lia].
  apply lookup_lt_Some in E. lia.
Qed.

Lemma nearestIndex_least l nearest :
  l !! nearestIndex l = Some nearest →
  ∀ p, p ∈ l → pair_lt nearest p = false.
Proof.
  revert nearest. induction l as [|p0 l IH]; intros nearest; [done|].
  simpl. destruct (l !! nearestIndex l) as [q|] eqn:E.
  - destruct (pair_lt p0 q) eqn:Hlt.
    + simpl. rewrite E. intros [= <-] p Hp.
      apply elem_of_cons in Hp as [->|Hp]; [|by apply IH].
      apply pair_lt_false. apply Qgtb_true in Hlt. by apply Qlt_le_weak.
    + simpl. intros [= <-] p Hp. apply pair_lt_false in Hlt.
      apply elem_of_cons in Hp as [->|Hp].
      * apply pair_lt_false. apply Qle_refl.
      * apply pair_lt_false. eapply Qle_trans; [exact Hlt|].
        apply pair_lt_false. by apply IH.
  - simpl. intros [= <-] p Hp.
    destruct l as [|q l].
    + apply list_elem_of_singleton in Hp as ->.
      apply pair_lt_false, Qle_refl.
    + apply lookup_ge_None in E.
      assert (nearestIndex (q :: l) < length (q :: l))%nat
        by by apply nearestIndex_lt.
      lia.
Qed.

Lemma selectNearest_contract : heap_contract selectNearest.
Proof.
  intros l. unfold selectNearest.
  destruct (l !! nearestIndex l) as [nearest|] eqn:E.
  - split.
    + rewrite Permutation_app_comm. simpl. symmetry.
      by apply delete_Permutation.
    + intros n. rewrite last_snoc. intros [= <-].
      by apply nearestIndex_least.
  - split; [done|]. intros n Hn p Hp.
    destruct l as [|p0 l]; [by apply elem_of_nil in Hp|].
    apply lookup_ge_None in E.
    assert (nearestIndex (p0 :: l) < length (p0 :: l))%nat
      by by apply nearestIndex_lt.
    lia.
Qed.

(** **** The matching loop *)

Section matching.
Context {T : Type} `{!TrackedBlob T}.
Variable heapify : list BlobPair → list BlobPair.
Hypothesis heapify_ok : heap_contract heapify.

(** One round of the loop: what [heapify], [back()] and [pop_back()] leave. *)
Lemma heapify_round l :
  l ≠ [] →
  ∃ nearest rest,
    heapify l = rest ++ [nearest] ∧ l ≡ₚ rest ++ [nearest] ∧
    ∀ p, p ∈ l → (_dist nearest <= _dist p)%Q.
Proof.
  intros Hne. destruct (heapify_ok l) as [Hperm Hmax].
  destruct (last (heapify l)) as [nearest|] eqn:Hlast.
  - apply last_Some in Hlast as [rest Hrest]. exists nearest, rest.
    split; [done|]. split; [by rewrite <-Hrest|].
    intros p Hp. apply pair_lt_false. by apply Hmax.
  - apply last_None in Hlast. rewrite Hlast in Hperm.
    by apply Permutation_nil_l in Hperm.
Qed.

(** The loop terminates within [length lSearchPairs] rounds and its result
    is a greedy run. *)
Lemma matchLoop_greedy fuel cands acc :
  (length cands ≤ fuel)%nat →
  ∃ lPairs, matchLoop heapify fuel cands acc = Some (acc ++ lPairs) ∧
            greedy cands lPairs.
Proof.
  revert cands acc. induction fuel as [|fuel IH]; intros cands acc Hlen.
  - destruct cands; [|simpl in Hlen; lia].
    exists []. rewrite app_nil_r. split; [done|constructor].
  - destruct cands as [|c cands].
    { exists []. rewrite app_nil_r. split; [done|constructor]. }
    destruct (heapify_round (c :: cands)) as (nearest & rest & Hh & Hp & Hmin);
      [done|].
    assert (length rest = length cands) as Hrest.
    { apply Permutation_length in Hp. rewrite length_app in Hp.
      simpl in Hp. lia. }
    destruct (IH (filter (compatible nearest) rest) (acc ++ [nearest]))
      as (lPairs & Hrun & Hgreedy).
    { pose proof (length_filter (compatible nearest) rest).
      simpl in Hlen. lia. }
    exists (nearest :: lPairs). split.
    + simpl. rewrite Hh, last_snoc, removelast_snoc, erasePairs_filter.
      rewrite Hrun. by rewrite <-app_assoc.
    + by econstructor.
Qed.

Lemma matchLoop_total cands :
  is_Some (matchLoop heapify (length cands) cands []).
Proof.
  destruct (matchLoop_greedy (length cands) cands []) as (l & -> & _); eauto.
Qed.

End matching.

(** Every committed pair was a candidate. *)
Lemma greedy_elem_of cands lPairs p :
  greedy cands lPairs → p ∈ lPairs → p ∈ cands.
Proof.
  induction 1 as [|cands nearest rest lPairs Hp Hmin _ IH]; intros Hin.
  - by apply elem_of_nil in Hin.
  - rewrite Hp, elem_of_app, list_elem_of_singleton.
    apply elem_of_cons in Hin as [->|Hin]; [by right|left].
    apply IH in Hin. by apply list_elem_of_filter in Hin as [_ ?].
Qed.

(** A committed pair is compatible with every pair committed before it. *)
Lemma greedy_compatible cands lPairs i j p q :
  greedy cands lPairs → (i < j)%nat →
  lPairs !! i = Some p → lPairs !! j = Some q → compatible p q.
Proof.
  intros Hg. revert i j.
  induction Hg as [|cands nearest rest lPairs Hp Hmin Hg IH];
    intros i j Hij Hi Hj; [done|].
  destruct j as [|j]; [lia|]. simpl in Hj.
  destruct i as [|i].
  - injection Hi as <-.
    assert (q ∈ filter (compatible nearest) rest) as Hq.
    { eapply greedy_elem_of; [done|]. by eapply list_elem_of_lookup_2. }
    by apply list_elem_of_filter in Hq as [? _].
  - simpl in Hi. apply (IH i j); [lia|done..].
Qed.

(** The committed distances never decrease. *)
Lemma greedy_nondecreasing cands lPairs :
  greedy cands lPairs → nondecreasing lPairs.
Proof.
  induction 1 as [|cands nearest rest lPairs Hp Hmin Hg IH];
    intros i j p q Hij Hi Hj; [done|].
  destruct i as [|i].
  - injection Hi as <-. apply Hmin.
    eapply (greedy_elem_of _ (nearest :: lPairs)).
    + by econstructor.
    + by eapply list_elem_of_lookup_2.
  - destruct j as [|j]; [lia|]. simpl in Hi, Hj.
    apply (IH i j); [lia|done..].
Qed.

(** **** The candidates form a grid, and a greedy run on a grid commits
    [min] of its sides *)

Lemma length_filter_ne (l : list nat) c :
  NoDup l → c ∈ l → S (length (filter (λ x, x ≠ c) l)) = length l.
Proof.
  induction 1 as [|x l Hx Hnd IH]; intros Hin.
  - by apply elem_of_nil in Hin.
  - apply elem_of_cons in Hin as [->|Hin].
    + rewrite filter_cons_False by (intros ?; done). simpl. f_equal.
      clear IH Hnd. induction l as [|y l IH]; [done|].
      apply not_elem_of_cons in Hx as [Hne Hx].
      rewrite filter_cons_True by done. simpl. f_equal. by apply IH.
    + rewrite filter_cons_True by (intros ->; done). simpl. f_equal.
      by apply IH.
Qed.

Lemma isGrid_nil tracks measures :
  isGrid [] tracks measures → tracks = [] ∨ measures = [].
Proof.
  intros (_ & _ & _ & Hiff).
  destruct tracks as [|c tracks]; [by left|].
  destruct measures as [|m measures]; [by right|].
  exfalso. apply (elem_of_nil (c, m)). apply Hiff. split; left.
Qed.

Lemma isGrid_commit cands nearest rest tracks measures :
  cands ≡ₚ rest ++ [nearest] →
  isGrid cands tracks measures →
  _current nearest ∈ tracks ∧ _measure nearest ∈ measures ∧
  isGrid (filter (compatible nearest) rest)
         (filter (λ c, c ≠ _current nearest) tracks)
         (filter (λ m, m ≠ _measure nearest) measures).
Proof.
  intros Hp (Hnt & Hnm & Hnk & Hiff).
  assert (key <$> cands ≡ₚ key nearest :: (key <$> rest)) as Hkeys.
  { rewrite Hp, fmap_app. simpl. by rewrite Permutation_app_comm. }
  assert (_current nearest ∈ tracks ∧ _measure nearest ∈ measures) as [Hc Hm].
  { apply Hiff. rewrite Hkeys. left. }
  rewrite Hkeys in Hnk. apply NoDup_cons in Hnk as [Hfresh Hnk].
  split; [done|]. split; [done|].
  split; [by apply NoDup_filter|]. split; [by apply NoDup_filter|]. split.
  - apply (sublist_NoDup _ (key <$> rest)); [done|].
    apply fmap_sublist, sublist_filter.
  - intros c m. rewrite !list_elem_of_filter, list_elem_of_fmap. split.
    + intros (p & Hkey & [[Hpc Hpm] Hin]%list_elem_of_filter).
      injection Hkey as -> ->.
      assert (key p ∈ key <$> cands) as Hk.
      { rewrite Hkeys. right. by apply list_elem_of_fmap_2. }
      apply Hiff in Hk. simpl in Hk. tauto.
    + intros [[Hne Hin] [Hne' Hin']].
      assert ((c, m) ∈ key <$> cands) as Hk by by apply Hiff.
      rewrite Hkeys in Hk. apply elem_of_cons in Hk as [Hk|Hk].
      { injection Hk as -> ->. done. }
      apply list_elem_of_fmap in Hk as (p & Hkey & Hp').
      exists p. split; [done|]. apply list_elem_of_filter. split; [|done].
      injection Hkey as -> ->. by split.
Qed.

Lemma greedy_grid_length cands lPairs tracks measures :
  greedy cands lPairs → isGrid cands tracks measures →
  length lPairs = Nat.min (length tracks) (length measures).
Proof.
  intros Hg. revert tracks measures.
  induction Hg as [|cands nearest rest lPairs Hp Hmin Hg IH];
    intros tracks measures Hgrid.
  - apply isGrid_nil in Hgrid as [-> | ->]; simpl; lia.
  - pose proof Hgrid as (Hnt & Hnm & _).
    destruct (isGrid_commit _ _ _ _ _ Hp Hgrid) as (Hc & Hm & Hgrid').
    apply IH in Hgrid'. simpl. rewrite Hgrid'.
    apply (length_filter_ne _ _ Hnt) in Hc.
    apply (length_filter_ne _ _ Hnm) in Hm. lia.
Qed.

Section candidates.
Context {T : Type} `{!TrackedBlob T}.

Lemma fmap_join_imap {A B C} (g : B → C) (f : nat → A → list B) l :
  g <$> mjoin (imap f l) = mjoin (imap (λ i x, g <$> f i x) l).
Proof.
  revert f. induction l as [|x l IH]; intros f; [done|].
  rewrite !imap_cons. simpl. rewrite fmap_app. f_equal. apply IH.
Qed.

Lemma searchPairs_keys (pProperties : list Blob.properties) (pBlobs : list T) :
  key <$> searchPairs pProperties pBlobs
  = seq 0 (length pProperties) ≫=
      (λ i, (λ j, (j, i)) <$> seq 0 (length pBlobs)).
Proof.
  unfold searchPairs. rewrite fmap_join_imap.
  rewrite (imap_ext _ (λ i _, (λ j, (j, i)) <$> seq 0 (length pBlobs))).
  - rewrite imap_seq_0, list_join_bind, list_fmap_bind. done.
  - intros i m _. rewrite fmap_imap.
    rewrite (imap_ext _ (λ j _, (j, i))); [|done].
    apply (imap_seq_0 pBlobs (λ j, (j, i))).
Qed.

Lemma searchPairs_grid (pProperties : list Blob.properties) (pBlobs : list T) :
  isGrid (searchPairs pProperties pBlobs)
         (seq 0 (length pBlobs)) (seq 0 (length pProperties)).
Proof.
  split; [apply NoDup_seq|]. split; [apply NoDup_seq|].
  rewrite searchPairs_keys. split.
  - apply NoDup_bind; [| |apply NoDup_seq].
    + intros i1 i2 [j i] _ _ (j1 & [= -> ->] & _)%list_elem_of_fmap
        (j2 & [= _ ->] & _)%list_elem_of_fmap. done.
    + intros i _. apply NoDup_fmap_2; [|apply NoDup_seq].
      intros j1 j2 [= ->]. done.
  - intros c m. rewrite list_elem_of_bind. split.
    + intros (i & (j & [= -> ->] & Hj)%list_elem_of_fmap & Hi). done.
    + intros [Hc Hm]. exists m. split; [|done].
      apply list_elem_of_fmap. by exists c.
Qed.

(** A candidate carries the distance between its predicted track and its
    measurement. *)
Lemma searchPairs_elem_of (pProperties : list Blob.properties)
  (pBlobs : list T) p :
  p ∈ searchPairs pProperties pBlobs →
  ∃ b m, pBlobs !! _current p = Some b ∧ pProperties !! _measure p = Some m ∧
         _dist p = getDistanceFromPrediction b m.
Proof.
  unfold searchPairs. intros (row & Hp & Hrow)%list_elem_of_join.
  apply elem_of_lookup_imap in Hrow as (i & m & -> & Hm).
  apply elem_of_lookup_imap in Hp as (j & b & -> & Hb).
  by exists b, m.
Qed.

End candidates.

(** **** The whole call *)

Section whole_call.
Context {T : Type} `{!TrackedBlob T}.
Variable heapify : list BlobPair → list BlobPair.

Lemma matchPairs_total pProperties (pBlobs : list T) :
  heap_contract heapify → is_Some (matchPairs heapify pProperties pBlobs).
Proof.
  intros Hh. unfold matchPairs. case_decide; [|by eexists].
  by apply matchLoop_total.
Qed.

(** [trackBlobs] returns on every input. *)
Lemma trackBlobs_total pProperties (pBlobs : list T) pLifetime :
  heap_contract heapify →
  is_Some (trackBlobs heapify pProperties pBlobs pLifetime).
Proof.
  intros Hh. unfold trackBlobs.
  destruct (matchPairs_total pProperties (predict <$> pBlobs) Hh) as [l ->].
  by eexists.
Qed.

(** Empty inputs give an empty track vector. *)
Lemma trackBlobs_empty pLifetime :
  trackBlobs heapify [] ([] : list T) pLifetime = Some [].
Proof. reflexivity. Qed.

(** With no prior track every measurement gives birth to a track. *)
Lemma trackBlobs_births_only pProperties pLifetime :
  trackBlobs heapify pProperties ([] : list T) pLifetime
  = Some ((λ m, setLifetime (init newBlob m) pLifetime) <$> pProperties).
Proof.
  unfold trackBlobs, matchPairs, births. simpl. f_equal.
  induction pProperties as [|m l IH]; [done|].
  rewrite imap_cons. simpl. f_equal. exact IH.
Qed.

(** When no unmatched track expires nothing is erased, the pointers of
    [lPairs] stay right, and the aging loop ages exactly the unmatched. *)
Lemma ageFrom_no_erase lPairs i (rest : list T) :
  (∀ k b, rest !! k = Some b → isInCurrent lPairs (i + k) = false →
          0 ≤ getLifetime (getOlder b)) →
  ageFrom lPairs i rest
  = imap (λ k b, if isInCurrent lPairs (i + k) then b else getOlder b) rest.
Proof.
  revert i. induction rest as [|b rest IH]; intros i Halive; [done|].
  rewrite imap_cons. simpl. rewrite Nat.add_0_r.
  assert (ageFrom lPairs (S i) rest
          = imap ((λ k b, if isInCurrent lPairs (i + k) then b else getOlder b)
                    ∘ S) rest) as Hrest.
  { rewrite IH.
    - apply imap_ext. intros k b' _. simpl. by rewrite Nat.add_succ_r.
    - intros k b' Hk Hin. apply (Halive (S k) b'); [done|].
      by rewrite Nat.add_succ_r. }
  destruct (isInCurrent lPairs i) eqn:Hin; [by rewrite Hrest|].
  specialize (Halive 0%nat b eq_refl). rewrite Nat.add_0_r in Halive.
  specialize (Halive Hin).
  destruct (Z.ltb_spec (getLifetime (getOlder b)) 0); [lia|].
  by rewrite Hrest.
Qed.

(** C2: with at least one prior track, the pairs are committed in
    non-decreasing order of [getDistanceFromPrediction]; each committed pair
    has the least distance among the remaining candidates, the candidates
    sharing its track or its measurement are then discarded, the loop runs
    until no candidate is left, and [min(M, T)] pairs are committed. *)
Theorem trackBlobs_greedy_matching pProperties (pBlobs : list T) pLifetime :
  heap_contract heapify →
  (0 < length pBlobs)%nat →
  ∃ lPairs,
    matchPairs heapify pProperties (predict <$> pBlobs) = Some lPairs ∧
    trackBlobs heapify pProperties pBlobs pLifetime
    = Some (ageFrom lPairs 0
              (applyUpdates pProperties lPairs (predict <$> pBlobs))
            ++ births pProperties lPairs pLifetime) ∧
    greedy (searchPairs pProperties (predict <$> pBlobs)) lPairs ∧
    (∀ p, p ∈ lPairs →
       ∃ b m, (predict <$> pBlobs) !! _current p = Some b ∧
              pProperties !! _measure p = Some m ∧
              _dist p = getDistanceFromPrediction b m) ∧
    nondecreasing lPairs ∧
    length lPairs = Nat.min (length pProperties) (length pBlobs).
Proof.
  intros Hh HT.
  pose (cands := searchPairs pProperties (predict <$> pBlobs)).
  destruct (matchLoop_greedy heapify Hh (length cands) cands [])
    as (lPairs & Hrun & Hgreedy); [done|].
  assert (matchPairs heapify pProperties (predict <$> pBlobs) = Some lPairs)
    as Hmatch.
  { unfold matchPairs. rewrite length_fmap.
    case_decide; [exact Hrun|lia]. }
  exists lPairs. split; [done|]. split.
  { unfold trackBlobs. by rewrite Hmatch. }
  split; [done|]. split.
  { intros p Hp. apply searchPairs_elem_of. by eapply greedy_elem_of. }
  split; [by eapply greedy_nondecreasing|].
  rewrite (greedy_grid_length _ _ _ _ Hgreedy (searchPairs_grid _ _)).
  rewrite !length_seq, length_fmap. lia.
Qed.

End whole_call.

Lemma trackBlobs_greedy_matching_witness :
  ∃ lPairs,
    matchPairs selectNearest [measureAt 1 0; measureAt 11 0]
      (predict <$> [trackAt 0 0 3 3; trackAt 10 0 3 3]) = Some lPairs ∧
    trackBlobs selectNearest [measureAt 1 0; measureAt 11 0]
      [trackAt 0 0 3 3; trackAt 10 0 3 3] 3
    = Some (ageFrom lPairs 0
              (applyUpdates [measureAt 1 0; measureAt 11 0] lPairs
                 (predict <$> [trackAt 0 0 3 3; trackAt 10 0 3 3]))
            ++ births [measureAt 1 0; measureAt 11 0] lPairs 3) ∧
    greedy (searchPairs [measureAt 1 0; measureAt 11 0]
              (predict <$> [trackAt 0 0 3 3; trackAt 10 0 3 3])) lPairs ∧
    (∀ p, p ∈ lPairs →
       ∃ b m, (predict <$> [trackAt 0 0 3 3; trackAt 10 0 3 3]) !! _current p
              = Some b ∧
              [measureAt 1 0; measureAt 11 0] !! _measure p = Some m ∧
              _dist p = getDistanceFromPrediction b m) ∧
    nondecreasing lPairs ∧
    length lPairs = Nat.min 2 2.
Proof.
  apply (trackBlobs_greedy_matching selectNearest
           [measureAt 1 0; measureAt 11 0]
           [trackAt 0 0 3 3; trackAt 10 0 3 3] 3 selectNearest_contract).
  simpl. lia.
Defined.

(** Scenarios 1 to 4 of section 8 of the specification. *)
Example lone_birth :
  getLifetime <$$> trackBlobs selectNearest [measureAt 10 10] [] 3
  = Some [3].
Proof. reflexivity. Qed.

Example stable_tracking :
  (λ b, (velocity b, getLifetime b)) <$$>
    trackBlobs selectNearest [measureAt 11 10] [trackAt 10 10 1 3] 3
  = Some [((1, 0), 3)].
Proof. reflexivity. Qed.

Example track_aging :
  trackBlobs selectNearest [] [trackAt 10 10 3 3] 3
  = Some [trackAt 10 10 2 3] ∧
  trackBlobs selectNearest [] [trackAt 10 10 2 3] 3
  = Some [trackAt 10 10 1 3] ∧
  trackBlobs selectNearest [] [trackAt 10 10 1 3] 3
  = Some [trackAt 10 10 0 3] ∧
  trackBlobs selectNearest [] [trackAt 10 10 0 3] 3 = Some [].
Proof. repeat split. Qed.

Example uncrossed_pairing :
  matchPairs selectNearest [measureAt 1 0; measureAt 11 0]
    [trackAt 0 0 3 3; trackAt 10 0 3 3]
  = Some [{| _current := 0; _measure := 0; _dist := 1 |};
          {| _current := 1; _measure := 1; _dist := 1 |}].
Proof. reflexivity. Qed.

(** **** The failing inputs do not depend on the heap

    With a single measurement every candidate shares it, so the loop commits
    one pair, the nearest track, whatever [make_heap] and [pop_heap] do
    with ties. *)

Lemma erasePairs_same_measure nearest rest :
  (∀ p, p ∈ rest → _measure p = _measure nearest) →
  erasePairs nearest rest = [].
Proof.
  intros Hsame. induction rest as [|p rest IH]; [done|].
  simpl. destruct (_current p =? _current nearest)%nat.
  - apply IH. intros q Hq. apply Hsame. by right.
  - rewrite (Hsame p) by left. rewrite Nat.eqb_refl.
    apply IH. intros q Hq. apply Hsame. by right.
Qed.

Lemma matchLoop_single_measure heapify cands nearest fuel :
  heap_contract heapify →
  nearest ∈ cands →
  (∀ p, p ∈ cands → _measure p = _measure nearest) →
  (∀ p, p ∈ cands → p = nearest ∨ (_dist nearest < _dist p)%Q) →
  matchLoop heapify (S fuel) cands [] = Some [nearest].
Proof.
  intros Hh Hin Hmeasure Hleast.
  destruct cands as [|c cands]; [by apply elem_of_nil in Hin|].
  destruct (heapify_round heapify Hh (c :: cands))
    as (chosen & rest & Hheap & Hperm & Hmin); [done|].
  assert (chosen ∈ c :: cands) as Hchosen.
  { rewrite Hperm, elem_of_app, list_elem_of_singleton. by right. }
  assert (chosen = nearest) as ->.
  { destruct (Hleast chosen Hchosen) as [|Hlt]; [done|].
    exfalso. apply (Qlt_not_le _ _ Hlt). by apply Hmin. }
  cbn [matchLoop]. rewrite Hheap, last_snoc, removelast_snoc.
  rewrite erasePairs_same_measure.
  - by destruct fuel.
  - intros p Hp. apply Hmeasure. rewrite Hperm, elem_of_app. by left.
Qed.

Lemma trackBlobs_erase_shifts_tracks_any_heap heapify :
  heap_contract heapify →
  trackBlobs heapify [measureAt 10 0]
    [trackAt 0 0 0 3; trackAt 10 0 3 3; trackAt 50 50 0 3] 3
  = Some [getOlder (renewLifetime
                      (setNewMeasures (predict (trackAt 10 0 3 3))
                                      (measureAt 10 0)));
          predict (trackAt 50 50 0 3)].
Proof.
  intros Hh.
  assert (searchPairs [measureAt 10 0]
            (predict <$> [trackAt 0 0 0 3; trackAt 10 0 3 3; trackAt 50 50 0 3])
          = [{| _current := 0; _measure := 0; _dist := 100 |};
             {| _current := 1; _measure := 0; _dist := 0 |};
             {| _current := 2; _measure := 0; _dist := 4100 |}]) as Hcands
    by reflexivity.
  unfold trackBlobs, matchPairs. rewrite Hcands.
  destruct (decide _) as [_|Hn]; [|by destruct Hn].
  change (length [_; _; _]) with 3%nat.
  rewrite (matchLoop_single_measure heapify _
             {| _current := 1; _measure := 0; _dist := 0 |} 2 Hh).
  - reflexivity.
  - right. left.
  - intros p. rewrite !elem_of_cons, elem_of_nil.
    intros [->|[->|[->|[]]]]; reflexivity.
  - intros p. rewrite !elem_of_cons, elem_of_nil.
    intros [->|[->|[->|[]]]]; (by left) || (right; reflexivity).
Qed.

(** C1 (the code departs from it): one measurement next to the second of three
    tracks, the first and third tracks with lifetime [0].  The second track
    is matched and renewed; erasing the first track moves it to index [0],
    where the pointer kept in [lPairs] no longer finds it, so it is aged
    after its renewal; the third track moves to index [1], which that
    pointer designates, so it is neither aged nor removed although its
    lifetime would have become negative. *)
Theorem trackBlobs_erase_shifts_tracks :
  matchPairs selectNearest [measureAt 10 0]
    (predict <$> [trackAt 0 0 0 3; trackAt 10 0 3 3; trackAt 50 50 0 3])
  = Some [{| _current := 1; _measure := 0; _dist := 0 |}] ∧
  trackBlobs selectNearest [measureAt 10 0]
    [trackAt 0 0 0 3; trackAt 10 0 3 3; trackAt 50 50 0 3] 3
  = Some [getOlder (renewLifetime
                      (setNewMeasures (predict (trackAt 10 0 3 3))
                                      (measureAt 10 0)));
          predict (trackAt 50 50 0 3)] ∧
  getLifetime (getOlder (predict (trackAt 50 50 0 3))) < 0.
Proof. repeat split. Qed.

(** C3 (the code departs from it): after the erasure of an expired track the
    aging loop takes the tracks that moved down for one another.  A matched
    track renewed to lifetime [0] is aged and removed; an unmatched track
    that entered with lifetime [2] leaves with lifetime [2]; an unmatched
    track that entered with lifetime [0] is kept. *)
Theorem trackBlobs_aging_after_erase :
  (matchPairs selectNearest [measureAt 10 0]
     (predict <$> [trackAt 0 0 0 0; trackAt 10 0 0 0])
   = Some [{| _current := 1; _measure := 0; _dist := 0 |}] ∧
   trackBlobs selectNearest [measureAt 10 0]
     [trackAt 0 0 0 0; trackAt 10 0 0 0] 0 = Some []) ∧
  (λ b, (measured b, getLifetime b)) <$$>
    trackBlobs selectNearest [measureAt 10 0]
      [trackAt 0 0 0 3; trackAt 10 0 3 3; trackAt 50 50 2 3;
       trackAt 90 90 0 3] 3
  = Some [((10, 0), 2); ((50, 50), 2)] ∧
  (λ b, (measured b, getLifetime b)) <$$>
    trackBlobs selectNearest [measureAt 10 0]
      [trackAt 0 0 0 3; trackAt 10 0 3 3; trackAt 50 50 0 3] 3
  = Some [((10, 0), 2); ((50, 50), 0)].
Proof. repeat split. Qed.

(** **** The first frame, an empty frame, and the calls that erase nothing *)

(** Below [2^24] a squared distance is a [float]; above, distances that differ
    may be the same [float], and then neither pair is before the other. *)
Example toFloat_rounds :
  toFloat 5000 = 5000 ∧
  toFloat (2 ^ 24 + 1) = 2 ^ 24 ∧ toFloat (2 ^ 24 + 3) = 2 ^ 24 + 4 ∧
  getDistanceFromPrediction (trackAt 0 0 3 3) (measureAt 4096 1)
  = getDistanceFromPrediction (trackAt 0 0 3 3) (measureAt 4096 0).
Proof. by vm_compute. Qed.

Lemma pair_lt_true p q : pair_lt p q = true ↔ (_dist q < _dist p)%Q.
Proof. apply Qgtb_true. Qed.

(** X5: [BlobPair::operator<] orders the pairs by decreasing distance and is
    a strict weak ordering, which [make_heap] and [pop_heap] require:
    irreflexive, transitive, and with a transitive incomparability. *)
Theorem pair_lt_strict_weak_order :
  (∀ p q, pair_lt p q = true ↔ (_dist q < _dist p)%Q) ∧
  (∀ p, pair_lt p p = false) ∧
  (∀ p q r, pair_lt p q = true → pair_lt q r = true → pair_lt p r = true) ∧
  (∀ p q r, pair_lt p q = false → pair_lt q p = false →
            pair_lt q r = false → pair_lt r q = false →
            pair_lt p r = false ∧ pair_lt r p = false).
Proof.
  split; [exact pair_lt_true|]. split; [|split].
  - intros p. apply pair_lt_false. apply Qle_refl.
  - intros p q r Hpq Hqr. apply pair_lt_true.
    apply pair_lt_true in Hpq. apply pair_lt_true in Hqr.
    by eapply Qlt_trans.
  - intros p q r Hpq Hqp Hqr Hrq.
    apply pair_lt_false in Hpq, Hqp, Hqr, Hrq.
    split; apply pair_lt_false; by eapply Qle_trans.
Qed.

Lemma isInCurrent_pairOf lPairs i :
  isInCurrent lPairs i = bool_decide (is_Some (pairOf lPairs i)).
Proof.
  unfold isInCurrent, pairOf.
  induction lPairs as [|p l IH]; simpl; [done|].
  by destruct (_current p =? i)%nat.
Qed.

Lemma pairOf_None lPairs i :
  i ∉ _current <$> lPairs → pairOf lPairs i = None.
Proof.
  unfold pairOf. induction lPairs as [|p l IH]; [done|].
  rewrite fmap_cons, not_elem_of_cons. intros [Hne Hl]. simpl.
  destruct (Nat.eqb_spec (_current p) i); [done|]. by apply IH.
Qed.

Lemma isInMeasure_elem_of lPairs i :
  isInMeasure lPairs i = true ↔ i ∈ _measure <$> lPairs.
Proof.
  unfold isInMeasure. induction lPairs as [|p l IH]; simpl.
  - split; [done|]. by intros ?%elem_of_nil.
  - rewrite orb_true_iff, IH, elem_of_cons, Nat.eqb_eq.
    split; (intros [?|?]; [by left|by right]).
Qed.

Section cases.
Context {T : Type} `{!TrackedBlob T}.
Variable heapify : list BlobPair → list BlobPair.

(** With no pair the aging loop ages every track and erases the expired
    ones. *)
Lemma ageFrom_no_pair i (rest : list T) :
  ageFrom [] i rest = filter (λ b, 0 ≤ getLifetime b) (getOlder <$> rest).
Proof.
  revert i. induction rest as [|b rest IH]; intros i; [done|].
  simpl. rewrite filter_cons.
  destruct (Z.ltb_spec (getLifetime (getOlder b)) 0).
  - rewrite decide_False by lia. apply IH.
  - rewrite decide_True by lia. f_equal. apply IH.
Qed.

Lemma length_ageFrom lPairs i (rest : list T) :
  (length (ageFrom lPairs i rest) ≤ length rest)%nat.
Proof.
  revert i. induction rest as [|b rest IH]; intros i; simpl; [done|].
  destruct (isInCurrent lPairs i); simpl.
  - specialize (IH (S i)). lia.
  - destruct (getLifetime (getOlder b) <? 0); simpl.
    + specialize (IH i). lia.
    + specialize (IH (S i)). lia.
Qed.

Lemma length_applyUpdates pProperties lPairs (pBlobs : list T) :
  length (applyUpdates pProperties lPairs pBlobs) = length pBlobs.
Proof.
  unfold applyUpdates. revert pBlobs.
  induction lPairs as [|p l IH]; intros pBlobs; [done|].
  simpl. rewrite IH. destruct (pProperties !! _measure p); [|done].
  apply length_alter.
Qed.

(** The update loop, when no two pairs share a track: every paired track
    receives the measurement of its pair and a renewed lifetime. *)
Lemma applyUpdates_imap pProperties lPairs (pBlobs : list T) :
  NoDup (_current <$> lPairs) →
  applyUpdates pProperties lPairs pBlobs
  = imap (λ i b,
            match pairOf lPairs i ≫= λ p, pProperties !! _measure p with
            | Some m => renewLifetime (setNewMeasures b m)
            | None => b
            end) pBlobs.
Proof.
  unfold applyUpdates. revert pBlobs.
  induction lPairs as [|p l IH]; intros pBlobs Hdup.
  { simpl. apply list_eq. intros i. rewrite list_lookup_imap.
    by destruct (pBlobs !! i). }
  rewrite fmap_cons in Hdup. apply NoDup_cons in Hdup as [Hp Hl].
  simpl. rewrite (IH _ Hl). apply list_eq. intros i.
  rewrite !list_lookup_imap. unfold pairOf at 2. simpl.
  destruct (Nat.eqb_spec (_current p) i) as [<-|Hne].
  - rewrite (pairOf_None l _ Hp). simpl.
    destruct (pProperties !! _measure p) as [m|]; [|done].
    rewrite list_lookup_alter_eq. by destruct (pBlobs !! _current p).
  - fold (pairOf l i).
    destruct (pProperties !! _measure p) as [m|]; [|done].
    by rewrite list_lookup_alter_ne.
Qed.

(** The number of births: one for every measurement that no pair holds. *)
Lemma length_births_from (g : Blob.properties → T) lPairs k
  (pProperties : list Blob.properties) :
  length (mjoin (imap (λ i m, if isInMeasure lPairs (k + i) then []
                              else [g m]) pProperties))
  = length (filter (λ i, i ∉ _measure <$> lPairs)
                   (seq k (length pProperties))).
Proof.
  revert k. induction pProperties as [|m l IH]; intros k; [done|].
  rewrite imap_cons. simpl. rewrite length_app, filter_cons, Nat.add_0_r.
  assert (length (mjoin (imap ((λ i m, if isInMeasure lPairs (k + i) then []
                                       else [g m]) ∘ S) l))
          = length (filter (λ i, i ∉ _measure <$> lPairs)
                           (seq (S k) (length l)))) as ->.
  { rewrite <-IH. do 2 f_equal. apply imap_ext. intros i x _. simpl.
    by rewrite Nat.add_succ_r. }
  destruct (isInMeasure lPairs k) eqn:Hin.
  - apply isInMeasure_elem_of in Hin. by rewrite decide_False by naive_solver.
  - rewrite decide_True; [done|].
    intros Hin'%isInMeasure_elem_of. congruence.
Qed.

Lemma length_births pProperties lPairs pLifetime :
  NoDup (_measure <$> lPairs) →
  (∀ p, p ∈ lPairs → (_measure p < length pProperties)%nat) →
  length (births (T:=T) pProperties lPairs pLifetime)
  = (length pProperties - length lPairs)%nat.
Proof.
  intros Hdup Hrange. unfold births.
  rewrite (length_births_from
             (λ m, setLifetime (init newBlob m) pLifetime) lPairs 0).
  pose proof (filter_app_complement (λ i, i ∉ _measure <$> lPairs)
                (seq 0 (length pProperties))) as Hsplit.
  apply Permutation_length in Hsplit.
  rewrite length_app, length_seq in Hsplit.
  assert (filter (λ i : nat, ¬ (i ∉ _measure <$> lPairs))
                 (seq 0 (length pProperties))
          ≡ₚ _measure <$> lPairs) as Hin.
  { apply NoDup_Permutation; [apply NoDup_filter, NoDup_seq|done|].
    intros i. rewrite list_elem_of_filter, elem_of_seq. split.
    - intros [Hi _]. by destruct (decide (i ∈ _measure <$> lPairs)).
    - intros Hi. split; [by intros ?|].
      apply list_elem_of_fmap in Hi as (p & -> & Hp).
      specialize (Hrange p Hp). lia. }
  apply Permutation_length in Hin. rewrite length_fmap in Hin. lia.
Qed.

(** What a conforming heap leaves in [lPairs]: no track and no measurement
    twice, every pointer in range, and [min(M, T)] pairs. *)
Lemma matchPairs_matching pProperties (pBlobs : list T) lPairs :
  heap_contract heapify →
  matchPairs heapify pProperties pBlobs = Some lPairs →
  NoDup (_current <$> lPairs) ∧ NoDup (_measure <$> lPairs) ∧
  (∀ p, p ∈ lPairs → is_Some (pBlobs !! _current p) ∧
                     is_Some (pProperties !! _measure p)) ∧
  length lPairs = Nat.min (length pProperties) (length pBlobs).
Proof.
  intros Hh. unfold matchPairs. case_decide as Hlen.
  2: { intros [= <-]. simpl. repeat split; try apply NoDup_nil_2.
       - by apply elem_of_nil in H.
       - by apply elem_of_nil in H.
       - lia. }
  intros Hrun.
  destruct (matchLoop_greedy heapify Hh _ (searchPairs pProperties pBlobs) []
              (Nat.le_refl _)) as (l & Hl & Hgreedy).
  rewrite Hrun in Hl. injection Hl as ->. simpl in Hgreedy.
  split; [|split; [|split]].
  - apply NoDup_alt. intros i j c Hi Hj.
    rewrite list_lookup_fmap in Hi, Hj.
    destruct (l !! i) as [p|] eqn:Hp; [|done].
    destruct (l !! j) as [q|] eqn:Hq; [|done].
    simpl in Hi, Hj. simplify_eq.
    destruct (Nat.lt_trichotomy i j) as [Hlt|[->|Hlt]]; [|done|].
    + destruct (greedy_compatible _ _ _ _ _ _ Hgreedy Hlt Hp Hq). congruence.
    + destruct (greedy_compatible _ _ _ _ _ _ Hgreedy Hlt Hq Hp). congruence.
  - apply NoDup_alt. intros i j c Hi Hj.
    rewrite list_lookup_fmap in Hi, Hj.
    destruct (l !! i) as [p|] eqn:Hp; [|done].
    destruct (l !! j) as [q|] eqn:Hq; [|done].
    simpl in Hi, Hj. simplify_eq.
    destruct (Nat.lt_trichotomy i j) as [Hlt|[->|Hlt]]; [|done|].
    + destruct (greedy_compatible _ _ _ _ _ _ Hgreedy Hlt Hp Hq). congruence.
    + destruct (greedy_compatible _ _ _ _ _ _ Hgreedy Hlt Hq Hp). congruence.
  - intros p Hp.
    destruct (searchPairs_elem_of pProperties pBlobs p
                (greedy_elem_of _ _ _ Hgreedy Hp)) as (b & m & -> & -> & _).
    by split.
  - rewrite (greedy_grid_length _ _ _ _ Hgreedy
               (searchPairs_grid pProperties pBlobs)).
    rewrite !length_seq. lia.
Qed.

(** X1: on the first frame, when there is no track yet, every measurement
    gives birth to a track, in the order of the measurements: the default
    blob, [init] with the measurement, [setLifetime] with the lifetime
    given.  No pair is built and the heap is not used. *)
Theorem trackBlobs_first_frame pProperties pLifetime :
  trackBlobs heapify pProperties ([] : list T) pLifetime
  = Some ((λ m, setLifetime (init newBlob m) pLifetime) <$> pProperties) ∧
  matchPairs heapify pProperties ([] : list T) = Some [].
Proof.
  split; [|done].
  unfold trackBlobs, matchPairs, births. simpl. f_equal.
  induction pProperties as [|m l IH]; [done|].
  rewrite imap_cons. simpl. f_equal. exact IH.
Qed.

(** X2: on a frame without measurement no pair is built, whatever the heap;
    every track is predicted and aged by one, the tracks whose lifetime
    falls below zero are erased, the others are kept in their order, and
    no track is born. *)
Theorem trackBlobs_no_measure (pBlobs : list T) pLifetime :
  trackBlobs heapify [] pBlobs pLifetime
  = Some (filter (λ b, 0 ≤ getLifetime b)
                 ((getOlder ∘ predict) <$> pBlobs)).
Proof.
  unfold trackBlobs, matchPairs. simpl.
  replace (if decide (length (predict <$> pBlobs) ≠ 0%nat)
           then Some [] else Some [])
    with (Some ([] : list BlobPair)) by by case_decide.
  simpl. unfold births. simpl. rewrite app_nil_r.
  by rewrite ageFrom_no_pair, <-list_fmap_compose.
Qed.

(** X3: a call in which no unpaired track expires erases nothing, and then
    the result is, track by track and in the order of the tracks: the
    paired track, predicted, given the measurement of its pair and a
    renewed lifetime; the unpaired track, predicted and aged by one; after
    them the births. *)
Theorem trackBlobs_no_expiry pProperties (pBlobs : list T) pLifetime lPairs :
  heap_contract heapify →
  matchPairs heapify pProperties (predict <$> pBlobs) = Some lPairs →
  (∀ i b, pBlobs !! i = Some b → pairOf lPairs i = None →
          0 ≤ getLifetime (getOlder (predict b))) →
  trackBlobs heapify pProperties pBlobs pLifetime
  = Some (imap (λ i b,
                  match pairOf lPairs i ≫= λ p, pProperties !! _measure p with
                  | Some m => renewLifetime (setNewMeasures (predict b) m)
                  | None => getOlder (predict b)
                  end) pBlobs
          ++ births pProperties lPairs pLifetime).
Proof.
  intros Hh Hmatch Halive.
  destruct (matchPairs_matching _ _ _ Hh Hmatch) as (Hcur & _ & Hrange & _).
  unfold trackBlobs. rewrite Hmatch. simpl. do 2 f_equal.
  rewrite (applyUpdates_imap _ _ _ Hcur), imap_fmap.
  assert (∀ i p, pairOf lPairs i = Some p →
                 is_Some (pProperties !! _measure p)) as Hpair.
  { intros i p Hp. apply find_some in Hp as [Hp%list_elem_of_In _].
    by apply Hrange. }
  rewrite ageFrom_no_erase.
  - apply list_eq. intros i. rewrite !list_lookup_imap.
    destruct (pBlobs !! i) as [b|]; [|done]. simpl. f_equal.
    rewrite isInCurrent_pairOf.
    destruct (pairOf lPairs i) as [p|] eqn:Hp; simpl.
    + by destruct (Hpair i p Hp) as [m ->].
    + done.
  - intros k b. rewrite list_lookup_imap. simpl.
    rewrite isInCurrent_pairOf.
    destruct (pBlobs !! k) as [b0|] eqn:Hb0; [|done]. simpl.
    destruct (pairOf lPairs k) as [p|] eqn:Hp; [done|].
    simpl. intros [= <-] _. by apply (Halive k).
Qed.

Lemma isInCurrent_elem_of lPairs i :
  isInCurrent lPairs i = true ↔ i ∈ _current <$> lPairs.
Proof.
  unfold isInCurrent. induction lPairs as [|p l IH]; simpl.
  - split; [done|]. by intros ?%elem_of_nil.
  - rewrite orb_true_iff, IH, elem_of_cons, Nat.eqb_eq.
    split; (intros [?|?]; [by left|by right]).
Qed.

(** The aging loop with its erasures, as one pass over the tracks: the loop
    index is the number of tracks kept so far. *)
Lemma ageFrom_foldl lPairs (acc rest : list T) :
  acc ++ ageFrom lPairs (length acc) rest
  = foldl (λ kept b,
             if decide (length kept ∈ _current <$> lPairs) then kept ++ [b]
             else if decide (0 ≤ getLifetime (getOlder b))
                  then kept ++ [getOlder b]
                  else kept) acc rest.
Proof.
  revert acc. induction rest as [|b rest IH]; intros acc.
  { simpl. by rewrite app_nil_r. }
  simpl. destruct (isInCurrent lPairs (length acc)) eqn:Hin.
  - apply isInCurrent_elem_of in Hin. rewrite decide_True by done.
    rewrite <-IH, length_app, <-app_assoc. simpl.
    by rewrite Nat.add_1_r.
  - rewrite decide_False.
    2: { intros Hin'%isInCurrent_elem_of. congruence. }
    destruct (Z.ltb_spec (getLifetime (getOlder b)) 0).
    + rewrite decide_False by lia. apply IH.
    + rewrite decide_True by lia.
      rewrite <-IH, length_app, <-app_assoc. simpl.
      by rewrite Nat.add_1_r.
Qed.

Lemma births_from (g : Blob.properties → T) lPairs k
  (pProperties : list Blob.properties) :
  mjoin (imap (λ i m, if isInMeasure lPairs (k + i) then []
                      else [g m]) pProperties)
  = g <$> (filter (λ im, im.1 ∉ _measure <$> lPairs)
                  (imap (λ i m, (k + i, m)%nat) pProperties)).*2.
Proof.
  revert k. induction pProperties as [|m l IH]; intros k; [done|].
  rewrite !imap_cons. simpl. rewrite filter_cons, Nat.add_0_r. simpl.
  assert (mjoin (imap ((λ i m, if isInMeasure lPairs (k + i) then []
                               else [g m]) ∘ S) l)
          = g <$> (filter (λ im, im.1 ∉ _measure <$> lPairs)
                          (imap ((λ i m, (k + i, m)%nat) ∘ S) l)).*2) as ->.
  { rewrite (imap_ext _ (λ i m, if isInMeasure lPairs (S k + i) then []
                                else [g m]) l).
    2: { intros i x _. simpl. by rewrite Nat.add_succ_r. }
    rewrite (imap_ext ((λ i m, (k + i, m)%nat) ∘ S)
               (λ i m, (S k + i, m)%nat) l).
    2: { intros i x _. simpl. by rewrite Nat.add_succ_r. }
    apply IH. }
  destruct (isInMeasure lPairs k) eqn:Hin.
  - apply isInMeasure_elem_of in Hin. by rewrite decide_False by naive_solver.
  - rewrite decide_True; [done|].
    intros Hin'%isInMeasure_elem_of. congruence.
Qed.

Lemma births_unpaired pProperties lPairs pLifetime :
  births (T:=T) pProperties lPairs pLifetime
  = (λ m, setLifetime (init newBlob m) pLifetime)
      <$> unpaired lPairs pProperties.
Proof.
  unfold births, unpaired.
  apply (births_from (λ m, setLifetime (init newBlob m) pLifetime) lPairs 0).
Qed.

(** X4: what a call returns, with [M] measurements and [T] tracks.  The
    matching holds [min(M, T)] pairs.  The tracks are predicted, and the
    paired ones are given the measurement of their pair and a renewed
    lifetime.  They are then taken in their order, each of them looked up
    among the pairs by the position it has after the erasures before it: a
    track found there is kept as it is, another one is aged by one and
    erased if its lifetime is below zero.  After the tracks that are kept
    come the births, one for every measurement no pair points to, in the
    order of the measurements: the default blob, [init] with the
    measurement, [setLifetime] with the lifetime given.  So the result
    holds at most [max(M, T)] tracks, the last [M - min(M, T)] of them
    new. *)
Theorem trackBlobs_result pProperties (pBlobs : list T) pLifetime :
  heap_contract heapify →
  ∃ lPairs,
    matchPairs heapify pProperties (predict <$> pBlobs) = Some lPairs ∧
    length lPairs = Nat.min (length pProperties) (length pBlobs) ∧
    let kept := aged lPairs (updatedTracks pProperties lPairs pBlobs) in
    let born := (λ m, setLifetime (init newBlob m) pLifetime)
                  <$> unpaired lPairs pProperties in
    trackBlobs heapify pProperties pBlobs pLifetime = Some (kept ++ born) ∧
    (length kept ≤ length pBlobs)%nat ∧
    length born
    = (length pProperties
       - Nat.min (length pProperties) (length pBlobs))%nat ∧
    (length (kept ++ born)
     ≤ Nat.max (length pProperties) (length pBlobs))%nat.
Proof.
  intros Hh.
  destruct (matchPairs_total heapify pProperties (predict <$> pBlobs) Hh)
    as [lPairs Hmatch].
  destruct (matchPairs_matching _ _ _ Hh Hmatch)
    as (Hcur & Hms & Hrange & Hlen).
  rewrite length_fmap in Hlen.
  exists lPairs. split; [done|]. split; [done|]. intros kept born.
  assert (ageFrom lPairs 0
            (applyUpdates pProperties lPairs (predict <$> pBlobs)) = kept)
    as Hkept.
  { rewrite (applyUpdates_imap _ _ _ Hcur), imap_fmap.
    apply (ageFrom_foldl lPairs []). }
  assert (births (T:=T) pProperties lPairs pLifetime = born) as Hborn
    by apply births_unpaired.
  assert (length kept ≤ length pBlobs)%nat as Hk.
  { rewrite <-Hkept. etrans; [apply length_ageFrom|].
    by rewrite length_applyUpdates, length_fmap. }
  assert (length born
          = length pProperties - Nat.min (length pProperties) (length pBlobs))%nat
    as Hb.
  { rewrite <-Hborn, length_births, Hlen; [done..|].
    intros p Hp. apply lookup_lt_is_Some. by apply Hrange. }
  split; [|split; [done|split; [done|]]].
  - unfold trackBlobs. rewrite Hmatch. simpl. by rewrite Hkept, Hborn.
  - rewrite length_app. lia.
Qed.

End cases.

Lemma trackBlobs_no_expiry_witness :
  trackBlobs selectNearest [measureAt 1 0]
    [trackAt 0 0 3 3; trackAt 10 0 3 3] 3
  = Some [{| measured := (1, 0); predicted := (1, 0); velocity := (1, 0);
             lifetime := 3; totalLifetime := 3; updated := true |};
          trackAt 10 0 2 3].
Proof.
  rewrite (trackBlobs_no_expiry selectNearest [measureAt 1 0]
             [trackAt 0 0 3 3; trackAt 10 0 3 3] 3
             [{| _current := 0; _measure := 0; _dist := 1 |}]
             selectNearest_contract).
  - reflexivity.
  - reflexivity.
  - intros [|[|i]] b; simpl;
      [by intros _ ?|intros [= <-] _; simpl; lia|by rewrite lookup_nil].
Defined.

Lemma trackBlobs_result_witness :
  trackBlobs selectNearest [measureAt 11 0; measureAt 50 50]
    [trackAt 0 0 0 3; trackAt 10 0 3 3; trackAt 20 0 3 3] 3
  = Some [{| measured := (11, 0); predicted := (11, 0); velocity := (1, 0);
             lifetime := 2; totalLifetime := 3; updated := true |};
          {| measured := (50, 50); predicted := (50, 50);
             velocity := (30, 50);
             lifetime := 3; totalLifetime := 3; updated := true |}].
Proof.
  destruct (trackBlobs_result selectNearest [measureAt 11 0; measureAt 50 50]
              [trackAt 0 0 0 3; trackAt 10 0 3 3; trackAt 20 0 3 3] 3
              selectNearest_contract)
    as (lPairs & Hmatch & _ & Hrun & _).
  vm_compute in Hmatch. injection Hmatch as <-.
  rewrite Hrun. reflexivity.
Defined.

End TrackerFacts.

Module MaskFacts.
Import Mask.

Lemma take1_drop (l : list Z) i v : l !! i = Some v → take 1 (drop i l) = [v].
Proof.
  intros Hi. rewrite <-(take_drop_middle l i v Hi).
  assert (length (take i l) = i) as Hlen.
  { rewrite length_take. apply lookup_lt_Some in Hi. lia. }
  rewrite drop_app_length'; done.
Qed.

Lemma readPix_uchar bytes off v :
  bytes !! off = Some v → readPix 1 bytes off = Some [v].
Proof.
  intros Hv. unfold readPix. pose proof (lookup_lt_Some _ _ _ Hv).
  case_decide; [|lia]. by rewrite (take1_drop _ _ v).
Qed.

Lemma writeZero_uchar bytes off :
  (off < length bytes)%nat → writeZero 1 bytes off = Some (<[off := 0]> bytes).
Proof.
  intros Hlt. unfold writeZero. case_decide; [|lia]. f_equal.
  destruct (lookup_lt_is_Some_2 bytes off Hlt) as [v Hv].
  rewrite <-(take_drop_middle bytes off v Hv) at 3.
  assert (length (take off bytes) = off) as Hlen by (rewrite length_take; lia).
  rewrite <-Hlen at 3. rewrite insert_app_r_alt by lia.
  rewrite Nat.sub_diag. simpl. do 2 f_equal.
  by rewrite Nat.add_1_r.
Qed.

Lemma isZero_singleton v : isZero [v] = (v =? 0).
Proof. unfold isZero. simpl. apply andb_true_r. Qed.

(** One row, one byte per pixel: the bytes of the row are masked, every
    other byte keeps its value. *)
Lemma maskRow_uchar maskBytes maskOff bufferOff x n bytes :
  (maskOff + x + n ≤ length maskBytes)%nat →
  (bufferOff + x + n ≤ length bytes)%nat →
  ∃ bytes',
    maskRow 1 maskBytes maskOff bufferOff x n bytes = Some bytes' ∧
    length bytes' = length bytes ∧
    ∀ k v, bytes !! k = Some v →
      bytes' !! k
      = Some (if decide (bufferOff + x ≤ k < bufferOff + x + n)%nat
              then if zeroAt maskBytes (maskOff + (k - bufferOff)) then 0 else v
              else v).
Proof.
  revert x bytes. induction n as [|n IH]; intros x bytes Hm Hb.
  { exists bytes. split; [done|]. split; [done|]. intros k v Hk.
    case_decide; [lia|done]. }
  simpl. unfold sizeofUchar. rewrite !Nat.mul_1_r.
  destruct (lookup_lt_is_Some_2 maskBytes (maskOff + x)) as [m Hmx]; [lia|].
  rewrite (readPix_uchar _ _ m Hmx). simpl. rewrite andb_true_r.
  assert (∃ bytes1,
    (if m =? 0 then writeZero 1 bytes (bufferOff + x) else Some bytes)
    = Some bytes1 ∧ length bytes1 = length bytes ∧
    ∀ k v, bytes !! k = Some v →
      bytes1 !! k = Some (if decide (k = bufferOff + x)%nat
                          then if m =? 0 then 0 else v else v))
    as (bytes1 & -> & Hlen1 & Hbytes1).
  { destruct (m =? 0).
    - rewrite writeZero_uchar by lia. eexists. split; [done|].
      split; [by rewrite length_insert|]. intros k v Hk.
      case_decide as Hkx.
      + subst k. apply list_lookup_insert_eq. lia.
      + by rewrite list_lookup_insert_ne.
    - exists bytes. split; [done|]. split; [done|]. intros k v Hk.
      by case_decide. }
  simpl. destruct (IH (S x) bytes1) as (bytes' & Hrun & Hlen & Hbytes');
    [lia..|].
  exists bytes'. split; [done|]. split; [lia|]. intros k v Hk.
  specialize (Hbytes1 k v Hk). rewrite (Hbytes' k _ Hbytes1).
  f_equal. unfold zeroAt.
  destruct (decide (k = bufferOff + x)%nat) as [->|Hne].
  - replace (maskOff + (bufferOff + x - bufferOff))%nat
      with (maskOff + x)%nat by lia.
    rewrite Hmx. repeat case_decide; try lia; done.
  - repeat case_decide; try lia; done.
Qed.

(** Rows [y0] to [y0 + n], one byte per pixel. *)
Lemma maskRows_uchar bc mc maskBytes y0 n bytes :
  (bc ≤ mc)%nat →
  ((y0 + n) * mc ≤ length maskBytes)%nat →
  ((y0 + n) * bc ≤ length bytes)%nat →
  ∃ bytes',
    maskRows 1 bc mc maskBytes (y0 * mc) (y0 * bc) n bytes = Some bytes' ∧
    length bytes' = length bytes ∧
    ∀ y x v, (x < bc)%nat → bytes !! (y * bc + x)%nat = Some v →
      bytes' !! (y * bc + x)%nat
      = Some (if decide (y0 ≤ y < y0 + n)%nat
              then if zeroAt maskBytes (y * mc + x) then 0 else v
              else v).
Proof.
  intros Hcols. revert y0 bytes.
  induction n as [|n IH]; intros y0 bytes Hm Hb.
  { exists bytes. split; [done|]. split; [done|]. intros y x v Hx Hk.
    case_decide; [lia|done]. }
  simpl.
  destruct (maskRow_uchar maskBytes (y0 * mc) (y0 * bc) 0 bc bytes)
    as (bytes1 & -> & Hlen1 & Hbytes1); [nia..|].
  simpl. unfold sizeofUchar.
  replace (y0 * mc + mc * 1 * 1)%nat with (S y0 * mc)%nat by lia.
  replace (y0 * bc + bc * 1 * 1)%nat with (S y0 * bc)%nat by lia.
  destruct (IH (S y0) bytes1) as (bytes' & Hrun & Hlen & Hbytes');
    [nia..|].
  exists bytes'. split; [done|]. split; [lia|]. intros y x v Hx Hk.
  specialize (Hbytes1 _ v Hk). rewrite (Hbytes' y x _ Hx Hbytes1).
  f_equal.
  destruct (decide (y = y0)) as [->|Hne].
  - replace (y0 * mc + (y0 * bc + x - y0 * bc))%nat
      with (y0 * mc + x)%nat by lia.
    repeat case_decide; try lia; done.
  - repeat case_decide; try nia; done.
Qed.

(** Stripes run one after the other give what the whole range gives: the
    rows of a range are processed independently. *)
Lemma maskRows_app s bc mc maskBytes maskOff bufferOff n1 n2 bytes :
  maskRows s bc mc maskBytes maskOff bufferOff (n1 + n2) bytes
  = maskRows s bc mc maskBytes maskOff bufferOff n1 bytes ≫=
      maskRows s bc mc maskBytes
        (maskOff + n1 * (mc * sizeofUchar * s))
        (bufferOff + n1 * (bc * s * s)) n2.
Proof.
  revert maskOff bufferOff bytes.
  induction n1 as [|n1 IH]; intros maskOff bufferOff bytes.
  { simpl. by rewrite !Nat.add_0_r. }
  simpl. destruct (maskRow s maskBytes maskOff bufferOff 0 bc bytes)
    as [bytes1|]; [|done].
  simpl. rewrite IH. do 2 f_equal; lia.
Qed.

Lemma Parallel_Mask_stripes _buffer _mask a b c :
  step _buffer = cols _buffer → step _mask = cols _mask →
  (a ≤ b)%nat → (b ≤ c)%nat →
  Parallel_Mask 1 _buffer _mask {| start := a; end_ := c |}
  = Parallel_Mask 1 _buffer _mask {| start := a; end_ := b |} ≫=
      λ half, Parallel_Mask 1 half _mask {| start := b; end_ := c |}.
Proof.
  intros Hb Hm Hab Hbc.
  destruct (Nat.le_exists_sub a b Hab) as (d & -> & _).
  unfold Parallel_Mask. simpl.
  repeat case_decide; try lia.
  replace (c - a)%nat with (d + (c - (d + a)))%nat by lia.
  replace (d + a - a)%nat with d by lia.
  rewrite maskRows_app, Hb, Hm.
  destruct (maskRows 1 _ _ _ _ _ d _) as [bytes1|]; [|done].
  simpl. unfold sizeofUchar. f_equal. f_equal; lia.
Qed.

(** A continuous matrix of one-byte pixels: a row is its columns, and the
    data are the rows. *)
Lemma continuous_uchar m :
  continuous m → elemSize m = 1%nat →
  step m = cols m ∧ length (data m) = (rows m * cols m)%nat.
Proof.
  intros [Hstep Hlen] Helem. rewrite Helem, Nat.mul_1_r in Hstep.
  rewrite Hstep in Hlen. by split.
Qed.

(** C9, amended: for one-byte pixels ([uchar], the one type [Parallel_Mask]
    instantiates with), continuous buffer and mask of equal row count, the
    mask at least as wide as the buffer: after running over all rows every
    buffer pixel whose mask pixel is zero is zero and every other pixel is
    unchanged. *)
Theorem Parallel_Mask_uchar : masking_contract 1.
Proof.
  intros _buffer _mask Hcb Hcm Heb Hem Hrows Hcols.
  unfold sizeofUchar in *.
  destruct (continuous_uchar _ Hcb Heb) as [Hsb Hlb].
  destruct (continuous_uchar _ Hcm Hem) as [Hsm Hlm].
  unfold Parallel_Mask. simpl. rewrite Nat.sub_0_r.
  destruct (maskRows_uchar (cols _buffer) (cols _mask) (data _mask) 0
              (rows _buffer) (data _buffer))
    as (bytes' & Hrun & Hlen & Hbytes'); [lia..|].
  simpl in Hrun. rewrite Hrun. simpl. eexists. split; [done|].
  simpl. do 3 (split; [done|]). intros y x Hy Hx.
  unfold pixel. simpl. rewrite Heb, Hem, Hsb, Hsm, !Nat.mul_1_r.
  destruct (lookup_lt_is_Some_2 (data _buffer) (y * cols _buffer + x))
    as [v Hv]; [nia|].
  destruct (lookup_lt_is_Some_2 (data _mask) (y * cols _mask + x))
    as [m Hmv]; [nia|].
  rewrite (take1_drop _ _ _ (Hbytes' y x v Hx Hv)).
  rewrite (take1_drop _ _ _ Hv), (take1_drop _ _ _ Hmv), isZero_singleton.
  unfold zeroAt. rewrite Hmv.
  case_decide; [|lia]. by destruct (m =? 0).
Qed.

Lemma Parallel_Mask_uchar_witness :
  ∃ out,
    Parallel_Mask 1
      {| rows := 2; cols := 2; elemSize := 1; step := 2; data := [7; 8; 9; 10] |}
      {| rows := 2; cols := 2; elemSize := 1; step := 2; data := [0; 1; 1; 0] |}
      {| start := 0; end_ := 2 |} = Some out ∧
    data out = [0; 8; 9; 0].
Proof.
  destruct (Parallel_Mask_uchar
              {| rows := 2; cols := 2; elemSize := 1; step := 2; data := [7; 8; 9; 10] |}
              {| rows := 2; cols := 2; elemSize := 1; step := 2; data := [0; 1; 1; 0] |})
    as (out & Hrun & _); [done|done|reflexivity..|simpl; lia|].
  exists out. split; [exact Hrun|].
  vm_compute in Hrun. injection Hrun as <-. reflexivity.
Defined.

(** With one-byte pixels and a mask narrower than the buffer the mask is
    read past the end of its last row. *)
Lemma Parallel_Mask_narrow_mask :
  Parallel_Mask 1
    {| rows := 1; cols := 2; elemSize := 1; step := 2; data := [7; 8] |}
    {| rows := 1; cols := 1; elemSize := 1; step := 1; data := [0] |}
    {| start := 0; end_ := 1 |} = None.
Proof. reflexivity. Qed.

(** C9 fails as worded, on [uchar] pixels already, and each condition of the
    amended statement is needed.

    - A mask narrower than the buffer: a buffer of one row of two pixels and
      a mask of one row of one pixel have equal row counts; at [x = 1] the
      loop reads the mask one byte past its data, so the claim fails.
    - A buffer with row padding: two rows of two pixels, three bytes from a
      row to the next, under a continuous mask of the same size whose pixel
      [(1, 0)] is zero.  The second row is taken to start two bytes in: the
      zero is written to the padding byte of the first row and pixel
      [(1, 0)] keeps its value 9.
    - A mask with row padding: two rows of two pixels, three bytes from a
      row to the next, over a continuous buffer of the same size.  The mask
      pixel [(1, 0)] is 5, yet the loop reads the padding byte of the first
      mask row, a zero, and clears buffer pixel [(1, 0)]. *)
Lemma masking_claim_fails :
  ¬ masking_claim 1 ∧
  (let _buffer := {| rows := 2; cols := 2; elemSize := 1; step := 3;
                     data := [7; 8; 99; 9; 10; 99] |} in
   let _mask := {| rows := 2; cols := 2; elemSize := 1; step := 2;
                   data := [1; 1; 0; 1] |} in
   allocated _buffer ∧ continuous _mask ∧
   ∃ out, Parallel_Mask 1 _buffer _mask {| start := 0; end_ := 2 |}
          = Some out ∧
          data out = [7; 8; 0; 9; 10; 99] ∧
          pixel _mask 1 0 = [0] ∧ pixel _buffer 1 0 = [9] ∧
          pixel out 1 0 = [9]) ∧
  (let _buffer := {| rows := 2; cols := 2; elemSize := 1; step := 2;
                     data := [7; 8; 9; 10] |} in
   let _mask := {| rows := 2; cols := 2; elemSize := 1; step := 3;
                   data := [1; 1; 0; 5; 1; 0] |} in
   continuous _buffer ∧ allocated _mask ∧
   ∃ out, Parallel_Mask 1 _buffer _mask {| start := 0; end_ := 2 |}
          = Some out ∧
          data out = [7; 8; 0; 10] ∧
          pixel _mask 1 0 = [5] ∧ pixel _buffer 1 0 = [9] ∧
          pixel out 1 0 = [0]).
Proof.
  split; [|split].
  - intros Hclaim.
    destruct (Hclaim
                {| rows := 1; cols := 2; elemSize := 1; step := 2;
                   data := [7; 8] |}
                {| rows := 1; cols := 1; elemSize := 1; step := 1;
                   data := [0] |})
      as (out & Hrun & _); [by split; simpl; lia..|done|done|done|].
    discriminate Hrun.
  - intros _buffer _mask. split; [split; simpl; lia|]. split; [done|].
    eexists. split; [reflexivity|]. done.
  - intros _buffer _mask. split; [done|]. split; [split; simpl; lia|].
    eexists. split; [reflexivity|]. done.
Qed.

(** **** Stripes

    [cv::parallel_for_] hands the body disjoint ranges of rows, in any order
    and on any thread. *)

Lemma maskRows_uchar_bytes bc mc maskBytes y0 n bytes :
  (bc ≤ mc)%nat →
  ((y0 + n) * mc ≤ length maskBytes)%nat →
  ((y0 + n) * bc ≤ length bytes)%nat →
  (∃ r, length bytes = r * bc)%nat →
  maskRows 1 bc mc maskBytes (y0 * mc) (y0 * bc) n bytes
  = Some (maskedBytes bc mc maskBytes y0 (y0 + n) bytes).
Proof.
  intros Hcols Hm Hb [r Hr].
  destruct (maskRows_uchar bc mc maskBytes y0 n bytes Hcols Hm Hb)
    as (bytes' & -> & Hlen & Hbytes').
  f_equal. apply list_eq. intros k. unfold maskedBytes.
  rewrite list_lookup_imap.
  destruct (bytes !! k) as [v|] eqn:Hk.
  2: { simpl. apply lookup_ge_None. rewrite Hlen. by apply lookup_ge_None. }
  simpl. apply lookup_lt_Some in Hk as Hlt.
  assert (bc ≠ 0)%nat as Hbc by (intros ->; lia).
  pose proof (Nat.div_mod_eq k bc) as Hdiv.
  pose proof (Nat.mod_upper_bound k bc Hbc) as Hmod.
  replace k with (k / bc * bc + k mod bc)%nat in Hk at 1 by lia.
  specialize (Hbytes' (k / bc)%nat (k mod bc)%nat v Hmod Hk).
  replace (k / bc * bc + k mod bc)%nat with k in Hbytes' by lia.
  rewrite Hbytes'. f_equal.
  repeat case_decide; try done; nia.
Qed.

Lemma Parallel_Mask_uchar_bytes _buffer _mask a b :
  continuous _buffer → continuous _mask →
  elemSize _buffer = 1%nat → elemSize _mask = 1%nat →
  rows _buffer = rows _mask → (cols _buffer ≤ cols _mask)%nat →
  (a ≤ b)%nat → (b ≤ rows _buffer)%nat →
  Parallel_Mask 1 _buffer _mask {| start := a; end_ := b |}
  = Some {| rows := rows _buffer; cols := cols _buffer;
            elemSize := elemSize _buffer; step := step _buffer;
            data := maskedBytes (cols _buffer) (cols _mask) (data _mask) a b
                      (data _buffer) |}.
Proof.
  intros Hcb Hcm Heb Hem Hrows Hcols Hab Hb.
  destruct (continuous_uchar _ Hcb Heb) as [Hsb Hlb].
  destruct (continuous_uchar _ Hcm Hem) as [Hsm Hlm].
  unfold Parallel_Mask. simpl. rewrite decide_True by done.
  rewrite Hsb, Hsm.
  rewrite maskRows_uchar_bytes; [|done|nia|nia|exists (rows _buffer); lia].
  simpl. by replace (a + (b - a))%nat with b by lia.
Qed.

Lemma length_maskedBytes bc mc maskBytes a b bytes :
  length (maskedBytes bc mc maskBytes a b bytes) = length bytes.
Proof. apply length_imap. Qed.

Lemma maskedBytes_lookup bc mc maskBytes a b bytes k :
  maskedBytes bc mc maskBytes a b bytes !! k
  = (λ v, if decide (a * bc ≤ k < b * bc)%nat
          then if zeroAt maskBytes (k / bc * mc + k mod bc) then 0 else v
          else v) <$> bytes !! k.
Proof. apply list_lookup_imap. Qed.

(** X6: on one-byte pixels, a range of rows handed to the body is masked and
    the rows outside the range are left as they are: in the rows of the
    range a pixel is zero where the mask is zero and is the old pixel
    elsewhere. *)
Theorem Parallel_Mask_stripe _buffer _mask a b :
  continuous _buffer → continuous _mask →
  elemSize _buffer = 1%nat → elemSize _mask = 1%nat →
  rows _buffer = rows _mask → (cols _buffer ≤ cols _mask)%nat →
  (a ≤ b)%nat → (b ≤ rows _buffer)%nat →
  ∃ out,
    Parallel_Mask 1 _buffer _mask {| start := a; end_ := b |} = Some out ∧
    rows out = rows _buffer ∧ cols out = cols _buffer ∧
    elemSize out = elemSize _buffer ∧ continuous out ∧
    ∀ y x, (y < rows _buffer)%nat → (x < cols _buffer)%nat →
           pixel out y x
           = if decide (a ≤ y < b)%nat
             then if isZero (pixel _mask y x) then [0] else pixel _buffer y x
             else pixel _buffer y x.
Proof.
  intros Hcb Hcm Heb Hem Hrows Hcols Hab Hb.
  rewrite (Parallel_Mask_uchar_bytes _ _ a b) by done.
  eexists. split; [done|]. simpl. do 3 (split; [done|]).
  split.
  { destruct Hcb as [Hstep Hlen]. split; [done|]. simpl.
    by rewrite length_maskedBytes. }
  intros y x Hy Hx.
  destruct (continuous_uchar _ Hcb Heb) as [Hsb Hlb].
  destruct (continuous_uchar _ Hcm Hem) as [Hsm Hlm].
  unfold pixel. simpl. rewrite Heb, Hem, Hsb, Hsm, !Nat.mul_1_r.
  destruct (lookup_lt_is_Some_2 (data _buffer) (y * cols _buffer + x))
    as [v Hv]; [nia|].
  destruct (lookup_lt_is_Some_2 (data _mask) (y * cols _mask + x))
    as [m Hmv]; [nia|].
  assert (maskedBytes (cols _buffer) (cols _mask) (data _mask) a b
            (data _buffer) !! (y * cols _buffer + x)%nat
          = Some (if decide (a ≤ y < b)%nat
                  then if m =? 0 then 0 else v else v)) as Hout.
  { rewrite maskedBytes_lookup, Hv. simpl. f_equal.
    rewrite Nat.div_add_l, Nat.div_small, Nat.add_0_r by lia.
    rewrite Nat.add_comm, Nat.Div0.mod_add, Nat.mod_small by lia.
    unfold zeroAt. rewrite Hmv.
    repeat case_decide; try done; nia. }
  rewrite (take1_drop _ _ _ Hout), (take1_drop _ _ _ Hv),
    (take1_drop _ _ _ Hmv), isZero_singleton.
  case_decide; [|done]. by destruct (m =? 0).
Qed.

Lemma Parallel_Mask_stripe_witness :
  ∃ out,
    Parallel_Mask 1
      {| rows := 2; cols := 2; elemSize := 1; step := 2; data := [7; 8; 9; 10] |}
      {| rows := 2; cols := 2; elemSize := 1; step := 2; data := [0; 1; 1; 0] |}
      {| start := 1; end_ := 2 |} = Some out ∧
    data out = [7; 8; 9; 0].
Proof.
  destruct (Parallel_Mask_stripe
              {| rows := 2; cols := 2; elemSize := 1; step := 2; data := [7; 8; 9; 10] |}
              {| rows := 2; cols := 2; elemSize := 1; step := 2; data := [0; 1; 1; 0] |}
              1 2)
    as (out & Hrun & _); [done|done|reflexivity..|simpl; lia|lia|simpl; lia|].
  exists out. split; [exact Hrun|].
  vm_compute in Hrun. injection Hrun as <-. reflexivity.
Defined.

(** X7: on one-byte pixels the result does not depend on how the rows are
    split nor on the order of the stripes: the rows [a] to [c] in one call,
    the rows [a] to [b] and then [b] to [c], and the rows [b] to [c] and
    then [a] to [b] leave the same buffer. *)
Theorem Parallel_Mask_split _buffer _mask a b c :
  continuous _buffer → continuous _mask →
  elemSize _buffer = 1%nat → elemSize _mask = 1%nat →
  rows _buffer = rows _mask → (cols _buffer ≤ cols _mask)%nat →
  (a ≤ b)%nat → (b ≤ c)%nat → (c ≤ rows _buffer)%nat →
  is_Some (Parallel_Mask 1 _buffer _mask {| start := a; end_ := c |}) ∧
  Parallel_Mask 1 _buffer _mask {| start := a; end_ := b |} ≫=
    (λ half, Parallel_Mask 1 half _mask {| start := b; end_ := c |})
  = Parallel_Mask 1 _buffer _mask {| start := a; end_ := c |} ∧
  Parallel_Mask 1 _buffer _mask {| start := b; end_ := c |} ≫=
    (λ half, Parallel_Mask 1 half _mask {| start := a; end_ := b |})
  = Parallel_Mask 1 _buffer _mask {| start := a; end_ := c |}.
Proof.
  intros Hcb Hcm Heb Hem Hrows Hcols Hab Hbc Hc.
  rewrite (Parallel_Mask_uchar_bytes _ _ a c) by (done || lia).
  rewrite (Parallel_Mask_uchar_bytes _ _ a b) by (done || lia).
  rewrite (Parallel_Mask_uchar_bytes _ _ b c) by (done || lia).
  simpl. split; [done|].
  assert (∀ a' b', continuous
            {| rows := rows _buffer; cols := cols _buffer;
               elemSize := elemSize _buffer; step := step _buffer;
               data := maskedBytes (cols _buffer) (cols _mask) (data _mask)
                         a' b' (data _buffer) |}) as Hhalf.
  { intros a' b'. destruct Hcb as [Hstep Hlen]. split; [done|]. simpl.
    by rewrite length_maskedBytes. }
  split.
  - rewrite (Parallel_Mask_uchar_bytes _ _ b c) by (done || lia).
    simpl. do 2 f_equal. apply list_eq. intros k.
    rewrite !maskedBytes_lookup. destruct (data _buffer !! k); [|done].
    simpl. f_equal. repeat case_decide; try done; nia.
  - rewrite (Parallel_Mask_uchar_bytes _ _ a b) by (done || (simpl; lia)).
    simpl. do 2 f_equal. apply list_eq. intros k.
    rewrite !maskedBytes_lookup. destruct (data _buffer !! k); [|done].
    simpl. f_equal. repeat case_decide; try done; nia.
Qed.

Lemma Parallel_Mask_split_witness :
  let _buffer :=
    {| rows := 2; cols := 2; elemSize := 1; step := 2; data := [7; 8; 9; 10] |} in
  let _mask :=
    {| rows := 2; cols := 2; elemSize := 1; step := 2; data := [0; 1; 1; 0] |} in
  Parallel_Mask 1 _buffer _mask {| start := 1; end_ := 2 |} ≫=
    (λ half, Parallel_Mask 1 half _mask {| start := 0; end_ := 1 |})
  = Parallel_Mask 1 _buffer _mask {| start := 0; end_ := 2 |}.
Proof.
  intros _buffer _mask.
  apply (Parallel_Mask_split _buffer _mask 0 1 2);
    try done; simpl; lia.
Defined.

(** X8: on one-byte pixels masking is idempotent: a buffer that was masked
    is left as it is by a second pass with the same mask. *)
Theorem Parallel_Mask_idempotent _buffer _mask out :
  continuous _buffer → continuous _mask →
  elemSize _buffer = 1%nat → elemSize _mask = 1%nat →
  rows _buffer = rows _mask → (cols _buffer ≤ cols _mask)%nat →
  Parallel_Mask 1 _buffer _mask {| start := 0; end_ := rows _buffer |}
  = Some out →
  Parallel_Mask 1 out _mask {| start := 0; end_ := rows out |} = Some out.
Proof.
  intros Hcb Hcm Heb Hem Hrows Hcols.
  rewrite (Parallel_Mask_uchar_bytes _ _ 0 (rows _buffer)) by (done || lia).
  intros [= <-]. simpl.
  rewrite (Parallel_Mask_uchar_bytes _ _ 0 (rows _buffer));
    [|destruct Hcb as [Hstep Hlen]; split; [done|]; simpl;
      by rewrite length_maskedBytes
     |done..|simpl; lia|simpl; lia].
  simpl. do 2 f_equal. apply list_eq. intros k.
  rewrite !maskedBytes_lookup. destruct (data _buffer !! k); [|done].
  simpl. f_equal. case_decide; [|done]. by destruct (zeroAt _ _).
Qed.

Lemma Parallel_Mask_idempotent_witness :
  let _mask :=
    {| rows := 2; cols := 2; elemSize := 1; step := 2; data := [0; 1; 1; 0] |} in
  let out :=
    {| rows := 2; cols := 2; elemSize := 1; step := 2; data := [0; 8; 9; 0] |} in
  Parallel_Mask 1 out _mask {| start := 0; end_ := 2 |} = Some out.
Proof.
  intros _mask out.
  apply (Parallel_Mask_idempotent
           {| rows := 2; cols := 2; elemSize := 1; step := 2; data := [7; 8; 9; 10] |}
           _mask out); try done; simpl; lia.
Defined.

End MaskFacts.

Module OutputFacts.
Import Output.

Lemma clone_fresh (σ : Store) m : σ !! data (clone σ m).2 = None.
Proof. simpl. apply not_elem_of_dom. apply is_fresh. Qed.

Lemma writeAt_other (σ : Store) m i v (other : Mat) :
  data other ≠ data m → pixels (writeAt σ m i v) other = pixels σ other.
Proof.
  intros Hne. unfold pixels, writeAt. by rewrite lookup_alter_ne.
Qed.

Lemma writesAt_other (σ : Store) m ws (other : Mat) :
  data other ≠ data m → pixels (writesAt σ m ws) other = pixels σ other.
Proof.
  intros Hne. unfold writesAt. revert σ.
  induction ws as [|w ws IH]; intros σ; [done|].
  simpl. rewrite IH. by apply writeAt_other.
Qed.

(** A copy of the header, as [lBuffers.push_back(output)] makes, shares the
    pixels: a write through one header is seen through the other. *)
Lemma header_copy_shares (σ : Store) m i v (copy : Mat) :
  data copy = data m →
  pixels (writeAt σ m i v) copy = <[i := v]> (pixels σ copy).
Proof.
  intros Heq. unfold pixels, writeAt. rewrite Heq, lookup_alter_eq.
  by destruct (σ !! data m).
Qed.

(** C10: [getOutput] returns a deep copy.  The returned image has the pixels
    of the internal buffer and pixels of its own, so no sequence of writes
    through it changes the internal buffer, nor what a later [getOutput]
    hands to the shared memory and the display list. *)
Theorem getOutput_deep_copy (σ : Store) (d : Detector) :
  is_Some (σ !! data (mOutputBuffer d)) →
  data (getOutput σ d).2 ≠ data (mOutputBuffer d) ∧
  pixels (getOutput σ d).1 (getOutput σ d).2 = pixels σ (mOutputBuffer d) ∧
  ∀ ws lBuffers,
    let σ' := writesAt (getOutput σ d).1 (getOutput σ d).2 ws in
    pixels σ' (mOutputBuffer d) = pixels σ (mOutputBuffer d) ∧
    (publishOutput σ' d lBuffers).2 = pixels σ (mOutputBuffer d) ∧
    ∃ output, last (publishOutput σ' d lBuffers).1.2 = Some output ∧
              pixels (publishOutput σ' d lBuffers).1.1 output
              = pixels σ (mOutputBuffer d).
Proof.
  intros Halloc.
  assert (data (getOutput σ d).2 ≠ data (mOutputBuffer d)) as Hne.
  { intros Heq. pose proof (clone_fresh σ (mOutputBuffer d)) as Hfresh.
    unfold getOutput in Heq. rewrite Heq in Hfresh.
    rewrite Hfresh in Halloc. by destruct Halloc. }
  assert (pixels (getOutput σ d).1 (mOutputBuffer d)
          = pixels σ (mOutputBuffer d)) as Hkeep.
  { unfold pixels, getOutput, clone. simpl.
    rewrite lookup_insert_ne; [done|]. exact Hne. }
  split; [exact Hne|]. split.
  { unfold pixels, getOutput, clone. simpl. by rewrite lookup_insert_eq. }
  intros ws lBuffers σ'.
  assert (pixels σ' (mOutputBuffer d) = pixels σ (mOutputBuffer d)) as Hsame.
  { unfold σ'. rewrite writesAt_other by done. exact Hkeep. }
  split; [exact Hsame|].
  assert (pixels (getOutput σ' d).1 (getOutput σ' d).2
          = pixels σ (mOutputBuffer d)) as Hlater.
  { rewrite <-Hsame. unfold pixels, getOutput, clone. simpl.
    by rewrite lookup_insert_eq. }
  unfold publishOutput. destruct (getOutput σ' d) as [σ'' output] eqn:Hout.
  simpl in *. split; [exact Hlater|].
  exists output. split; [apply last_snoc|exact Hlater].
Qed.

Lemma getOutput_deep_copy_witness :
  let σ : Store := {[ 0%nat := [1; 2; 3] ]} in
  let d := {| mOutputBuffer := {| rows := 1; cols := 3; data := 0 |} |} in
  pixels (writesAt (getOutput σ d).1 (getOutput σ d).2 [(0%nat, 9); (2%nat, 9)])
         (mOutputBuffer d) = [1; 2; 3] ∧
  pixels (writesAt (getOutput σ d).1 (getOutput σ d).2 [(0%nat, 9); (2%nat, 9)])
         (getOutput σ d).2 = [9; 2; 9].
Proof.
  intros σ d. split.
  - assert (is_Some (σ !! data (mOutputBuffer d))) as Halloc
      by (by vm_compute; eexists).
    destruct (getOutput_deep_copy σ d Halloc) as (_ & _ & Hws).
    destruct (Hws [(0%nat, 9); (2%nat, 9)] []) as (Hsame & _).
    exact Hsame.
  - by vm_compute.
Defined.

Lemma dom_writesAt (σ : Store) m ws : dom (writesAt σ m ws) = dom σ.
Proof.
  unfold writesAt. revert σ. induction ws as [|w ws IH]; intros σ; [done|].
  simpl. rewrite IH. unfold writeAt. by rewrite dom_alter_L.
Qed.

(** X9: the image [getOutput] returns is a snapshot.  What the detector
    writes to its buffer afterwards does not show through the image, and the
    next call returns an image with the new pixels and a buffer of its
    own. *)
Theorem getOutput_snapshot (σ : Store) (d : Detector) ws :
  is_Some (σ !! data (mOutputBuffer d)) →
  let first := getOutput σ d in
  let σ' := writesAt first.1 (mOutputBuffer d) ws in
  let second := getOutput σ' d in
  pixels σ' first.2 = pixels σ (mOutputBuffer d) ∧
  pixels second.1 first.2 = pixels σ (mOutputBuffer d) ∧
  pixels second.1 second.2 = pixels σ' (mOutputBuffer d) ∧
  data second.2 ≠ data first.2.
Proof.
  intros Halloc first σ' second.
  assert (data first.2 ≠ data (mOutputBuffer d)) as Hne.
  { intros Heq. pose proof (clone_fresh σ (mOutputBuffer d)) as Hfresh.
    unfold first, getOutput in Heq. rewrite Heq in Hfresh.
    rewrite Hfresh in Halloc. by destruct Halloc. }
  assert (pixels σ' first.2 = pixels σ (mOutputBuffer d)) as Hfirst.
  { unfold σ'. rewrite writesAt_other by done.
    unfold pixels, first, getOutput, clone. simpl.
    by rewrite lookup_insert_eq. }
  assert (data second.2 ≠ data first.2) as Hsecond.
  { intros Heq. pose proof (clone_fresh σ' (mOutputBuffer d)) as Hfresh.
    apply not_elem_of_dom in Hfresh. apply Hfresh.
    unfold second, getOutput in Heq. rewrite Heq.
    unfold σ'. rewrite dom_writesAt.
    unfold first, getOutput, clone. simpl. set_solver. }
  split; [exact Hfirst|]. split; [|split; [|exact Hsecond]].
  - rewrite <-Hfirst. unfold pixels, second, getOutput, clone. simpl.
    rewrite lookup_insert_ne; [done|]. exact Hsecond.
  - unfold pixels, second, getOutput, clone. simpl.
    by rewrite lookup_insert_eq.
Qed.

Lemma getOutput_snapshot_witness :
  let σ : Store := {[ 0%nat := [1; 2; 3] ]} in
  let d := {| mOutputBuffer := {| rows := 1; cols := 3; data := 0 |} |} in
  let first := getOutput σ d in
  let σ' := writesAt first.1 (mOutputBuffer d) [(1%nat, 7)] in
  pixels σ' first.2 = [1; 2; 3] ∧ pixels σ' (mOutputBuffer d) = [1; 7; 3].
Proof.
  intros σ d first σ'. split.
  - assert (is_Some (σ !! data (mOutputBuffer d))) as Halloc
      by (by vm_compute; eexists).
    destruct (getOutput_snapshot σ d [(1%nat, 7)] Halloc) as (Hfirst & _).
    exact Hfirst.
  - by vm_compute.
Defined.

End OutputFacts.

Module ServerFacts.
Import Server.

Example demo_connect :
  oscHandlerConnect initialApp (λ _, true) demoConnect
  = Returned 0 demoApp
      [ShmOpen "/tmp/blobserver_output_1";
       Reply {| dest := demoClient; path := "/blobserver/connect";
                args := [StringValue "Connected"; IntValue 1] |}].
Proof. by vm_compute. Qed.

(** **** Connect *)

Section connect.
Context `{Platform}.

Lemma bind_toString (message : Message) i text :
  message !! i ≫= toString = Some text →
  message !! i = Some (StringValue text).
Proof. destruct (message !! i) as [[]|]; naive_solver. Qed.

Lemma bind_toInt (message : Message) i n :
  message !! i ≫= toInt = Some n → message !! i = Some (IntValue n).
Proof. destruct (message !! i) as [[]|]; naive_solver. Qed.

(** C5, amended: a connect request that fails leaves the application as it
    was: the flow set, the source set, the flow-id counter.  When the port
    is an integer and liblo accepts the address, the caller is sent one
    reply on [/blobserver/connect] that carries an error string; when the
    port is not an integer or the address is rejected, nothing is sent. *)
Theorem oscHandlerConnect_failure theApp devices message ret theApp' effects :
  oscHandlerConnect theApp devices message = Returned ret theApp' effects →
  ret ≠ 0 →
  theApp' = theApp ∧
  ((∃ portValue, message !! 1%nat = Some portValue ∧
                 toInt portValue = None ∧ effects = []) ∨
   (∃ hostName portNbr,
      message !! 0%nat = Some (StringValue hostName) ∧
      message !! 1%nat = Some (IntValue portNbr) ∧
      ((lo_address_errno {| host := hostName; port := sprintf_i portNbr |} ≠ 0
        ∧ effects = []) ∨
       (lo_address_errno {| host := hostName; port := sprintf_i portNbr |} = 0
        ∧ ∃ text,
            effects = [sendString
                         {| host := hostName; port := sprintf_i portNbr |}
                         "/blobserver/connect" text])))).
Proof.
  intros Hrun Hret. unfold oscHandlerConnect in Hrun.
  destruct (message !! 1%nat) as [portValue|] eqn:Hport; [|done].
  destruct (toInt portValue) as [portNbr|] eqn:HportNbr.
  2: { injection Hrun as <- <- <-. split; [done|]. left. eauto. }
  destruct portValue as [i| |]; simplify_eq/=.
  destruct (negb _); [done|].
  destruct (message !! 0%nat ≫= toString) as [hostName|] eqn:Hhost; [|done].
  apply bind_toString in Hhost.
  set (address := {| host := hostName; port := sprintf_i portNbr |}) in *.
  destruct (Z.eqb_spec (lo_address_errno address) 0) as [Herrno|Herrno];
    simpl in Hrun.
  2: { injection Hrun as <- <- <-. split; [done|]. right.
       exists hostName, portNbr. split; [done|]. split; [done|]. by left. }
  assert (∀ text,
    Returned 1 theApp [sendString address "/blobserver/connect" text]
    = Returned ret theApp' effects →
    theApp' = theApp ∧
    ((∃ portValue, Some (IntValue portNbr) = Some portValue ∧
                   toInt portValue = None ∧ effects = []) ∨
     (∃ hostName0 portNbr0,
        message !! 0%nat = Some (StringValue hostName0) ∧
        Some (IntValue portNbr) = Some (IntValue portNbr0) ∧
        ((lo_address_errno
            {| host := hostName0; port := sprintf_i portNbr0 |} ≠ 0
          ∧ effects = []) ∨
         (lo_address_errno
            {| host := hostName0; port := sprintf_i portNbr0 |} = 0
          ∧ ∃ text0,
              effects = [sendString
                           {| host := hostName0; port := sprintf_i portNbr0 |}
                           "/blobserver/connect" text0]))))) as Hreply.
  { intros text [= <- <- <-]. split; [done|]. right.
    exists hostName, portNbr. split; [done|]. split; [done|]. right.
    split; [done|]. by exists text. }
  destruct (length message <? 5)%nat; [by eapply Hreply|].
  destruct (message !! 2%nat ≫= toString) as [detectorName|];
    [|by eapply Hreply].
  destruct (mDetectorFactory detectorName) as [detector|];
    [|by eapply Hreply].
  destruct (allocSources _ _ _ _ _ _) as [error|[heap sources]];
    [by eapply Hreply|].
  destruct (mSourceNbr <=? _); [|by eapply Hreply].
  injection Hrun as <- _ _. done.
Qed.

End connect.

Lemma oscHandlerConnect_failure_witness :
  demoApp = demoApp ∧
  ((∃ portValue,
      [StringValue "10.0.0.1"; IntValue 9000; StringValue "Unknown";
       StringValue "Camera"; IntValue 0] !! 1%nat = Some portValue ∧
      toInt portValue = None ∧
      [sendString demoClient "/blobserver/connect"
         "Detector type not recognized"] = []) ∨
   (∃ hostName portNbr,
      [StringValue "10.0.0.1"; IntValue 9000; StringValue "Unknown";
       StringValue "Camera"; IntValue 0] !! 0%nat
      = Some (StringValue hostName) ∧
      [StringValue "10.0.0.1"; IntValue 9000; StringValue "Unknown";
       StringValue "Camera"; IntValue 0] !! 1%nat
      = Some (IntValue portNbr) ∧
      ((lo_address_errno {| host := hostName; port := sprintf_i portNbr |} ≠ 0
        ∧ [sendString demoClient "/blobserver/connect"
             "Detector type not recognized"] = []) ∨
       (lo_address_errno {| host := hostName; port := sprintf_i portNbr |} = 0
        ∧ ∃ text,
            [sendString demoClient "/blobserver/connect"
               "Detector type not recognized"]
            = [sendString
                 {| host := hostName; port := sprintf_i portNbr |}
                 "/blobserver/connect" text])))).
Proof.
  apply (oscHandlerConnect_failure demoApp (λ _, true)
           [StringValue "10.0.0.1"; IntValue 9000; StringValue "Unknown";
            StringValue "Camera"; IntValue 0] 1).
  - by vm_compute.
  - lia.
Defined.

(** C5 as stated fails: a request whose port is not an integer fails and
    nothing is sent back. *)
Lemma oscHandlerConnect_no_reply :
  oscHandlerConnect demoApp (λ _, true)
    [StringValue "10.0.0.1"; StringValue "9000"; StringValue "Demo";
     StringValue "Camera"; IntValue 0]
  = Returned 1 demoApp [].
Proof. by vm_compute. Qed.

(** The replies of the failing paths. *)
Example connect_errors :
  oscHandlerConnect demoApp (λ _, true)
    [StringValue "10.0.0.1"; IntValue 9000; StringValue "Demo"]
  = Returned 1 demoApp
      [sendString demoClient "/blobserver/connect" "Too few arguments"] ∧
  oscHandlerConnect demoApp (λ _, true)
    [StringValue "10.0.0.1"; IntValue 9000; IntValue 7;
     StringValue "Camera"; IntValue 0]
  = Returned 1 demoApp
      [sendString demoClient "/blobserver/connect"
         "Expected a detector type at position 2"] ∧
  oscHandlerConnect demoApp (λ _, true)
    [StringValue "10.0.0.1"; IntValue 9000; StringValue "Demo";
     StringValue "Camera"; IntValue 0; StringValue "Camera"]
  = Returned 1 demoApp
      [sendString demoClient "/blobserver/connect"
         "Missing sub-source number"] ∧
  oscHandlerConnect demoApp (λ _, true)
    [StringValue "10.0.0.1"; IntValue 9000; StringValue "Demo";
     StringValue "Camera"; StringValue "0"]
  = Returned 1 demoApp
      [sendString demoClient "/blobserver/connect"
         "Expected integer as a sub-source number"] ∧
  oscHandlerConnect demoApp (λ _, true)
    [StringValue "10.0.0.1"; IntValue 9000; StringValue "Demo";
     StringValue "Webcam"; IntValue 0]
  = Returned 1 demoApp
      [sendString demoClient "/blobserver/connect"
         "Unable to create source Webcam"] ∧
  oscHandlerConnect demoApp (λ _, false)
    [StringValue "10.0.0.1"; IntValue 9000; StringValue "Demo";
     StringValue "Camera"; IntValue 1]
  = Returned 1 demoApp
      [sendString demoClient "/blobserver/connect"
         "Unable to connect to source Camera"].
Proof. repeat split; by vm_compute. Qed.

(** **** What each request does to the flows and to the counter *)

Section requests.
Context `{Platform}.

Lemma connectedId_text e : isTextReply e → connectedId e = None.
Proof. by intros (address & replyPath & text & ->). Qed.

Lemma loopFlow_text e : isTextReply e → loopFlow e = None.
Proof. by intros (address & replyPath & text & ->). Qed.

Lemma connectedIds_text effects :
  Forall isTextReply effects → connectedIds effects = [].
Proof.
  unfold connectedIds. induction 1 as [|e effects He _ IH]; [done|].
  simpl. by rewrite (connectedId_text e He).
Qed.

(** A connect request either fails and changes nothing, or appends one
    stopped flow whose id is the incremented counter. *)
Lemma oscHandlerConnect_inv theApp devices message ret theApp' effects :
  oscHandlerConnect theApp devices message = Returned ret theApp' effects →
  (ret = 1 ∧ theApp' = theApp ∧ Forall isTextReply effects) ∨
  (ret = 0 ∧
   ∃ flow shmFile address,
     mFlows theApp' = mFlows theApp ++ [flow] ∧
     id flow = getValidId theApp ∧ run flow = false ∧
     mCurrentId theApp' = getValidId theApp ∧
     effects
     = [ShmOpen shmFile;
        Reply {| dest := address; path := "/blobserver/connect";
                 args := [StringValue "Connected";
                          IntValue (Int.to_signed (getValidId theApp))] |}]).
Proof.
  intros Hrun. unfold oscHandlerConnect in Hrun.
  assert (∀ address text,
    Returned 1 theApp [sendString address "/blobserver/connect" text]
    = Returned ret theApp' effects →
    ret = 1 ∧ theApp' = theApp ∧ Forall isTextReply effects) as Hreply.
  { intros address text [= <- <- <-]. repeat split.
    apply Forall_singleton. by eexists _, _, _. }
  repeat (case_match; try done);
    try (left; by eapply Hreply);
    try (left; injection Hrun as <- <- <-; by repeat split).
  right. injection Hrun as <- <- <-. split; [done|].
  eexists _, _, _. simpl. by repeat split.
Qed.

Lemma eraseFlows_inv url all detectorId flows :
  (eraseFlows url all detectorId flows).1 `sublist_of` flows ∧
  Forall isTextReply (eraseFlows url all detectorId flows).2.
Proof.
  induction flows as [|flow flows [IHs IHr]]; [by split|].
  simpl. repeat case_match; simpl; split;
    try (by apply sublist_skip); try (by apply sublist_cons); try done.
  apply Forall_cons. split; [by eexists _, _, _|done].
Qed.

(** A disconnect request removes flows and touches nothing else. *)
Lemma oscHandlerDisconnect_inv theApp message ret theApp' effects :
  oscHandlerDisconnect theApp message = Returned ret theApp' effects →
  mFlows theApp' `sublist_of` mFlows theApp ∧
  mCurrentId theApp' = mCurrentId theApp ∧
  Forall isTextReply effects.
Proof.
  intros Hrun. unfold oscHandlerDisconnect in Hrun.
  repeat (case_match; try done); injection Hrun as <- <- <-; simpl.
  - by repeat split.
  - repeat split; [done|]. apply Forall_singleton. by eexists _, _, _.
  - split; [apply eraseFlows_inv|]. split; [done|]. apply eraseFlows_inv.
  - split; [apply eraseFlows_inv|]. split; [done|]. apply eraseFlows_inv.
Qed.

Lemma setParameterFlow_inv message flow heap result flow' heap' result' sent :
  setParameterFlow message flow heap result
  = Some (flow', heap', result', sent) →
  runChange message flow flow' ∧ Forall isTextReply sent.
Proof.
  unfold setParameterFlow, runChange. intros Hrun.
  destruct (message !! 2%nat ≫= toString) as [target|] eqn:Htarget;
    [|done].
  apply bind_toString in Htarget. simpl in Hrun.
  repeat (case_match; simplify_option_eq; try done);
    repeat split; simpl; auto;
    try (apply Forall_singleton; by eexists _, _, _).
Qed.

Lemma setParameterFlows_inv message flowId flows heap result
  flows' heap' result' sent :
  setParameterFlows message flowId flows heap result
  = Some (flows', heap', result', sent) →
  Forall2 (λ flow flow',
             (id flow ≠ flowId → flow' = flow) ∧ runChange message flow flow')
          flows flows' ∧
  Forall isTextReply sent.
Proof.
  revert heap result flows' heap' result' sent.
  induction flows as [|flow flows IH];
    intros heap result flows' heap' result' sent Hrun.
  { injection Hrun as <- <- <- <-. by split. }
  simpl in Hrun. destruct (Z.eqb_spec (id flow) flowId) as [Hid|Hid].
  - destruct (setParameterFlow message flow heap result)
      as [[[[flow1 heap1] result1] sent1]|] eqn:Hflow; [|done].
    simpl in Hrun.
    destruct (setParameterFlows message flowId flows heap1 result1)
      as [[[[rest2 heap2] result2] sent2]|] eqn:Hrest; [|done].
    injection Hrun as <- <- <- <-.
    apply setParameterFlow_inv in Hflow as [Hchange Hsent].
    apply IH in Hrest as [Hrest Hsent'].
    split; [|by apply Forall_app]. by constructor.
  - destruct (setParameterFlows message flowId flows heap result)
      as [[[[rest2 heap2] result2] sent2]|] eqn:Hrest; [|done].
    injection Hrun as <- <- <- <-.
    apply IH in Hrest as [Hrest Hsent'].
    split; [|done]. constructor; [|done]. split; [done|].
    split; [done|]. by left.
Qed.

(** A set-parameter request changes neither the counter nor the ids, and
    the [run] flags only as [runChange] tells. *)
Lemma oscHandlerSetParameter_inv theApp message ret theApp' effects :
  oscHandlerSetParameter theApp message = Returned ret theApp' effects →
  mCurrentId theApp' = mCurrentId theApp ∧
  Forall isTextReply effects ∧
  (theApp' = theApp ∨
   ∃ flowArg,
     message !! 1%nat = Some (IntValue flowArg) ∧
     Forall2 (λ flow flow',
                (id flow ≠ Int.to_unsigned flowArg → flow' = flow) ∧
                runChange message flow flow')
             (mFlows theApp) (mFlows theApp')).
Proof.
  intros Hrun. unfold oscHandlerSetParameter in Hrun.
  destruct (message !! 0%nat ≫= toString) as [addressStr|]; [|done].
  destruct (length message <? 3)%nat.
  { injection Hrun as <- <- <-. split; [done|]. split; [|by left].
    apply Forall_singleton. by eexists _, _, _. }
  destruct (negb _).
  { injection Hrun as <- <- <-. split; [done|]. split; [done|by left]. }
  destruct (message !! 1%nat ≫= toInt) as [flowArg|] eqn:HflowArg; [|done].
  apply bind_toInt in HflowArg.
  destruct (setParameterFlows _ _ _ _ _)
    as [[[[flows heap] result] sent]|] eqn:Hflows; [|done].
  injection Hrun as <- <- <-. simpl.
  apply setParameterFlows_inv in Hflows as [Hflows Hsent].
  split; [done|]. split; [done|]. right. by exists flowArg.
Qed.

(** The loop body for one flow: nothing for a stopped flow; for a running
    one everything is done on behalf of this flow, between its two
    markers. *)
Lemma frameFlow_inv frameNbr captures flow flow' sent :
  frameFlow frameNbr captures flow = Some (flow', sent) →
  id flow' = id flow ∧ run flow' = run flow ∧
  (run flow = false → sent = []) ∧
  (∀ e, e ∈ sent → run flow = true ∧ loopFlow e = Some (id flow)) ∧
  (run flow = true →
   startFrame frameNbr flow ∈ sent ∧ endFrame frameNbr flow ∈ sent).
Proof.
  unfold frameFlow. destruct (run flow) eqn:Hrun; simpl.
  2: { intros [= <- <-]. do 3 (split; [done|]). split; [|done].
       intros e He. by apply elem_of_nil in He. }
  intros Hsome.
  destruct (_ !! 0%nat ≫= toInt) as [nbr|]; [|done]. simpl in Hsome.
  destruct (_ !! 1%nat ≫= toInt) as [size|]; [|done]. simpl in Hsome.
  destruct (blobMessages _ nbr size) as [blobs|]; [|done].
  injection Hsome as <- <-. simpl. do 3 (split; [done|]). split.
  - intros e He. rewrite !elem_of_cons, elem_of_app in He.
    rewrite list_elem_of_fmap, list_elem_of_singleton in He.
    destruct He as [->|[->|[->|[(msg & -> & _)| ->]]]]; done.
  - intros _. split.
    + do 2 right. left.
    + do 3 right. apply elem_of_app. right. left.
Qed.

Lemma frameFlows_inv frameNbr captures flows flows' sent :
  frameFlows frameNbr captures flows = Some (flows', sent) →
  Forall2 (λ flow flow', id flow' = id flow ∧ run flow' = run flow)
          flows flows' ∧
  (∀ e, e ∈ sent →
     ∃ flow, flow ∈ flows ∧ run flow = true ∧ loopFlow e = Some (id flow)) ∧
  (∀ flow, flow ∈ flows → run flow = true →
     startFrame frameNbr flow ∈ sent ∧ endFrame frameNbr flow ∈ sent).
Proof.
  revert flows' sent. induction flows as [|flow flows IH];
    intros flows' sent Hrun.
  { injection Hrun as <- <-. split; [done|]. split.
    - intros e He. by apply elem_of_nil in He.
    - intros flow Hflow. by apply elem_of_nil in Hflow. }
  simpl in Hrun.
  destruct (frameFlow frameNbr captures flow) as [[flow1 sent1]|] eqn:Hflow;
    [|done].
  simpl in Hrun.
  destruct (frameFlows frameNbr captures flows) as [[rest sent2]|] eqn:Hrest;
    [|done].
  injection Hrun as <- <-.
  apply frameFlow_inv in Hflow as (Hid & Hr & _ & Hsent1 & Hmarkers).
  destruct (IH _ _ eq_refl) as (Hrest' & Hsent2 & Hmarkers').
  split; [by constructor|]. split.
  - intros e [He|He]%elem_of_app.
    + exists flow. split; [left|]. by apply Hsent1.
    + destruct (Hsent2 e He) as (flow2 & Hin & Hrun2 & Hflow2).
      exists flow2. split; [by right|done].
  - intros flow2 [->|Hin]%elem_of_cons Hrun2.
    + destruct (Hmarkers Hrun2). split; apply elem_of_app; by left.
    + destruct (Hmarkers' flow2 Hin Hrun2). split; apply elem_of_app; by right.
Qed.

End requests.

(** **** Runs of the server *)

Section runs.
Context `{Platform}.

Lemma loopFlow_connectedId e flowId :
  loopFlow e = Some flowId → connectedId e = None.
Proof. by destruct e. Qed.

(** A request either returns no flow id and adds no flow, or it is a
    successful connect. *)
Lemma handle_cases s r s' effects :
  handle s r = Some (s', effects) →
  (connectedIds effects = [] ∧
   mCurrentId (theApp s') = mCurrentId (theApp s) ∧
   ∀ flow', flow' ∈ mFlows (theApp s') →
            ∃ flow, flow ∈ mFlows (theApp s) ∧ id flow = id flow') ∨
  (connectedIds effects = [Int.to_signed (getValidId (theApp s))] ∧
   mCurrentId (theApp s') = getValidId (theApp s) ∧
   ∃ flow, mFlows (theApp s') = mFlows (theApp s) ++ [flow] ∧
           id flow = getValidId (theApp s) ∧ run flow = false).
Proof.
  destruct r as [devices message|message|message|captures]; simpl.
  - destruct (oscHandlerConnect _ _ _) as [ret theApp' effects'|] eqn:Hrun;
      [|done].
    intros [= <- <-]. simpl.
    apply oscHandlerConnect_inv in Hrun
      as [(_ & -> & Htext)|(_ & flow & shmFile & address & Hflows & Hid
                            & Hstop & Hcounter & ->)].
    + left. split; [by apply connectedIds_text|]. split; [done|]. eauto.
    + right. split; [done|]. split; [done|]. eauto.
  - destruct (oscHandlerDisconnect _ _) as [ret theApp' effects'|] eqn:Hrun;
      [|done].
    intros [= <- <-]. simpl.
    apply oscHandlerDisconnect_inv in Hrun as (Hsub & Hcounter & Htext).
    left. split; [by apply connectedIds_text|]. split; [done|].
    intros flow' Hin. exists flow'. split; [|done].
    by eapply elem_of_sublist.
  - destruct (oscHandlerSetParameter _ _) as [ret theApp' effects'|] eqn:Hrun;
      [|done].
    intros [= <- <-]. simpl.
    apply oscHandlerSetParameter_inv in Hrun
      as (Hcounter & Htext & [->|(flowArg & _ & Hflows)]).
    + left. split; [by apply connectedIds_text|]. split; [done|]. eauto.
    + left. split; [by apply connectedIds_text|]. split; [done|].
      intros flow' [i Hi]%list_elem_of_lookup_1.
      destruct (Forall2_lookup_r _ _ _ _ _ Hflows Hi)
        as (flow & Hflow & _ & Hid & _).
      exists flow. split; [by eapply list_elem_of_lookup_2|done].
  - destruct (frameFlows _ _ _) as [[flows sent]|] eqn:Hrun; [|done].
    intros [= <- <-]. simpl.
    apply frameFlows_inv in Hrun as (Hflows & Hsent & _).
    left. split; [|split; [done|]].
    + unfold connectedIds. clear Hflows.
      induction sent as [|e sent IH]; [done|]. simpl.
      destruct (Hsent e) as (flow & _ & _ & He); [left|].
      rewrite (loopFlow_connectedId _ _ He). apply IH.
      intros e' He'. apply Hsent. by right.
    + intros flow' [i Hi]%list_elem_of_lookup_1.
      destruct (Forall2_lookup_r _ _ _ _ _ Hflows Hi)
        as (flow & Hflow & Hid & _).
      exists flow. split; [by eapply list_elem_of_lookup_2|done].
Qed.

(** From a state whose counter is [c] and whose flow ids are at most [c]:
    the successful connects return [c + 1], [c + 2], ... as 32-bit values,
    and the flow ids stay at most the counter until it wraps. *)
Lemma handleAll_ids s requests s' effects c :
  0 ≤ c →
  mCurrentId (theApp s) = Int.to_unsigned c →
  (c < Int.modulus → ∀ flow, flow ∈ mFlows (theApp s) → 1 ≤ id flow ≤ c) →
  handleAll s requests = Some (s', effects) →
  connectedIds effects
  = (λ k, Int.to_signed (c + k))
      <$> seqZ 1 (Z.of_nat (length (connectedIds effects))) ∧
  mCurrentId (theApp s')
  = Int.to_unsigned (c + Z.of_nat (length (connectedIds effects))) ∧
  (c + Z.of_nat (length (connectedIds effects)) < Int.modulus →
   ∀ flow, flow ∈ mFlows (theApp s') →
           1 ≤ id flow ≤ c + Z.of_nat (length (connectedIds effects))).
Proof.
  revert s effects c. induction requests as [|r requests IH];
    intros s effects c Hc Hcounter Hids Hrun.
  { injection Hrun as <- <-. simpl. rewrite Z.add_0_r. done. }
  simpl in Hrun.
  destruct (handle s r) as [[s1 effects1]|] eqn:Hr; [|done].
  simpl in Hrun.
  destruct (handleAll s1 requests) as [[s2 effects2]|] eqn:Hrest; [|done].
  injection Hrun as <- <-.
  unfold connectedIds in *. rewrite omap_app, length_app.
  apply handle_cases in Hr
    as [(Hnone & Hsame & Hsub)
       |(Hone & Hnext & flow & Hflows & Hid & _)];
    unfold connectedIds in *.
  - rewrite Hnone. simpl.
    apply (IH s1 effects2 c); [done|congruence| |done].
    intros Hlt flow' Hin. destruct (Hsub flow' Hin) as (flow & Hflow & <-).
    by apply Hids.
  - assert (getValidId (theApp s) = Int.to_unsigned (c + 1)) as Hvalid.
    { unfold getValidId. rewrite Hcounter. apply IntFacts.to_unsigned_add_l. }
    rewrite Hone, Hvalid, IntFacts.to_signed_unsigned. simpl length.
    destruct (IH s1 effects2 (c + 1)) as (Hlist & Hfinal & Hbelow);
      [lia|congruence| |done|].
    { intros Hlt flow' Hin. rewrite Hflows, elem_of_app in Hin.
      destruct Hin as [Hin|Hin].
      - specialize (Hids ltac:(lia) flow' Hin). lia.
      - apply list_elem_of_singleton in Hin as ->.
        rewrite Hid, Hvalid, IntFacts.to_unsigned_id;
          [lia|unfold Int.in_unsigned; lia]. }
    set (n := length (omap connectedId effects2)) in *.
    replace (c + Z.of_nat (1 + n)) with (c + 1 + Z.of_nat n) by lia.
    split; [|by split].
    rewrite seqZ_cons by lia. simpl. f_equal.
    replace (Z.pred (Z.of_nat (S n))) with (Z.of_nat n) by lia.
    rewrite Hlist at 1.
    replace (Z.succ 1) with (1 + 1) by lia.
    rewrite <-(fmap_add_seqZ 1 1), <-list_fmap_compose.
    apply list_fmap_ext. intros _ k _. simpl. f_equal. lia.
Qed.

(** C4, amended: over any run of the server from its start, the [k]-th
    successful connect returns the flow id [k] as a 32-bit value.  Hence
    a returned id is strictly greater than every id returned before it as
    long as fewer than [2^31] connects have succeeded; read as unsigned
    values, as long as fewer than [2^32] have. *)
Theorem connect_ids_increase requests s effects i j a b :
  handleAll initialSys requests = Some (s, effects) →
  (i < j)%nat →
  connectedIds effects !! i = Some a →
  connectedIds effects !! j = Some b →
  a = Int.to_signed (Z.of_nat i + 1) ∧
  b = Int.to_signed (Z.of_nat j + 1) ∧
  (Z.of_nat j + 1 < Int.half_modulus → a < b) ∧
  (Z.of_nat j + 1 < Int.modulus → Int.to_unsigned a < Int.to_unsigned b).
Proof.
  intros Hrun Hij Ha Hb.
  destruct (handleAll_ids initialSys requests s effects 0)
    as (Hlist & _); [done|done| |done|].
  { intros _ flow Hin. by apply elem_of_nil in Hin. }
  rewrite Hlist in Ha, Hb.
  apply list_lookup_fmap_Some in Ha as (ka & -> & Hka).
  apply list_lookup_fmap_Some in Hb as (kb & -> & Hkb).
  apply lookup_seqZ in Hka as [-> _]. apply lookup_seqZ in Hkb as [-> _].
  rewrite !Z.add_0_l, !(Z.add_comm 1).
  split; [done|]. split; [done|]. split.
  - intros Hsmall. rewrite !IntFacts.to_signed_id; [lia|..];
      unfold Int.in_int; unfold Int.half_modulus in *; lia.
  - intros Hsmall. rewrite !IntFacts.to_unsigned_signed.
    rewrite !IntFacts.to_unsigned_id; [lia|..];
      unfold Int.in_unsigned; unfold Int.modulus in *; lia.
Qed.

End runs.

Lemma connect_ids_increase_witness :
  1 = Int.to_signed (Z.of_nat 0 + 1) ∧
  2 = Int.to_signed (Z.of_nat 1 + 1) ∧
  (Z.of_nat 1 + 1 < Int.half_modulus → 1 < 2) ∧
  (Z.of_nat 1 + 1 < Int.modulus → Int.to_unsigned 1 < Int.to_unsigned 2).
Proof.
  assert (∃ s effects,
    handleAll initialSys
      [Connect (λ _, true) demoConnect; LoopIteration (λ _, noImage);
       Connect (λ _, true) demoConnect] = Some (s, effects) ∧
    connectedIds effects = [1; 2]) as (s & effects & Hrun & Hids).
  { eexists _, _. split; vm_compute; reflexivity. }
  apply (connect_ids_increase _ s effects 0 1 1 2 Hrun).
  - lia.
  - by rewrite Hids.
  - by rewrite Hids.
Defined.

(** On the example platform the example request always connects. *)
Lemma demo_allocSources (app : App) :
  ∃ heap sources,
    allocSources app (λ _, true) 3 [StringValue "Camera"; IntValue 0]
      (mHeap app) [] = inr (heap, sources) ∧
    (1 ≤ length sources)%nat.
Proof.
  simpl.
  destruct (List.filter _ _) as [|p found]; simpl.
  - eexists _, _. split; [done|]. simpl. lia.
  - eexists _, _. split; [done|]. simpl. lia.
Qed.

Lemma demo_connect_always (app : App) :
  ∃ app' effects,
    oscHandlerConnect app (λ _, true) demoConnect = Returned 0 app' effects.
Proof.
  unfold oscHandlerConnect, demoConnect.
  cbn [lookup list_lookup mbind option_bind toInt toString].
  replace (sprintf_i 9000) with "9000" by (by vm_compute).
  cbn [String.length negb Nat.ltb Nat.leb lo_address_errno demoPlatform
       Z.eqb length drop mDetectorFactory].
  rewrite bool_decide_eq_true_2 by done.
  destruct (demo_allocSources app) as (heap & sources & -> & Hlen).
  cbn [mSourceNbr demoPlatform].
  destruct (Z.leb_spec 1 (Z.of_nat (length sources))); [|lia].
  by eexists _, _.
Qed.

Lemma demo_disconnect_always (app : App) :
  ∃ app' effects,
    oscHandlerDisconnect app (disconnectMessage "10.0.0.1" None)
    = Returned 0 app' effects.
Proof. by eexists _, _. Qed.

(** [n] sessions: a connect, then a disconnect of every flow of the caller,
    so that the flow set never holds more than one flow. *)
Lemma demo_sessions n s :
  ∃ s' effects,
    handleAll s
      (mjoin (replicate n [Connect (λ _, true) demoConnect;
                           Disconnect (disconnectMessage "10.0.0.1" None)]))
    = Some (s', effects) ∧
    length (connectedIds effects) = n.
Proof.
  revert s. induction n as [|n IH]; intros s.
  { by exists s, []. }
  rewrite replicate_S.
  destruct (demo_connect_always (theApp s)) as (app1 & effects1 & Hconnect).
  destruct (demo_disconnect_always app1) as (app2 & effects2 & Hdisconnect).
  destruct (IH {| theApp := app2; frameNbr := frameNbr s |})
    as (s' & effects' & Hrest & Hlen).
  exists s', (effects1 ++ effects2 ++ effects'). split.
  - change (mjoin (?session :: ?sessions))
      with (session ++ mjoin sessions).
    cbn [app handleAll handle].
    rewrite Hconnect. cbn [ofOutcome mbind option_bind theApp frameNbr].
    rewrite Hdisconnect. cbn [ofOutcome mbind option_bind theApp frameNbr].
    rewrite Hrest. done.
  - apply oscHandlerConnect_inv in Hconnect
      as [(Hret & _)|(_ & flow & shmFile & address & _ & _ & _ & _ & ->)];
      [done|].
    apply oscHandlerDisconnect_inv in Hdisconnect as (_ & _ & Htext).
    unfold connectedIds in *. rewrite !omap_app, !length_app, Hlen.
    fold (connectedIds effects2). by rewrite (connectedIds_text _ Htext).
Qed.

(** C4 as stated fails: the server starts; [2^32] times a client connects
    and disconnects; the first connect returns the flow id [1], the last
    returns the flow id [0]. *)
Lemma connect_ids_wrap :
  ∃ s effects,
    handleAll initialSys
      (mjoin (replicate (Z.to_nat (2 ^ 32))
                [Connect (λ _, true) demoConnect;
                 Disconnect (disconnectMessage "10.0.0.1" None)]))
    = Some (s, effects) ∧
    connectedIds effects !! 0%nat = Some 1 ∧
    connectedIds effects !! Z.to_nat (2 ^ 32 - 1) = Some 0.
Proof.
  assert (mCurrentId (theApp initialSys) = Int.to_unsigned 0) as Hzero
    by reflexivity.
  assert (0 < Int.modulus →
          ∀ flow, flow ∈ mFlows (theApp initialSys) → 1 ≤ id flow ≤ 0)
    as Hnone.
  { intros _ flow Hin. by apply elem_of_nil in Hin. }
  assert (Int.to_signed (2 ^ 32) = 0) as Hwrap by reflexivity.
  assert (Int.to_signed (0 + (1 + 0)) = 1) as Hfirst by reflexivity.
  destruct (demo_sessions (Z.to_nat (2 ^ 32)) initialSys)
    as (s & effects & Hrun & Hlen).
  exists s, effects. split; [exact Hrun|].
  pose proof (handleAll_ids _ _ _ _ 0 (Z.le_refl 0) Hzero Hnone Hrun)
    as (Hlist & _).
  rewrite Hlist, Hlen. rewrite !list_lookup_fmap.
  rewrite !lookup_seqZ_lt by lia. split.
  - cbn [fmap option_fmap option_map]. f_equal; exact Hfirst.
  - cbn [fmap option_fmap option_map].
    replace (0 + (1 + Z.of_nat (Z.to_nat (2 ^ 32 - 1)))) with (2 ^ 32)
      by lia.
    rewrite Hwrap. reflexivity.
Qed.

(** **** The run flag *)

Section gating.
Context `{Platform}.

Lemma silentFor_text flowId effects :
  Forall isTextReply effects → silentFor flowId effects.
Proof.
  intros Htext e He. rewrite Forall_forall in Htext.
  by rewrite (loopFlow_text e (Htext e He)).
Qed.

(** A request other than a start of the flow keeps it stopped, and nothing
    is done for it. *)
Lemma handle_stopped s r s' effects flowId :
  handle s r = Some (s', effects) →
  ¬ startsFlow flowId r →
  stopped flowId (theApp s) →
  stopped flowId (theApp s') ∧ silentFor flowId effects.
Proof.
  intros Hrun Hnostart Hstopped.
  destruct r as [devices message|message|message|captures]; simpl in Hrun.
  - destruct (oscHandlerConnect _ _ _) as [ret theApp' effects'|] eqn:Hc;
      [|done].
    injection Hrun as <- <-. simpl.
    apply oscHandlerConnect_inv in Hc
      as [(_ & -> & Htext)|(_ & flow & shmFile & address & Hflows & _
                            & Hstop & _ & ->)].
    + split; [done|by apply silentFor_text].
    + split.
      * intros flow'. rewrite Hflows, elem_of_app, list_elem_of_singleton.
        intros [Hin| ->] Hid; [by apply Hstopped|done].
      * intros e. rewrite !elem_of_cons, elem_of_nil.
        intros [->|[->|[]]]; done.
  - destruct (oscHandlerDisconnect _ _) as [ret theApp' effects'|] eqn:Hd;
      [|done].
    injection Hrun as <- <-. simpl.
    apply oscHandlerDisconnect_inv in Hd as (Hsub & _ & Htext).
    split; [|by apply silentFor_text].
    intros flow Hin. apply Hstopped. by eapply elem_of_sublist.
  - destruct (oscHandlerSetParameter _ _) as [ret theApp' effects'|] eqn:Hp;
      [|done].
    injection Hrun as <- <-. simpl.
    apply oscHandlerSetParameter_inv in Hp
      as (_ & Htext & [->|(flowArg & HflowArg & Hflows)]);
      (split; [|by apply silentFor_text]); [done|].
    intros flow' [i Hi]%list_elem_of_lookup_1 Hid'.
    destruct (Forall2_lookup_r _ _ _ _ _ Hflows Hi)
      as (flow & Hflow & Hsame & Hid & Hchange).
    assert (run flow = false) as Hoff.
    { apply Hstopped; [by eapply list_elem_of_lookup_2|congruence]. }
    destruct Hchange as [Hrun|[Hrun|[Hon Hstart]]]; [congruence|done|].
    destruct (decide (id flow = Int.to_unsigned flowArg)) as [Heq|Hne].
    + exfalso. apply Hnostart. simpl. exists flowArg.
      split; [done|]. split; [congruence|done].
    + rewrite (Hsame Hne) in Hon. congruence.
  - destruct (frameFlows _ _ _) as [[flows sent]|] eqn:Hf; [|done].
    injection Hrun as <- <-. simpl.
    apply frameFlows_inv in Hf as (Hflows & Hsent & _). split.
    + intros flow' [i Hi]%list_elem_of_lookup_1 Hid'.
      destruct (Forall2_lookup_r _ _ _ _ _ Hflows Hi)
        as (flow & Hflow & Hid & Hrun).
      rewrite Hrun. apply Hstopped; [by eapply list_elem_of_lookup_2|].
      congruence.
    + intros e He Hflow.
      destruct (Hsent e He) as (flow & Hin & Hon & Hfor).
      assert (id flow = flowId) as Hid by congruence.
      rewrite (Hstopped flow Hin Hid) in Hon. done.
Qed.

Lemma handleAll_stopped s requests s' effects flowId :
  handleAll s requests = Some (s', effects) →
  Forall (λ r, ¬ startsFlow flowId r) requests →
  stopped flowId (theApp s) →
  stopped flowId (theApp s') ∧ silentFor flowId effects.
Proof.
  revert s effects. induction requests as [|r requests IH];
    intros s effects Hrun Hnostart Hstopped.
  { injection Hrun as <- <-. split; [done|].
    intros e He. by apply elem_of_nil in He. }
  simpl in Hrun.
  destruct (handle s r) as [[s1 effects1]|] eqn:Hr; [|done].
  simpl in Hrun.
  destruct (handleAll s1 requests) as [[s2 effects2]|] eqn:Hrest; [|done].
  injection Hrun as <- <-.
  apply Forall_cons in Hnostart as [Hr' Hrest'].
  destruct (handle_stopped _ _ _ _ flowId Hr Hr' Hstopped)
    as [Hstopped1 Hsilent1].
  destruct (IH _ _ Hrest Hrest' Hstopped1) as [Hstopped2 Hsilent2].
  split; [done|].
  intros e [He|He]%elem_of_app; [by apply Hsilent1|by apply Hsilent2].
Qed.

(** ["Start"] and ["Stop"] set the flag of the flows of that id and change
    nothing else. *)
Lemma setParameterFlow_run ip flowArg b flow heap result :
  setParameterFlow (runMessage ip flowArg b) flow heap result
  = Some (setRun flow b, heap, result, []).
Proof. by destruct b. Qed.

Lemma setParameterFlows_run ip flowArg b flows heap result :
  setParameterFlows (runMessage ip flowArg b) (Int.to_unsigned flowArg)
    flows heap result
  = Some (setRunOf (Int.to_unsigned flowArg) b flows, heap, result, []).
Proof.
  induction flows as [|flow flows IH]; [done|].
  cbn [setParameterFlows setRunOf fmap list_fmap].
  fold (setRunOf (Int.to_unsigned flowArg) b flows).
  rewrite setParameterFlow_run. cbn [mbind option_bind]. rewrite IH.
  by destruct (id flow =? Int.to_unsigned flowArg).
Qed.

Lemma oscHandlerSetParameter_run theApp ip flowArg b :
  lo_address_errno (callerOf ip) = 0 →
  oscHandlerSetParameter theApp (runMessage ip flowArg b)
  = Returned 0
      {| mSources := mSources theApp;
         mFlows := setRunOf (Int.to_unsigned flowArg) b (mFlows theApp);
         mCurrentId := mCurrentId theApp; mHeap := mHeap theApp |}
      [].
Proof.
  intros Herrno. unfold oscHandlerSetParameter.
  cbn [runMessage lookup list_lookup mbind option_bind toString toInt
       length Nat.ltb Nat.leb].
  fold (callerOf ip). rewrite Herrno.
  fold (runMessage ip flowArg b). cbn [Z.eqb negb].
  by rewrite setParameterFlows_run.
Qed.

Lemma setRunOf_ids flowId b flows :
  id <$> setRunOf flowId b flows = id <$> flows.
Proof.
  unfold setRunOf. rewrite <-list_fmap_compose. apply list_fmap_ext.
  intros _ flow _. simpl. by destruct (id flow =? flowId).
Qed.

Lemma setRunOf_run flowId b flows flow :
  flow ∈ setRunOf flowId b flows → id flow = flowId → run flow = b.
Proof.
  unfold setRunOf. intros (flow0 & -> & Hin)%list_elem_of_fmap.
  destruct (Z.eqb_spec (id flow0) flowId); simpl; [done|]. done.
Qed.

End gating.

(** Scenario 6 of section 8: no frame before ["Start"], a frame after it,
    none after ["Stop"], and the flow is still there. *)
Example start_stop_gating :
  handleAll {| theApp := demoApp; frameNbr := 0 |}
    [LoopIteration (λ _, noImage);
     SetParameter (runMessage "10.0.0.1" 1 true);
     LoopIteration (λ _, noImage);
     SetParameter (runMessage "10.0.0.1" 1 false);
     LoopIteration (λ _, noImage)]
  = Some
      ({| theApp := demoApp; frameNbr := 3 |},
       [Detect 1 [noImage];
        SetImage 1 "/tmp/blobserver_output_1" noImage;
        Frame 1 {| dest := demoClient; path := "/blobserver/startFrame";
                   args := [IntValue 1; IntValue 1] |};
        Frame 1 {| dest := demoClient; path := "/blobserver/demo";
                   args := [IntValue 10; IntValue 11; IntValue 12] |};
        Frame 1 {| dest := demoClient; path := "/blobserver/demo";
                   args := [IntValue 20; IntValue 21; IntValue 22] |};
        Frame 1 {| dest := demoClient; path := "/blobserver/endFrame";
                   args := [IntValue 1; IntValue 1] |}]).
Proof. by vm_compute. Qed.

(** **** The per-frame messages *)

Section frames.
Context `{Platform}.

Lemma blobMessage_record message nbr size i :
  0 ≤ size → 0 ≤ i < nbr →
  2 + nbr * size ≤ Z.of_nat (length message) →
  Z.of_nat (length message) < Int.half_modulus →
  blobMessage message size i = Some (record message size i).
Proof.
  intros Hsize Hi Hlen Hint. unfold blobMessage, record.
  assert (2 + i * size + size ≤ 2 + nbr * size) as Hfit by nia.
  apply mapM_Some_2, Forall2_same_length_lookup_2.
  { rewrite length_seqZ, length_take, length_drop. lia. }
  intros k j v Hj Hv. apply lookup_seqZ in Hj as [-> Hk].
  rewrite lookup_take_lt, lookup_drop in Hv by lia.
  rewrite IntFacts.to_signed_id.
  2: { unfold Int.in_int. unfold Int.half_modulus in *. nia. }
  unfold messageAt. destruct (Z.ltb_spec (i * size + 2 + (0 + Z.of_nat k)) 0);
    [nia|].
  rewrite <-Hv. f_equal. lia.
Qed.

Lemma blobMessages_records message nbr size :
  0 ≤ size →
  2 + nbr * size ≤ Z.of_nat (length message) →
  Z.of_nat (length message) < Int.half_modulus →
  blobMessages message nbr size
  = Some (record message size <$> seqZ 0 nbr).
Proof.
  intros Hsize Hlen Hint. unfold blobMessages.
  apply mapM_Some_2, Forall2_fmap_r, Forall_Forall2_diag, Forall_forall.
  intros i Hi. apply list_elem_of_lookup in Hi as [k Hk].
  apply lookup_seqZ in Hk as [-> Hk].
  apply (blobMessage_record message nbr); [done|lia|done..].
Qed.

(** A record holds exactly [size] values, those at the positions
    [2 + i * size] to [2 + i * size + size - 1] of the report. *)
Lemma record_lookup message nbr size i (j : nat) :
  0 ≤ size → 0 ≤ i < nbr →
  2 + nbr * size ≤ Z.of_nat (length message) →
  length (record message size i) = Z.to_nat size ∧
  (Z.of_nat j < size →
   record message size i !! j = message !! Z.to_nat (2 + i * size + Z.of_nat j)).
Proof.
  intros Hsize Hi Hlen. unfold record.
  assert (2 + i * size + size ≤ 2 + nbr * size) as Hfit by nia.
  split.
  - rewrite length_take, length_drop. lia.
  - intros Hj. rewrite lookup_take_lt, lookup_drop by lia. f_equal. lia.
Qed.

(** C8: for a report whose first two values are [nbr] and [size] and that
    holds the [nbr * size] values of the records, the loop sends for a
    running flow, between the [/blobserver/startFrame] and the
    [/blobserver/endFrame] of this flow and frame number, exactly [nbr]
    messages on the OSC path of the detector, the [i]-th one made of the
    [size] values of record [i]; for [nbr = 0] only the two markers. *)
Theorem frameFlow_repacks frameNbr captures flow nbr size :
  let detected :=
    Detector_detect (detector flow) (captures <$> sources flow) in
  run flow = true →
  detected.1 !! 0%nat = Some (IntValue nbr) →
  detected.1 !! 1%nat = Some (IntValue size) →
  0 ≤ nbr → 0 ≤ size →
  2 + nbr * size ≤ Z.of_nat (length detected.1) →
  Z.of_nat (length detected.1) < Int.half_modulus →
  frameFlow frameNbr captures flow
  = Some (setDetector flow detected.2,
          [Detect (id flow) (captures <$> sources flow);
           SetImage (id flow) (shm flow) (Detector_getOutput detected.2);
           Frame (id flow)
             {| dest := client flow; path := "/blobserver/startFrame";
                args := [IntValue frameNbr;
                         IntValue (Int.to_signed (id flow))] |}]
          ++ ((λ i, Frame (id flow)
                      {| dest := client flow;
                         path := Detector_getOscPath detected.2;
                         args := record detected.1 size i |})
                <$> seqZ 0 nbr)
          ++ [Frame (id flow)
                {| dest := client flow; path := "/blobserver/endFrame";
                   args := [IntValue frameNbr;
                            IntValue (Int.to_signed (id flow))] |}]) ∧
  length (seqZ 0 nbr) = Z.to_nat nbr ∧
  (∀ i (j : nat), 0 ≤ i < nbr →
     length (record detected.1 size i) = Z.to_nat size ∧
     (Z.of_nat j < size →
      record detected.1 size i !! j
      = detected.1 !! Z.to_nat (2 + i * size + Z.of_nat j))) ∧
  (nbr = 0 → seqZ 0 nbr = []).
Proof.
  intros detected Hrun Hnbr Hsz Hn Hs Hlen Hint. split; [|split; [|split]].
  - unfold frameFlow. rewrite Hrun. simpl. fold detected.
    rewrite Hnbr, Hsz. simpl.
    rewrite (blobMessages_records _ _ _ Hs Hlen Hint). simpl.
    by rewrite <-list_fmap_compose.
  - apply length_seqZ.
  - intros i j Hi. by apply (record_lookup _ nbr).
  - by intros ->.
Qed.

End frames.

Lemma frameFlow_repacks_witness :
  frameFlow 7 (λ _, noImage) (demoFlow true)
  = Some
      (demoFlow true,
       [Detect 1 [noImage];
        SetImage 1 "/tmp/blobserver_output_1" noImage;
        Frame 1 {| dest := demoClient; path := "/blobserver/startFrame";
                   args := [IntValue 7; IntValue 1] |};
        Frame 1 {| dest := demoClient; path := "/blobserver/demo";
                   args := [IntValue 10; IntValue 11; IntValue 12] |};
        Frame 1 {| dest := demoClient; path := "/blobserver/demo";
                   args := [IntValue 20; IntValue 21; IntValue 22] |};
        Frame 1 {| dest := demoClient; path := "/blobserver/endFrame";
                   args := [IntValue 7; IntValue 1] |}]).
Proof.
  apply (frameFlow_repacks 7 (λ _, noImage) (demoFlow true) 2 3);
    try reflexivity; simpl; unfold Int.half_modulus; lia.
Defined.

(** A report of no blob: the two markers only. *)
Example frameFlow_no_blob :
  frameFlow 7 (λ _, noImage)
    {| detector := ([IntValue 0; IntValue 0] : Message);
       sources := [0%nat]; client := demoClient;
       shm := "/tmp/blobserver_output_1"; id := 1; run := true |}
  = Some
      ({| detector := ([IntValue 0; IntValue 0] : Message);
          sources := [0%nat]; client := demoClient;
          shm := "/tmp/blobserver_output_1"; id := 1; run := true |},
       [Detect 1 [noImage];
        SetImage 1 "/tmp/blobserver_output_1" noImage;
        Frame 1 {| dest := demoClient; path := "/blobserver/startFrame";
                   args := [IntValue 7; IntValue 1] |};
        Frame 1 {| dest := demoClient; path := "/blobserver/endFrame";
                   args := [IntValue 7; IntValue 1] |}]).
Proof. reflexivity. Qed.

(** A report shorter than it announces is read out of range. *)
Example frameFlow_short_report :
  frameFlow 7 (λ _, noImage)
    {| detector := ([IntValue 1; IntValue 3; IntValue 10] : Message);
       sources := [0%nat]; client := demoClient;
       shm := "/tmp/blobserver_output_1"; id := 1; run := true |}
  = None.
Proof. reflexivity. Qed.

(** **** What the run flag gates *)

Section emission.
Context `{Platform}.

Lemma frameFlow_emission frameNbr captures flow :
  (run flow = true → wellFormed (detectionOf captures flow).1) →
  frameFlow frameNbr captures flow
  = Some (afterFrame captures flow, emission frameNbr captures flow).
Proof.
  intros Hreport. unfold frameFlow, afterFrame, emission.
  destruct (run flow) eqn:Hrun; [|done]. simpl.
  destruct (Hreport eq_refl)
    as (nbr & size & Hnbr & Hsz & Hn & Hs & Hlen & Hint).
  unfold nbrOf, sizeOf, detectionOf in *. rewrite Hnbr, Hsz. simpl.
  rewrite (blobMessages_records _ _ _ Hs Hlen Hint). simpl.
  by rewrite <-list_fmap_compose.
Qed.

Lemma frameFlows_emission frameNbr captures flows :
  reports captures flows →
  frameFlows frameNbr captures flows
  = Some (afterFrame captures <$> flows,
          mjoin (emission frameNbr captures <$> flows)).
Proof.
  induction 1 as [|flow flows Hflow _ IH]; [done|].
  simpl. rewrite (frameFlow_emission _ _ _ Hflow). simpl.
  by rewrite IH.
Qed.

Lemma handle_emission s captures :
  reports captures (mFlows (theApp s)) →
  handle s (LoopIteration captures)
  = Some (afterLoop captures s,
          mjoin (emission (frameNbr s) captures <$> mFlows (theApp s))).
Proof.
  intros Hreports. simpl. by rewrite (frameFlows_emission _ _ _ Hreports).
Qed.

Lemma emission_running frameNbr captures flow :
  run flow = true →
  Detect (id flow) (captures <$> sources flow)
    ∈ emission frameNbr captures flow ∧
  SetImage (id flow) (shm flow)
    (Detector_getOutput (detectionOf captures flow).2)
    ∈ emission frameNbr captures flow ∧
  startFrame frameNbr flow ∈ emission frameNbr captures flow ∧
  endFrame frameNbr flow ∈ emission frameNbr captures flow.
Proof.
  intros Hrun. unfold emission. rewrite Hrun.
  repeat split; set_solver.
Qed.

Lemma emission_stopped frameNbr captures flowId flows :
  (∀ flow, flow ∈ flows → id flow = flowId → run flow = false) →
  silentFor flowId (mjoin (emission frameNbr captures <$> flows)).
Proof.
  intros Hstopped e He.
  apply list_elem_of_join in He as (sent & He & Hsent).
  apply list_elem_of_fmap in Hsent as (flow & -> & Hin).
  unfold emission in He. destruct (run flow) eqn:Hrun;
    [|by apply elem_of_nil in He].
  assert (id flow ≠ flowId) as Hid.
  { intros Hid. specialize (Hstopped flow Hin Hid). congruence. }
  rewrite !elem_of_app, !elem_of_cons, list_elem_of_fmap in He.
  destruct He as [[->|[->|[->|[]%elem_of_nil]]]
                 |[(i & -> & _)|[->|[]%elem_of_nil]]];
    simpl; congruence.
Qed.

Lemma setRunOf_lookup flowId b flows (i : nat) flow :
  flows !! i = Some flow →
  setRunOf flowId b flows !! i
  = Some (if bool_decide (id flow = flowId) then setRun flow b else flow).
Proof.
  intros Hi. unfold setRunOf. rewrite list_lookup_fmap, Hi. simpl.
  f_equal. destruct (Z.eqb_spec (id flow) flowId).
  - by rewrite bool_decide_eq_true_2.
  - by rewrite bool_decide_eq_false_2.
Qed.

Lemma afterFrame_same captures (flows : list Flow) :
  id <$> (afterFrame captures <$> flows) = id <$> flows ∧
  run <$> (afterFrame captures <$> flows) = run <$> flows.
Proof.
  rewrite <-!list_fmap_compose.
  split; apply list_fmap_ext; intros _ flow _; unfold afterFrame; simpl;
    by destruct (run flow) eqn:Hrun.
Qed.

(** C7: a flow that a connect creates is recorded with [run = false], and
    while no flow of its id runs and no set-parameter request names this id
    with ["Start"], whatever the other requests are, no iteration of the
    main loop sends a frame marker for it, runs its detector or writes its
    shared memory.  ["Start"] and ["Stop"] set the flag of the flows of that
    id to [true] and to [false] and keep every flow in the flow set.  An
    iteration of the main loop, the running flows reporting well formed
    messages, returns, and does for every flow in turn its per-frame
    emission: nothing for a stopped flow; the detector, the shared memory,
    the start marker, the records and the end marker for a running one.  So
    an iteration after a ["Start"] emits for the flows of that id, and an
    iteration after a ["Stop"] emits nothing for them, while they are still
    in the flow set. *)
Theorem run_flag_gates_emission :
  (∀ s devices message s1 effects1 flow,
     handle s (Connect devices message) = Some (s1, effects1) →
     mFlows (theApp s1) = mFlows (theApp s) ++ [flow] →
     run flow = false ∧
     (∀ frameNbr captures,
        frameFlow frameNbr captures flow = Some (flow, [])) ∧
     silentFor (id flow) effects1 ∧
     (stopped (id flow) (theApp s) → stopped (id flow) (theApp s1))) ∧
  (∀ flowId s requests s2 effects2,
     stopped flowId (theApp s) →
     Forall (λ r, ¬ startsFlow flowId r) requests →
     handleAll s requests = Some (s2, effects2) →
     silentFor flowId effects2 ∧ stopped flowId (theApp s2)) ∧
  (∀ s ip flowArg b,
     lo_address_errno (callerOf ip) = 0 →
     handle s (SetParameter (runMessage ip flowArg b))
     = Some (afterRun flowArg b s, []) ∧
     length (mFlows (theApp (afterRun flowArg b s)))
     = length (mFlows (theApp s)) ∧
     (∀ (i : nat) flow, mFlows (theApp s) !! i = Some flow →
        mFlows (theApp (afterRun flowArg b s)) !! i
        = Some (if bool_decide (id flow = Int.to_unsigned flowArg)
                then setRun flow b else flow))) ∧
  (∀ s captures,
     reports captures (mFlows (theApp s)) →
     handle s (LoopIteration captures)
     = Some (afterLoop captures s,
             mjoin (emission (frameNbr s) captures <$> mFlows (theApp s))) ∧
     (∀ flow, flow ∈ mFlows (theApp s) →
        (run flow = false → emission (frameNbr s) captures flow = []) ∧
        (run flow = true →
         ∃ before records after,
           mjoin (emission (frameNbr s) captures <$> mFlows (theApp s))
           = before
             ++ [Detect (id flow) (captures <$> sources flow);
                 SetImage (id flow) (shm flow)
                   (Detector_getOutput (detectionOf captures flow).2);
                 startFrame (frameNbr s) flow]
             ++ records ++ [endFrame (frameNbr s) flow] ++ after ∧
           length records
           = Z.to_nat (nbrOf (detectionOf captures flow).1))) ∧
     id <$> mFlows (theApp (afterLoop captures s))
     = id <$> mFlows (theApp s) ∧
     run <$> mFlows (theApp (afterLoop captures s))
     = run <$> mFlows (theApp s)) ∧
  (∀ s ip flowArg b captures,
     lo_address_errno (callerOf ip) = 0 →
     reports captures (mFlows (theApp (afterRun flowArg b s))) →
     ∃ effects,
       handleAll s [SetParameter (runMessage ip flowArg b);
                    LoopIteration captures]
       = Some (afterLoop captures (afterRun flowArg b s), effects) ∧
       id <$> mFlows (theApp (afterLoop captures (afterRun flowArg b s)))
       = id <$> mFlows (theApp s) ∧
       (b = false → silentFor (Int.to_unsigned flowArg) effects) ∧
       (b = true →
        ∀ flow, flow ∈ mFlows (theApp s) →
          id flow = Int.to_unsigned flowArg →
          Detect (id flow) (captures <$> sources flow) ∈ effects ∧
          SetImage (id flow) (shm flow)
            (Detector_getOutput (detectionOf captures flow).2) ∈ effects ∧
          startFrame (frameNbr s) flow ∈ effects ∧
          endFrame (frameNbr s) flow ∈ effects)).
Proof.
  split; [|split; [|split; [|split]]].
  - intros s devices message s1 effects1 flow Hconnect Hflows.
    simpl in Hconnect.
    destruct (oscHandlerConnect _ _ _) as [ret theApp' effects'|] eqn:Hc;
      [|done].
    injection Hconnect as <- <-. simpl in *.
    apply oscHandlerConnect_inv in Hc
      as [(_ & -> & _)|(_ & flow' & shmFile & address & Hflows' & _ & Hstop
                        & _ & ->)].
    { apply (f_equal length) in Hflows. rewrite length_app in Hflows.
      simpl in Hflows. lia. }
    rewrite Hflows' in Hflows. apply app_inj_tail in Hflows as [_ ->].
    split; [done|]. split; [|split].
    + intros frameNbr captures. unfold frameFlow. by rewrite Hstop.
    + intros e. rewrite !elem_of_cons, elem_of_nil.
      intros [->|[->|[]]]; done.
    + intros Hstopped flow2.
      rewrite Hflows', elem_of_app, list_elem_of_singleton.
      intros [Hin| ->] Hid2; [by apply Hstopped|done].
  - intros flowId s requests s2 effects2 Hstopped Hnostart Hrun.
    apply and_comm. by eapply handleAll_stopped.
  - intros s ip flowArg b Herrno. split; [|split].
    + simpl. by rewrite (oscHandlerSetParameter_run _ _ _ _ Herrno).
    + simpl. unfold setRunOf. by rewrite length_fmap.
    + intros i flow Hi. simpl. by apply setRunOf_lookup.
  - intros s captures Hreports. split; [by apply handle_emission|].
    split; [|apply afterFrame_same].
    intros flow Hin. split.
    + intros Hoff. unfold emission. by rewrite Hoff.
    + intros Hon. apply list_elem_of_split in Hin as (l1 & l2 & ->).
      rewrite fmap_app, fmap_cons, join_app.
      cbn [mjoin list_join].
      exists (mjoin (emission (frameNbr s) captures <$> l1)),
        ((λ i, Frame (id flow)
                 {| dest := client flow;
                    path := Detector_getOscPath (detectionOf captures flow).2;
                    args := record (detectionOf captures flow).1
                              (sizeOf (detectionOf captures flow).1) i |})
           <$> seqZ 0 (nbrOf (detectionOf captures flow).1)),
        (mjoin (emission (frameNbr s) captures <$> l2)).
      split; [|by rewrite length_fmap, length_seqZ].
      f_equal. unfold emission at 1. rewrite Hon.
      by rewrite <-!app_assoc.
  - intros s ip flowArg b captures Herrno Hreports.
    eexists. split; [|split; [|split]].
    + cbn [handleAll].
      change (handle s (SetParameter (runMessage ip flowArg b)))
        with (ofOutcome (frameNbr s)
                (oscHandlerSetParameter (theApp s)
                   (runMessage ip flowArg b))).
      rewrite (oscHandlerSetParameter_run _ _ _ _ Herrno).
      cbn [ofOutcome mbind option_bind].
      fold (afterRun flowArg b s).
      rewrite (handle_emission _ _ Hreports). simpl.
      by rewrite app_nil_r.
    + simpl. rewrite (proj1 (afterFrame_same _ _)). apply setRunOf_ids.
    + intros ->. apply emission_stopped.
      intros flow Hin Hid. by eapply setRunOf_run.
    + intros -> flow Hin Hid.
      assert (setRun flow true ∈ mFlows (theApp (afterRun flowArg true s)))
        as Hin'.
      { simpl. unfold setRunOf. apply list_elem_of_fmap.
        exists flow. split; [|done].
        by rewrite (proj2 (Z.eqb_eq _ _) Hid). }
      pose proof (emission_running (frameNbr s) captures (setRun flow true)
                    eq_refl) as (Hd & Hs & Hsf & Hef).
      repeat split; apply list_elem_of_join;
        exists (emission (frameNbr s) captures (setRun flow true));
        (split; [done|]); apply list_elem_of_fmap; by eexists.
Qed.

End emission.

Lemma run_flag_gates_emission_witness :
  (* the flow of the connect is created stopped *)
  (run (demoFlow false) = false ∧
   frameFlow 0 (λ _, noImage) (demoFlow false) = Some (demoFlow false, [])) ∧
  (* nothing is emitted for it before a start *)
  (∃ s2 effects2,
     handleAll {| theApp := demoApp; frameNbr := 0 |}
       [LoopIteration (λ _, noImage);
        SetParameter (runMessage "10.0.0.1" 1 false);
        Disconnect (disconnectMessage "10.0.0.1" (Some 5));
        LoopIteration (λ _, noImage)]
     = Some (s2, effects2) ∧
     silentFor 1 effects2 ∧ stopped 1 (theApp s2)) ∧
  (* a start sets the flag *)
  handle {| theApp := demoApp; frameNbr := 0 |}
    (SetParameter (runMessage "10.0.0.1" 1 true))
  = Some ({| theApp := {| mSources := [0%nat]; mFlows := [demoFlow true];
                          mCurrentId := 1; mHeap := mHeap demoApp |};
             frameNbr := 0 |}, []) ∧
  (* an iteration with the flow running emits its frame *)
  handle {| theApp := {| mSources := [0%nat]; mFlows := [demoFlow true];
                         mCurrentId := 1; mHeap := mHeap demoApp |};
            frameNbr := 4 |}
    (LoopIteration (λ _, noImage))
  = Some
      ({| theApp := {| mSources := [0%nat]; mFlows := [demoFlow true];
                       mCurrentId := 1; mHeap := mHeap demoApp |};
          frameNbr := 5 |},
       [Detect 1 [noImage];
        SetImage 1 "/tmp/blobserver_output_1" noImage;
        Frame 1 {| dest := demoClient; path := "/blobserver/startFrame";
                   args := [IntValue 4; IntValue 1] |};
        Frame 1 {| dest := demoClient; path := "/blobserver/demo";
                   args := [IntValue 10; IntValue 11; IntValue 12] |};
        Frame 1 {| dest := demoClient; path := "/blobserver/demo";
                   args := [IntValue 20; IntValue 21; IntValue 22] |};
        Frame 1 {| dest := demoClient; path := "/blobserver/endFrame";
                   args := [IntValue 4; IntValue 1] |}]) ∧
  (* a start and an iteration: the frame of the flow is emitted *)
  (∃ s2 effects2,
     handleAll {| theApp := demoApp; frameNbr := 0 |}
       [SetParameter (runMessage "10.0.0.1" 1 true);
        LoopIteration (λ _, noImage)]
     = Some (s2, effects2) ∧
     id <$> mFlows (theApp s2) = [1] ∧
     Detect 1 [noImage] ∈ effects2 ∧
     SetImage 1 "/tmp/blobserver_output_1" noImage ∈ effects2 ∧
     startFrame 0 (demoFlow false) ∈ effects2 ∧
     endFrame 0 (demoFlow false) ∈ effects2) ∧
  (* a stop and an iteration: nothing is emitted, the flow is still there *)
  (∃ s2 effects2,
     handleAll {| theApp := {| mSources := [0%nat];
                               mFlows := [demoFlow true];
                               mCurrentId := 1; mHeap := mHeap demoApp |};
                  frameNbr := 0 |}
       [SetParameter (runMessage "10.0.0.1" 1 false);
        LoopIteration (λ _, noImage)]
     = Some (s2, effects2) ∧
     id <$> mFlows (theApp s2) = [1] ∧
     silentFor 1 effects2).
Proof.
  destruct (@run_flag_gates_emission demoPlatform)
    as (Hcreate & Hsilent & Hflag & Hloop & Hboth).
  assert (reports (λ _, noImage) [demoFlow true]) as Hreports.
  { apply Forall_singleton. intros _. exists 2, 3.
    repeat split; try reflexivity; simpl; unfold Int.half_modulus; lia. }
  split; [|split; [|split; [|split; [|split]]]].
  - destruct (Hcreate initialSys (λ _, true) demoConnect
                {| theApp := demoApp; frameNbr := 0 |}
                [ShmOpen "/tmp/blobserver_output_1";
                 Reply {| dest := demoClient; path := "/blobserver/connect";
                          args := [StringValue "Connected"; IntValue 1] |}]
                (demoFlow false))
      as (Hoff & Hframe & _); [by vm_compute|reflexivity|].
    split; [exact Hoff|apply Hframe].
  - eexists _, _. split; [by vm_compute|].
    apply (Hsilent 1 {| theApp := demoApp; frameNbr := 0 |}
             [LoopIteration (λ _, noImage);
              SetParameter (runMessage "10.0.0.1" 1 false);
              Disconnect (disconnectMessage "10.0.0.1" (Some 5));
              LoopIteration (λ _, noImage)]).
    + intros flow [->|[]%elem_of_nil]%elem_of_cons _. reflexivity.
    + repeat constructor; simpl; try tauto.
      intros (flowArg & _ & _ & Hstart). vm_compute in Hstart. discriminate.
    + by vm_compute.
  - destruct (Hflag {| theApp := demoApp; frameNbr := 0 |} "10.0.0.1" 1 true)
      as (Hrun & _); [reflexivity|]. exact Hrun.
  - destruct (Hloop {| theApp := {| mSources := [0%nat];
                                    mFlows := [demoFlow true];
                                    mCurrentId := 1;
                                    mHeap := mHeap demoApp |};
                       frameNbr := 4 |} (λ _, noImage) Hreports)
      as (Hrun & _). exact Hrun.
  - destruct (Hboth {| theApp := demoApp; frameNbr := 0 |} "10.0.0.1" 1 true
                (λ _, noImage))
      as (effects & Hrun & Hids & _ & Hemits); [reflexivity|exact Hreports|].
    eexists _, effects. split; [exact Hrun|]. split; [exact Hids|].
    apply (Hemits eq_refl (demoFlow false)); [|reflexivity].
    apply list_elem_of_singleton. reflexivity.
  - destruct (Hboth {| theApp := {| mSources := [0%nat];
                                    mFlows := [demoFlow true];
                                    mCurrentId := 1;
                                    mHeap := mHeap demoApp |};
                       frameNbr := 0 |} "10.0.0.1" 1 false (λ _, noImage))
      as (effects & Hrun & Hids & Hstops & _); [reflexivity| |].
    { apply Forall_singleton. intros Hon. discriminate Hon. }
    eexists _, effects. split; [exact Hrun|]. split; [exact Hids|].
    by apply Hstops.
Defined.

(** The flow ids wrap (C4), so a new flow may get the id of a flow that
    runs; the frames of that flow bear the id of the new one.  Here the
    counter is back at 0 while flow 1 runs: the connect creates a second
    flow 1, stopped, and the iteration emits for the id 1. *)
Example same_id_running :
  let s := {| theApp := {| mSources := [0%nat]; mFlows := [demoFlow true];
                           mCurrentId := 0; mHeap := mHeap demoApp |};
              frameNbr := 0 |} in
  ∃ s2 effects2,
    handleAll s [Connect (λ _, true) demoConnect;
                 LoopIteration (λ _, noImage)]
    = Some (s2, effects2) ∧
    mFlows (theApp s2) = [demoFlow true; demoFlow false] ∧
    Detect 1 [noImage] ∈ effects2.
Proof.
  intros s. eexists _, _. split; [by vm_compute|].
  split; [reflexivity|]. repeat constructor.
Qed.

(** **** Disconnect *)

Section disconnect.
Context `{Platform}.

Lemma eraseFlows_filter ip flowArg flows :
  eraseFlows (lo_address_get_url (callerOf ip))
    (bool_decide (flowArg = None)) (default 0 flowArg) flows
  = (filter (λ flow, ¬ disconnects ip flowArg flow) flows,
     (λ flow, sendString (client flow) "/blobserver/disconnect" "Disconnected")
       <$> filter (disconnects ip flowArg) flows).
Proof.
  induction flows as [|flow flows IH]; [done|].
  simpl. rewrite IH. simpl. clear IH.
  destruct (decide (disconnects ip flowArg flow)) as [Hd|Hd].
  - rewrite (filter_cons_True (disconnects ip flowArg)) by done.
    rewrite filter_cons_False by (intros Hn; by apply Hn).
    destruct Hd as [Hurl Hid]. rewrite (bool_decide_eq_true_2 _ Hurl).
    destruct flowArg as [flowId|]; simpl; [|done].
    by destruct (Z.eqb_spec (Int.to_unsigned flowId) (id flow)).
  - rewrite (filter_cons_False (disconnects ip flowArg)) by done.
    rewrite filter_cons_True by done.
    destruct (decide (lo_address_get_url (client flow)
                      = lo_address_get_url (callerOf ip))) as [Hurl|Hurl].
    + rewrite (bool_decide_eq_true_2 _ Hurl).
      destruct flowArg as [flowId|]; simpl.
      * destruct (Z.eqb_spec (Int.to_unsigned flowId) (id flow)); [|done].
        exfalso. apply Hd. by split.
      * exfalso. apply Hd. by split.
    + by rewrite (bool_decide_eq_false_2 _ Hurl).
Qed.

(** C6, amended: a disconnect request for [<ip>] with a flow id removes
    exactly the flows that have this id and whose client has the URL of
    [<ip>] on port 9000, one without a flow id removes exactly the flows
    whose client has this URL; the other flows, those of a subscriber at
    [<ip>] with another port among them, are kept, in their order, and the
    client of each removed flow is sent ["Disconnected"]. *)
Theorem oscHandlerDisconnect_removes theApp ip flowArg :
  lo_address_errno (callerOf ip) = 0 →
  oscHandlerDisconnect theApp (disconnectMessage ip flowArg)
  = Returned 0
      {| mSources := mSources theApp;
         mFlows := filter (λ flow, ¬ disconnects ip flowArg flow)
                          (mFlows theApp);
         mCurrentId := mCurrentId theApp; mHeap := mHeap theApp |}
      ((λ flow, sendString (client flow) "/blobserver/disconnect"
                  "Disconnected")
         <$> filter (disconnects ip flowArg) (mFlows theApp)).
Proof.
  intros Herrno. unfold oscHandlerDisconnect, disconnectMessage. simpl.
  fold (callerOf ip). rewrite Herrno. simpl.
  pose proof (eraseFlows_filter ip flowArg (mFlows theApp)) as Hfilter.
  destruct flowArg as [flowId|]; simpl in *; by rewrite Hfilter.
Qed.

End disconnect.

Lemma oscHandlerDisconnect_removes_witness :
  oscHandlerDisconnect demoApp (disconnectMessage "10.0.0.1" (Some 1))
  = Returned 0
      {| mSources := mSources demoApp;
         mFlows := filter (λ flow, ¬ disconnects "10.0.0.1" (Some 1) flow)
                          (mFlows demoApp);
         mCurrentId := mCurrentId demoApp; mHeap := mHeap demoApp |}
      ((λ flow, sendString (client flow) "/blobserver/disconnect"
                  "Disconnected")
         <$> filter (disconnects "10.0.0.1" (Some 1)) (mFlows demoApp)).
Proof.
  apply (oscHandlerDisconnect_removes demoApp "10.0.0.1" (Some 1)).
  reflexivity.
Defined.

(** Scenario 5 of section 8: the flow of [demoConnect] is dropped. *)
Example demo_disconnect :
  oscHandlerDisconnect demoApp (disconnectMessage "10.0.0.1" (Some 1))
  = Returned 0
      {| mSources := [0%nat]; mFlows := []; mCurrentId := 1;
         mHeap := mHeap demoApp |}
      [sendString demoClient "/blobserver/disconnect" "Disconnected"].
Proof. by vm_compute. Qed.

(** C6 fails as worded: a subscriber that connected with another port than
    9000 keeps its flows.  [/blobserver/connect 10.0.0.1 9001 Demo Camera 0]
    on the initial state creates flow 1 for the subscriber at 10.0.0.1,
    port 9001.  [/blobserver/disconnect 10.0.0.1] and
    [/blobserver/disconnect 10.0.0.1 1] then both return 0, remove no flow
    and send nothing: the handler compares the URL of the client with the
    URL of 10.0.0.1 on port 9000. *)
Lemma oscHandlerDisconnect_other_port :
  ∃ theApp flow effects,
    oscHandlerConnect initialApp (λ _, true)
      [StringValue "10.0.0.1"; IntValue 9001; StringValue "Demo";
       StringValue "Camera"; IntValue 0]
    = Returned 0 theApp effects ∧
    mFlows theApp = [flow] ∧
    client flow = {| host := "10.0.0.1"; port := "9001" |} ∧
    ofSubscriber "10.0.0.1" None flow ∧
    ofSubscriber "10.0.0.1" (Some 1) flow ∧
    oscHandlerDisconnect theApp (disconnectMessage "10.0.0.1" None)
    = Returned 0 theApp [] ∧
    oscHandlerDisconnect theApp (disconnectMessage "10.0.0.1" (Some 1))
    = Returned 0 theApp [].
Proof.
  eexists _, _, _. split; [by vm_compute|].
  split; [reflexivity|]. by vm_compute.
Qed.

(** **** A successful connect *)

Lemma list_pair_ind {A} (P : list A → Prop) :
  P [] → (∀ a, P [a]) → (∀ a b l, P l → P (a :: b :: l)) → ∀ l, P l.
Proof.
  intros Hnil Hone Hpair l.
  assert (P l ∧ ∀ a, P (a :: l)) as [Hl _]; [|done].
  induction l as [|b l [IHl IHa]]; [by split|].
  split; [apply IHa|]. intros a. by apply Hpair.
Qed.

Section sources.
Context `{Platform}.

(** The allocation loop creates the objects at new addresses, and what it
    puts in the local vector is in the heap. *)
Lemma allocSources_inv theApp devices args pos heap sources heap' sources' :
  mHeap theApp ⊆ heap →
  allocSources theApp devices pos args heap sources = inr (heap', sources') →
  heap ⊆ heap' ∧
  ∃ added, sources' = sources ++ added ∧
           ∀ p, p ∈ added → is_Some (heap' !! p).
Proof.
  revert pos heap sources.
  induction args as [| a | a b rest IH] using list_pair_ind;
    intros pos heap sources Hsub; simpl.
  - intros [= <- <-]. split; [done|]. exists []. split; [by rewrite app_nil_r|].
    by intros p ?%elem_of_nil.
  - done.
  - destruct (toString a) as [sourceName|]; [|by destruct (toInt b)].
    destruct (toInt b) as [sourceIndex|]; [|done].
    destruct (List.filter _ (mSources theApp)) as [|q found] eqn:Hfound.
    + destruct (mSourceFactory sourceName) as [create|]; [|done].
      destruct (devices pos); [|done]. intros Hrun.
      set (p := fresh (dom heap)) in *.
      assert (heap !! p = None) as Hp
        by apply not_elem_of_dom, is_fresh.
      destruct (IH _ _ _ (transitivity Hsub (insert_subseteq heap p _ Hp))
                  Hrun) as (Hheap & added & -> & Hadded).
      split; [by etrans; [apply insert_subseteq|]|].
      exists (p :: added). split; [by rewrite <-app_assoc|].
      intros p' [->|Hp']%elem_of_cons; [|by apply Hadded].
      exists (Source_connect (create sourceIndex)).
      eapply lookup_weaken; [|done]. apply lookup_insert_eq.
    + intros Hrun.
      destruct (IH _ _ _ Hsub Hrun) as (Hheap & added & -> & Hadded).
      split; [done|]. exists ((q :: found) ++ added).
      split; [by rewrite <-app_assoc|].
      intros p [Hp|Hp]%elem_of_app; [|by apply Hadded].
      rewrite <-Hfound in Hp.
      apply list_elem_of_In, List.filter_In in Hp as [_ Hp].
      unfold isSource in Hp.
      destruct (mHeap theApp !! p) as [src|] eqn:Hsrc; [|done].
      exists src. eapply lookup_weaken; [done|]. by etrans.
Qed.

(** [addSource] is called with every source of the local vector, in order;
    [mSources] only grows. *)
Lemma registerSources_inv heap sources registeredSources detector :
  registeredSources
    `prefix_of` (registerSources heap sources registeredSources detector).1 ∧
  (registerSources heap sources registeredSources detector).2
  = foldl Detector_addSource detector sources.
Proof.
  unfold registerSources. revert registeredSources detector.
  induction sources as [|p sources IH]; intros acc detector; [done|].
  simpl. destruct (IH (if isInSources heap acc p then acc else acc ++ [p])
                      (Detector_addSource detector p)) as [Hpre Hdet].
  split; [|done]. etrans; [|exact Hpre].
  destruct (isInSources heap acc p); [done|]. by apply prefix_app_r.
Qed.

(** X10: a connect request that succeeds appends one flow and touches no
    other: its client is the address made of the first two values, its id
    the incremented counter, its shared-memory path is keyed by this id, it
    is stopped, it has at least as many sources as the detector needs, all
    of them objects of the heap, and its detector was handed each of them.
    The sources registered before stay registered, the objects of the heap
    stay as they are, and the caller is told the id. *)
Theorem oscHandlerConnect_success theApp devices message theApp' effects :
  oscHandlerConnect theApp devices message = Returned 0 theApp' effects →
  ∃ hostName portNbr detectorName created flow,
    message !! 0%nat = Some (StringValue hostName) ∧
    message !! 1%nat = Some (IntValue portNbr) ∧
    message !! 2%nat = Some (StringValue detectorName) ∧
    mDetectorFactory detectorName = Some created ∧
    mFlows theApp' = mFlows theApp ++ [flow] ∧
    client flow = {| host := hostName; port := sprintf_i portNbr |} ∧
    lo_address_errno (client flow) = 0 ∧
    id flow = getValidId theApp ∧
    mCurrentId theApp' = getValidId theApp ∧
    run flow = false ∧
    shm flow
    = "/tmp/blobserver_output_" +:+ sprintf_i (Int.to_signed (id flow)) ∧
    detector flow = foldl Detector_addSource created (sources flow) ∧
    mSourceNbr ≤ Z.of_nat (length (sources flow)) ∧
    (∀ p, p ∈ sources flow → is_Some (mHeap theApp' !! p)) ∧
    mSources theApp `prefix_of` mSources theApp' ∧
    mHeap theApp ⊆ mHeap theApp' ∧
    effects
    = [ShmOpen (shm flow);
       Reply {| dest := client flow; path := "/blobserver/connect";
                args := [StringValue "Connected";
                         IntValue (Int.to_signed (id flow))] |}].
Proof.
  unfold oscHandlerConnect. intros Hrun.
  destruct (message !! 1%nat) as [portValue|] eqn:Hport; [|done].
  destruct portValue as [portNbr| |]; simpl in Hrun; try done.
  destruct (negb _); [done|].
  destruct (message !! 0%nat ≫= toString) as [hostName|] eqn:Hhost; [|done].
  apply bind_toString in Hhost.
  destruct (lo_address_errno _ =? 0) eqn:Herrno; simpl in Hrun; [|done].
  apply Z.eqb_eq in Herrno.
  destruct (length message <? 5)%nat; [done|].
  destruct (message !! 2%nat ≫= toString) as [detectorName|] eqn:Hname;
    [|done].
  apply bind_toString in Hname.
  destruct (mDetectorFactory detectorName) as [created|] eqn:Hcreated;
    [|done].
  destruct (allocSources _ _ _ _ _ _) as [error|[heap sources]] eqn:Halloc;
    [done|].
  destruct (Z.leb_spec mSourceNbr (Z.of_nat (length sources))); [|done].
  injection Hrun as <- <-.
  destruct (allocSources_inv _ _ _ _ _ _ _ _ (reflexivity _) Halloc)
    as (Hheap & added & -> & Hadded).
  destruct (registerSources_inv heap ([] ++ added) (mSources theApp) created)
    as [Hpre Hdet].
  eexists hostName, portNbr, detectorName, created, _.
  simpl. repeat split; done.
Qed.

(** The sources a request names are all registered: nothing is created. *)
Lemma allocSources_registered theApp devices args pos heap sources
  heap' sources' :
  Forall (registered theApp) (namedSources args) →
  allocSources theApp devices pos args heap sources = inr (heap', sources') →
  heap' = heap ∧
  ∃ added, sources' = sources ++ added ∧
           ∀ p, p ∈ added →
                p ∈ mSources theApp ∧ is_Some (mHeap theApp !! p).
Proof.
  revert pos heap sources.
  induction args as [| a | a b rest IH] using list_pair_ind;
    intros pos heap sources Hnamed; simpl.
  - intros [= <- <-]. split; [done|]. exists []. split; [by rewrite app_nil_r|].
    by intros p ?%elem_of_nil.
  - done.
  - simpl in Hnamed.
    destruct (toString a) as [sourceName|]; [|by destruct (toInt b)].
    destruct (toInt b) as [sourceIndex|]; [|done].
    apply Forall_cons in Hnamed as [(q0 & Hq0 & Hsrc) Hnamed]. simpl in Hsrc.
    destruct (List.filter _ (mSources theApp)) as [|q found] eqn:Hfound.
    { exfalso. eapply (List.in_nil (a:=q0)). rewrite <-Hfound.
      apply List.filter_In. split; [by apply list_elem_of_In|done]. }
    intros Hrun.
    destruct (IH _ _ _ Hnamed Hrun) as (-> & added & -> & Hadded).
    split; [done|]. exists ((q :: found) ++ added).
    split; [by rewrite <-app_assoc|].
    intros p [Hp|Hp]%elem_of_app; [|by apply Hadded].
    rewrite <-Hfound in Hp.
    apply list_elem_of_In, List.filter_In in Hp as [Hp%list_elem_of_In Hs].
    split; [done|]. unfold isSource in Hs.
    by destruct (mHeap theApp !! p).
Qed.

Lemma isInSources_elem_of heap registeredSources p :
  p ∈ registeredSources → is_Some (heap !! p) →
  isInSources heap registeredSources p = true.
Proof.
  intros Hp [src Hsrc]. unfold isInSources. rewrite Hsrc.
  apply existsb_exists. exists p. split; [by apply list_elem_of_In|].
  unfold isSource. rewrite Hsrc.
  by rewrite !bool_decide_eq_true_2.
Qed.

Lemma registerSources_registered heap sources registeredSources detector :
  (∀ p, p ∈ sources → p ∈ registeredSources ∧ is_Some (heap !! p)) →
  (registerSources heap sources registeredSources detector).1
  = registeredSources.
Proof.
  unfold registerSources. revert detector.
  induction sources as [|p sources IH]; intros detector Hin; [done|].
  simpl. destruct (Hin p) as [Hp Hsrc]; [by left|].
  rewrite (isInSources_elem_of _ _ _ Hp Hsrc). apply IH.
  intros p' Hp'. apply Hin. by right.
Qed.

(** X11: sources are shared between flows.  A connect request that names
    only sources that are registered (by name and sub-source number) creates
    no source object and registers none: the new flow points to the
    registered objects, and the heap and [mSources] are left as they
    are. *)
Theorem oscHandlerConnect_shares theApp devices message theApp' effects :
  oscHandlerConnect theApp devices message = Returned 0 theApp' effects →
  Forall (registered theApp) (namedSources (drop 3 message)) →
  mHeap theApp' = mHeap theApp ∧ mSources theApp' = mSources theApp ∧
  ∃ flow, mFlows theApp' = mFlows theApp ++ [flow] ∧
          ∀ p, p ∈ sources flow → p ∈ mSources theApp.
Proof.
  unfold oscHandlerConnect. intros Hrun Hnamed.
  destruct (message !! 1%nat) as [portValue|]; [|done].
  destruct (toInt portValue) as [portNbr|]; [|done].
  destruct (negb _); [done|].
  destruct (message !! 0%nat ≫= toString) as [hostName|]; [|done].
  destruct (negb _); [done|].
  destruct (length message <? 5)%nat; [done|].
  destruct (message !! 2%nat ≫= toString) as [detectorName|]; [|done].
  destruct (mDetectorFactory detectorName) as [created|]; [|done].
  destruct (allocSources _ _ _ _ _ _) as [error|[heap sources]] eqn:Halloc;
    [done|].
  destruct (mSourceNbr <=? _); [|done].
  injection Hrun as <- <-.
  destruct (allocSources_registered _ _ _ _ _ _ _ _ Hnamed Halloc)
    as (-> & added & -> & Hadded).
  simpl. split; [done|]. split.
  - by apply registerSources_registered.
  - eexists. split; [done|]. simpl. intros p Hp. by apply Hadded.
Qed.

(** Among sources of distinct names and numbers the search finds at most
    one. *)
Lemma length_filter_isSource heap registeredSources sourceName subsourceNbr :
  NoDup (sourceKey heap <$> registeredSources) →
  (length (List.filter (isSource heap sourceName subsourceNbr)
                       registeredSources) ≤ 1)%nat.
Proof.
  induction registeredSources as [|p l IH]; [simpl; lia|].
  rewrite fmap_cons, NoDup_cons. intros [Hp Hl]. simpl.
  destruct (isSource heap sourceName subsourceNbr p) eqn:Hsrc;
    [|by apply IH].
  assert (List.filter (isSource heap sourceName subsourceNbr) l = [])
    as ->; [|simpl; lia].
  destruct (List.filter _ l) as [|q found] eqn:Hfound; [done|].
  exfalso. apply Hp.
  assert (q ∈ l ∧ isSource heap sourceName subsourceNbr q = true)
    as [Hq Hqsrc].
  { assert (List.In q (List.filter
                         (isSource heap sourceName subsourceNbr) l)) as Hin
      by (rewrite Hfound; by left).
    apply List.filter_In in Hin as [Hin ?]. by apply list_elem_of_In in Hin. }
  apply list_elem_of_fmap. exists q. split; [|done].
  unfold isSource, sourceKey in *.
  destruct (heap !! p) as [sp|]; [|done].
  destruct (heap !! q) as [sq|]; [|done].
  apply andb_true_iff in Hsrc as [?%bool_decide_eq_true ?%bool_decide_eq_true].
  apply andb_true_iff in Hqsrc
    as [?%bool_decide_eq_true ?%bool_decide_eq_true].
  simpl. congruence.
Qed.

Lemma allocSources_length theApp devices args pos heap sources
  heap' sources' :
  NoDup (sourceKey (mHeap theApp) <$> mSources theApp) →
  allocSources theApp devices pos args heap sources = inr (heap', sources') →
  (length args + 2 * length sources = 2 * length sources')%nat.
Proof.
  intros Hdup. revert pos heap sources.
  induction args as [| a | a b rest IH] using list_pair_ind;
    intros pos heap sources; simpl.
  - intros [= <- <-]. lia.
  - done.
  - destruct (toString a) as [sourceName|]; [|by destruct (toInt b)].
    destruct (toInt b) as [sourceIndex|]; [|done].
    pose proof (length_filter_isSource (mHeap theApp) (mSources theApp)
                  sourceName (Int.to_unsigned sourceIndex) Hdup) as Hone.
    destruct (List.filter _ (mSources theApp)) as [|q found] eqn:Hfound.
    + destruct (mSourceFactory sourceName) as [create|]; [|done].
      destruct (devices pos); [|done]. intros Hrun%IH.
      rewrite length_app in Hrun. simpl in Hrun. lia.
    + intros Hrun%IH. rewrite length_app in Hrun. simpl in *. lia.
Qed.

Lemma sourceKey_weaken heap heap' p :
  heap ⊆ heap' → is_Some (heap !! p) → sourceKey heap' p = sourceKey heap p.
Proof.
  intros Hsub [src Hsrc]. unfold sourceKey.
  by rewrite Hsrc, (lookup_weaken _ _ _ _ Hsrc Hsub).
Qed.

Lemma registerSources_distinct heap sources registeredSources detector :
  (∀ p, p ∈ sources → is_Some (heap !! p)) →
  (∀ p, p ∈ registeredSources → is_Some (heap !! p)) →
  NoDup (sourceKey heap <$> registeredSources) →
  (∀ p, p ∈ (registerSources heap sources registeredSources detector).1 →
        is_Some (heap !! p)) ∧
  NoDup (sourceKey heap
           <$> (registerSources heap sources registeredSources detector).1).
Proof.
  unfold registerSources. revert registeredSources detector.
  induction sources as [|p sources IH];
    intros acc detector Hsources Hacc Hdup; [done|].
  simpl. apply IH.
  - intros p' Hp'. apply Hsources. by right.
  - destruct (isInSources heap acc p); [done|].
    intros p' [Hp'| ->%list_elem_of_singleton]%elem_of_app; [by apply Hacc|].
    apply Hsources. by left.
  - destruct (isInSources heap acc p) eqn:Hin; [done|].
    rewrite fmap_app. apply NoDup_app. split; [done|]. split.
    2: { simpl. apply NoDup_singleton. }
    intros key Hkey ->%list_elem_of_singleton.
    apply list_elem_of_fmap in Hkey as (q & Hq & Hqacc).
    destruct (Hsources p) as [sp Hsp]; [by left|].
    destruct (Hacc q Hqacc) as [sq Hsq].
    unfold isInSources in Hin. rewrite Hsp in Hin.
    assert (existsb (isSource heap (Source_getName sp)
                       (Source_getSubsourceNbr sp)) acc = true) as Hex;
      [|congruence].
    apply existsb_exists. exists q. split; [by apply list_elem_of_In|].
    unfold sourceKey in Hq. rewrite Hsp, Hsq in Hq. simpl in Hq.
    injection Hq as Hname Hnbr.
    unfold isSource. rewrite Hsq.
    by rewrite !bool_decide_eq_true_2.
Qed.

(** X12: no camera is registered twice.  When the registered sources are
    objects of the heap with pairwise distinct names and sub-source numbers,
    they still are after a connect request, and the flow a successful
    request creates has one source for each name and number of the
    request. *)
Theorem oscHandlerConnect_distinct theApp devices message ret theApp'
  effects :
  distinctSources theApp →
  oscHandlerConnect theApp devices message = Returned ret theApp' effects →
  distinctSources theApp' ∧
  ∀ flow, mFlows theApp' = mFlows theApp ++ [flow] →
          (3 + 2 * length (sources flow) = length message)%nat.
Proof.
  intros [Hlive Hdup] Hrun.
  destruct (oscHandlerConnect_inv _ _ _ _ _ _ Hrun)
    as [(_ & -> & _)|(-> & _)].
  { split; [by split|]. intros flow Hflow.
    apply (f_equal length) in Hflow. rewrite length_app in Hflow.
    simpl in Hflow. lia. }
  unfold oscHandlerConnect in Hrun.
  destruct (message !! 1%nat) as [portValue|]; [|done].
  destruct (toInt portValue) as [portNbr|]; [|done].
  destruct (negb _); [done|].
  destruct (message !! 0%nat ≫= toString) as [hostName|]; [|done].
  destruct (negb _); [done|].
  destruct (Nat.ltb_spec (length message) 5); [done|].
  destruct (message !! 2%nat ≫= toString) as [detectorName|]; [|done].
  destruct (mDetectorFactory detectorName) as [created|]; [|done].
  destruct (allocSources _ _ _ _ _ _) as [error|[heap sources]] eqn:Halloc;
    [done|].
  destruct (mSourceNbr <=? _); [|done].
  injection Hrun as <- <-.
  destruct (allocSources_inv _ _ _ _ _ _ _ _ (reflexivity _) Halloc)
    as (Hheap & added & -> & Hadded).
  pose proof (allocSources_length _ _ _ _ _ _ _ _ Hdup Halloc) as Hlen.
  rewrite length_drop in Hlen. simpl in *.
  split.
  - apply registerSources_distinct; [done|..].
    + intros p [src Hsrc]%Hlive. exists src. by eapply lookup_weaken.
    + replace (sourceKey heap <$> mSources theApp)
        with (sourceKey (mHeap theApp) <$> mSources theApp); [done|].
      apply list_fmap_ext. intros _ p Hp%list_elem_of_lookup_2.
      symmetry. by apply sourceKey_weaken, Hlive.
  - intros flow Hflow. apply app_inj_tail in Hflow as [_ <-]. simpl. lia.
Qed.

End sources.

Lemma oscHandlerConnect_success_witness :
  ∃ flow,
    mFlows demoApp = mFlows initialApp ++ [flow] ∧
    shm flow = "/tmp/blobserver_output_1" ∧ run flow = false.
Proof.
  destruct (oscHandlerConnect_success initialApp (λ _, true) demoConnect
              demoApp _ demo_connect)
    as (hostName & portNbr & detectorName & created & flow & _ & _ & _ & _
        & Hflows & _ & _ & Hid & _ & Hrun & Hshm & _).
  exists flow. split; [exact Hflows|]. split; [|exact Hrun].
  rewrite Hshm, Hid. reflexivity.
Defined.

Lemma oscHandlerConnect_shares_witness :
  ∃ theApp' effects,
    oscHandlerConnect demoApp (λ _, false) demoConnect
    = Returned 0 theApp' effects ∧
    mHeap theApp' = mHeap demoApp ∧ mSources theApp' = mSources demoApp.
Proof.
  assert (∃ theApp' effects,
            oscHandlerConnect demoApp (λ _, false) demoConnect
            = Returned 0 theApp' effects) as (theApp' & effects & Hrun)
    by (by vm_compute; eexists _, _).
  exists theApp', effects. split; [exact Hrun|].
  destruct (oscHandlerConnect_shares demoApp (λ _, false) demoConnect
              theApp' effects Hrun) as (Hheap & Hsources & _).
  - apply Forall_singleton. exists 0%nat. split; [by left|by vm_compute].
  - by split.
Defined.

Lemma demoApp_distinct : distinctSources demoApp.
Proof.
  split.
  - intros p ->%list_elem_of_singleton. by vm_compute; eexists.
  - vm_compute. apply NoDup_singleton.
Qed.

Lemma oscHandlerConnect_distinct_witness :
  ∃ theApp' effects,
    oscHandlerConnect demoApp (λ _, true)
      [StringValue "10.0.0.2"; IntValue 9000; StringValue "Demo";
       StringValue "Camera"; IntValue 0; StringValue "Camera"; IntValue 1]
    = Returned 0 theApp' effects ∧
    distinctSources theApp' ∧ length (mSources theApp') = 2%nat.
Proof.
  assert (∃ theApp' effects,
            oscHandlerConnect demoApp (λ _, true)
              [StringValue "10.0.0.2"; IntValue 9000; StringValue "Demo";
               StringValue "Camera"; IntValue 0;
               StringValue "Camera"; IntValue 1]
            = Returned 0 theApp' effects ∧
            length (mSources theApp') = 2%nat)
    as (theApp' & effects & Hrun & Hlen)
    by (by vm_compute; eexists _, _).
  exists theApp', effects. split; [exact Hrun|]. split; [|exact Hlen].
  by destruct (oscHandlerConnect_distinct demoApp _ _ _ _ _
                 demoApp_distinct Hrun).
Defined.

(** **** The port buffer *)

Lemma length_pretty_N_go_ge (k : nat) (x : N) s :
  (10 ^ N.of_nat k ≤ x)%N →
  (String.length s + S k ≤ String.length (pretty_N_go x s))%nat.
Proof.
  revert x s. induction k as [|k IH]; intros x s Hx.
  - rewrite pretty_N_go_step by (simpl in Hx; lia).
    assert (∀ y t, String.length t ≤ String.length (pretty_N_go y t))%nat
      as Hmono.
    { intros y. induction (N.lt_wf_0 y) as [y _ IHy]. intros t.
      assert (y = 0 ∨ 0 < y)%N as [->|?] by lia; [by rewrite pretty_N_go_0|].
      rewrite pretty_N_go_step by done.
      etrans; [|by eapply IHy, N.div_lt]. simpl. lia. }
    etrans; [|apply Hmono]. simpl. lia.
  - assert (0 < x)%N as Hpos.
    { eapply N.lt_le_trans; [|exact Hx]. by apply N.neq_0_lt_0, N.pow_nonzero. }
    rewrite pretty_N_go_step by done.
    etrans; [|apply IH]; [simpl; lia|].
    apply N.div_le_lower_bound; [done|].
    rewrite <-N.pow_succ_r'. by rewrite <-Nat2N.inj_succ.
Qed.

Lemma length_pretty_N_go_le (k : nat) (x : N) s :
  (x < 10 ^ N.of_nat k)%N →
  (String.length (pretty_N_go x s) ≤ String.length s + k)%nat.
Proof.
  revert x s. induction k as [|k IH]; intros x s Hx.
  - replace x with 0%N by (simpl in Hx; lia). rewrite pretty_N_go_0. lia.
  - assert (x = 0 ∨ 0 < x)%N as [->|Hpos] by lia.
    { rewrite pretty_N_go_0. lia. }
    rewrite pretty_N_go_step by done.
    etrans; [apply IH|simpl; lia].
    apply N.Div0.div_lt_upper_bound.
    rewrite <-N.pow_succ_r'. by rewrite <-Nat2N.inj_succ.
Qed.

(** The characters [sprintf(port, "%i", portNbr)] writes, the final zero
    apart, fit in [char port[8]] exactly for the ports of at most seven
    characters. *)
Lemma length_sprintf_i portNbr :
  (String.length (Server.sprintf_i portNbr) <? 8)%nat = true
  ↔ -1000000 < portNbr < 10000000.
Proof.
  rewrite Nat.ltb_lt. unfold Server.sprintf_i, pretty, pretty_Z.
  destruct portNbr as [|q|q].
  - simpl. lia.
  - unfold pretty, pretty_positive, pretty, pretty_N.
    rewrite decide_False by done. split.
    + intros Hlen. split; [lia|].
      destruct (Z.lt_ge_cases (Z.pos q) 10000000) as [|Hge]; [done|].
      pose proof (length_pretty_N_go_ge 7 (N.pos q) "") as Hdigits.
      simpl in Hdigits. lia.
    + intros [_ Hlt].
      pose proof (length_pretty_N_go_le 7 (N.pos q) "") as Hdigits.
      simpl in Hdigits. lia.
  - unfold pretty, pretty_positive, pretty, pretty_N.
    rewrite decide_False by done.
    change (String.length ("-" +:+ pretty_N_go (N.pos q) ""))
      with (S (String.length (pretty_N_go (N.pos q) ""))).
    split.
    + intros Hlen. split; [|lia].
      destruct (Z.lt_ge_cases (-1000000) (Z.neg q)) as [|Hge]; [done|].
      pose proof (length_pretty_N_go_ge 6 (N.pos q) "") as Hdigits.
      simpl in Hdigits. lia.
    + intros [Hlt _].
      pose proof (length_pretty_N_go_le 6 (N.pos q) "") as Hdigits.
      simpl in Hdigits. lia.
Qed.

Section port.
Context `{Platform}.

(** X27: the port of a connect request is written in decimal to a buffer of
    eight characters before it is looked at.  A port of eight characters or
    more, [10000000] and above or [-1000000] and below, overruns the
    buffer; with any other integer port and a string as the address the
    handler returns, with 0 or with 1. *)
Theorem oscHandlerConnect_port theApp devices message portNbr :
  message !! 1%nat = Some (IntValue portNbr) →
  (portNbr ≤ -1000000 ∨ 10000000 ≤ portNbr →
   oscHandlerConnect theApp devices message = Crashed) ∧
  (-1000000 < portNbr < 10000000 →
   ∀ hostName, message !! 0%nat = Some (StringValue hostName) →
     ∃ ret theApp' effects,
       oscHandlerConnect theApp devices message
       = Returned ret theApp' effects ∧ (ret = 0 ∨ ret = 1)).
Proof.
  intros Hport. unfold oscHandlerConnect. rewrite Hport. simpl. split.
  - intros Hrange.
    destruct (String.length (sprintf_i portNbr) <? 8)%nat eqn:Hlen; [|done].
    apply length_sprintf_i in Hlen. lia.
  - intros Hrange hostName Hhost.
    rewrite (proj2 (length_sprintf_i portNbr) Hrange), Hhost. simpl.
    repeat (case_match; try done); eauto 6.
Qed.

End port.

Lemma oscHandlerConnect_port_witness :
  oscHandlerConnect demoApp (λ _, true)
    [StringValue "10.0.0.1"; IntValue 123456789; StringValue "Demo";
     StringValue "Camera"; IntValue 0]
  = Crashed.
Proof.
  apply (oscHandlerConnect_port demoApp (λ _, true) _ 123456789);
    [reflexivity|lia].
Defined.

(** **** Disconnect: the failures, and a request sent twice *)

Section disconnect_cases.
Context `{Platform}.

(** X13: a disconnect request that fails leaves the application as it was.
    Either liblo rejects the address made of the first value and port 9000,
    and nothing is sent; or the request has more than two values, and the
    caller is sent ["Wrong number of arguments"]. *)
Theorem oscHandlerDisconnect_failure theApp message ret theApp' effects :
  oscHandlerDisconnect theApp message = Returned ret theApp' effects →
  ret ≠ 0 →
  ret = 1 ∧ theApp' = theApp ∧
  ∃ ip, message !! 0%nat = Some (StringValue ip) ∧
        ((lo_address_errno (callerOf ip) ≠ 0 ∧ effects = []) ∨
         (lo_address_errno (callerOf ip) = 0 ∧
          (3 ≤ length message)%nat ∧
          effects = [sendString (callerOf ip) "/blobserver/disconnect"
                       "Wrong number of arguments"])).
Proof.
  unfold oscHandlerDisconnect. intros Hrun Hret.
  destruct (message !! 0%nat ≫= toString) as [ip|] eqn:Hip; [|done].
  apply bind_toString in Hip. fold (callerOf ip) in Hrun.
  destruct (Z.eqb_spec (lo_address_errno (callerOf ip)) 0) as [Herrno|Herrno];
    simpl in Hrun.
  2: { injection Hrun as <- <- <-. repeat split. exists ip. split; [done|].
       left. by split. }
  apply lookup_lt_Some in Hip as Hlen.
  destruct (Nat.eqb_spec (length message) 1) as [H1|H1]; simpl in Hrun.
  { by injection Hrun as <- <- <-. }
  destruct (Nat.eqb_spec (length message) 2) as [H2|H2]; simpl in Hrun.
  { destruct (message !! 1%nat ≫= toInt); [|done].
    by injection Hrun as <- <- <-. }
  injection Hrun as <- <- <-. repeat split. exists ip. split; [done|].
  right. repeat split; [done|lia].
Qed.

Lemma eraseFlows_twice url all detectorId flows :
  eraseFlows url all detectorId (eraseFlows url all detectorId flows).1
  = ((eraseFlows url all detectorId flows).1, []).
Proof.
  induction flows as [|flow flows IH]; [done|].
  simpl. destruct (bool_decide _) eqn:Hurl.
  - destruct (all || _) eqn:Hid; simpl; [done|].
    by rewrite Hurl, Hid, IH.
  - simpl. by rewrite Hurl, IH.
Qed.

(** X14: a disconnect request is idempotent.  Sent again after it has
    succeeded, it removes no flow and sends no message. *)
Theorem oscHandlerDisconnect_twice theApp message theApp' effects :
  oscHandlerDisconnect theApp message = Returned 0 theApp' effects →
  oscHandlerDisconnect theApp' message = Returned 0 theApp' [].
Proof.
  unfold oscHandlerDisconnect. intros Hrun.
  destruct (message !! 0%nat ≫= toString) as [ip|]; [|done].
  destruct (negb _); [done|].
  destruct (negb _ && negb _); [done|].
  destruct (if (length message =? 1)%nat then _ else _)
    as [[all detectorId]|]; [|done].
  injection Hrun as <- <-. simpl. by rewrite eraseFlows_twice.
Qed.

End disconnect_cases.

Lemma oscHandlerDisconnect_failure_witness :
  oscHandlerDisconnect demoApp
    [StringValue "10.0.0.1"; IntValue 1; IntValue 2]
  = Returned 1 demoApp
      [sendString demoClient "/blobserver/disconnect"
         "Wrong number of arguments"].
Proof.
  destruct (oscHandlerDisconnect demoApp
              [StringValue "10.0.0.1"; IntValue 1; IntValue 2])
    as [ret theApp' effects|] eqn:Hrun; [|by vm_compute in Hrun].
  destruct (oscHandlerDisconnect_failure demoApp _ ret theApp' effects Hrun)
    as (-> & -> & ip & Hip & [[Herrno _]|(_ & _ & ->)]).
  - vm_compute in Hrun. by injection Hrun as <-.
  - done.
  - injection Hip as <-. done.
Defined.

Lemma oscHandlerDisconnect_twice_witness :
  oscHandlerDisconnect
    {| mSources := [0%nat]; mFlows := []; mCurrentId := 1;
       mHeap := mHeap demoApp |}
    (disconnectMessage "10.0.0.1" (Some 1))
  = Returned 0
      {| mSources := [0%nat]; mFlows := []; mCurrentId := 1;
         mHeap := mHeap demoApp |} [].
Proof.
  exact (oscHandlerDisconnect_twice demoApp
           (disconnectMessage "10.0.0.1" (Some 1)) _ _ demo_disconnect).
Defined.

(** **** Set-parameter: a flow that is not there, a source that is not
    there, and who may ask *)

Section parameters.
Context `{Platform}.

Lemma flowsOf_cons flowId flow flows :
  flowsOf flowId (flow :: flows)
  = if id flow =? flowId then flow :: flowsOf flowId flows
    else flowsOf flowId flows.
Proof.
  unfold flowsOf. rewrite filter_cons.
  destruct (Z.eqb_spec (id flow) flowId).
  - by rewrite decide_True.
  - by rewrite decide_False.
Qed.

Lemma setParameterFlows_unknown message flowId flows heap result :
  flowsOf flowId flows = [] →
  setParameterFlows message flowId flows heap result
  = Some (flows, heap, result, []).
Proof.
  induction flows as [|flow flows IH]; [done|].
  rewrite flowsOf_cons. simpl.
  destruct (id flow =? flowId); [done|]. intros Hnone.
  by rewrite IH.
Qed.

Lemma App_eta (a : App) :
  {| mSources := mSources a; mFlows := mFlows a;
     mCurrentId := mCurrentId a; mHeap := mHeap a |} = a.
Proof. by destruct a. Qed.

(** X15: a set-parameter request for a flow id that no flow has changes
    nothing and sends nothing, and the handler returns 0, whatever the
    request asks for. *)
Theorem oscHandlerSetParameter_unknown theApp message ip flowArg :
  message !! 0%nat = Some (StringValue ip) →
  message !! 1%nat = Some (IntValue flowArg) →
  (3 ≤ length message)%nat →
  lo_address_errno (callerOf ip) = 0 →
  flowsOf (Int.to_unsigned flowArg) (mFlows theApp) = [] →
  oscHandlerSetParameter theApp message = Returned 0 theApp [].
Proof.
  intros Hip Harg Hlen Herrno Hnone. unfold oscHandlerSetParameter.
  rewrite Hip, Harg. simpl. fold (callerOf ip). rewrite Herrno. simpl.
  destruct (Nat.ltb_spec (length message) 3); [lia|].
  rewrite setParameterFlows_unknown by done. by rewrite App_eta.
Qed.

Lemma setParameterFlows_wrong_index message flowId srcNbr flows heap result :
  message !! 2%nat = Some (StringValue "Source") →
  message !! 3%nat = Some (IntValue srcNbr) →
  (6 ≤ length message)%nat →
  (∀ flow, flow ∈ flowsOf flowId flows →
           srcNbr < 0 ∨ Z.of_nat (length (sources flow)) ≤ srcNbr) →
  setParameterFlows message flowId flows heap result
  = Some (flows, heap,
          if decide (flowsOf flowId flows = []) then result else 1,
          (λ flow, sendString (client flow) "/blobserver/setParameter"
                     "Wrong source index") <$> flowsOf flowId flows).
Proof.
  intros Htarget Hnbr Hlen. revert result.
  induction flows as [|flow flows IH]; intros result Hrange; [done|].
  rewrite flowsOf_cons in *. simpl.
  destruct (id flow =? flowId).
  - unfold setParameterFlow. rewrite Htarget, Hnbr. simpl.
    destruct (Nat.ltb_spec (length message) 6); [lia|].
    assert ((srcNbr <? 0) || (Z.of_nat (length (sources flow)) <=? srcNbr)
            = true) as ->.
    { destruct (Hrange flow) as [?|?]; [by left|..].
      - apply orb_true_iff. left. by apply Z.ltb_lt.
      - apply orb_true_iff. right. by apply Z.leb_le. }
    simpl. rewrite IH by (intros flow' ?; apply Hrange; by right).
    simpl. by case_decide.
  - by rewrite IH.
Qed.

(** X16: a set-parameter request for a source whose index is negative or
    not below the number of sources of the flow changes nothing: the client
    of each flow of that id is sent ["Wrong source index"] and the handler
    returns 1. *)
Theorem oscHandlerSetParameter_wrong_index theApp message ip flowArg srcNbr :
  message !! 0%nat = Some (StringValue ip) →
  message !! 1%nat = Some (IntValue flowArg) →
  message !! 2%nat = Some (StringValue "Source") →
  message !! 3%nat = Some (IntValue srcNbr) →
  (6 ≤ length message)%nat →
  lo_address_errno (callerOf ip) = 0 →
  flowsOf (Int.to_unsigned flowArg) (mFlows theApp) ≠ [] →
  (∀ flow, flow ∈ flowsOf (Int.to_unsigned flowArg) (mFlows theApp) →
           srcNbr < 0 ∨ Z.of_nat (length (sources flow)) ≤ srcNbr) →
  oscHandlerSetParameter theApp message
  = Returned 1 theApp
      ((λ flow, sendString (client flow) "/blobserver/setParameter"
                  "Wrong source index")
         <$> flowsOf (Int.to_unsigned flowArg) (mFlows theApp)).
Proof.
  intros Hip Harg Htarget Hnbr Hlen Herrno Hsome Hrange.
  unfold oscHandlerSetParameter.
  rewrite Hip, Harg. simpl. fold (callerOf ip). rewrite Herrno. simpl.
  destruct (Nat.ltb_spec (length message) 3); [lia|].
  rewrite (setParameterFlows_wrong_index _ _ srcNbr) by done.
  rewrite decide_False by done. by rewrite App_eta.
Qed.

Lemma setParameterFlows_caller a a' rest flowId flows heap result :
  setParameterFlows (a :: rest) flowId flows heap result
  = setParameterFlows (a' :: rest) flowId flows heap result.
Proof.
  revert heap result. induction flows as [|flow flows IH];
    intros heap result; [done|].
  simpl. destruct (id flow =? flowId); [|by rewrite IH].
  change (setParameterFlow (a :: rest) flow heap result)
    with (setParameterFlow (a' :: rest) flow heap result).
  destruct (setParameterFlow (a' :: rest) flow heap result)
    as [[[[flow1 heap1] result1] sent1]|]; [|done].
  simpl. by rewrite IH.
Qed.

(** X17: the handler does not check who asks.  A set-parameter request of
    at least three values has the same outcome whatever address it gives as
    the caller, provided liblo accepts it: any caller may start, stop or
    configure any flow. *)
Theorem oscHandlerSetParameter_any_caller theApp ip ip' rest :
  (2 ≤ length rest)%nat →
  lo_address_errno (callerOf ip) = 0 →
  lo_address_errno (callerOf ip') = 0 →
  oscHandlerSetParameter theApp (StringValue ip :: rest)
  = oscHandlerSetParameter theApp (StringValue ip' :: rest).
Proof.
  intros Hlen Herrno Herrno'. unfold oscHandlerSetParameter. simpl.
  fold (callerOf ip) (callerOf ip'). rewrite Herrno, Herrno'. simpl.
  destruct (Nat.ltb_spec (S (length rest)) 3); [lia|].
  destruct (rest !! 0%nat ≫= toInt) as [flowArg|]; [|done].
  by rewrite (setParameterFlows_caller (StringValue ip) (StringValue ip')).
Qed.

Lemma setRunOf_twice flowId b b' flows :
  setRunOf flowId b' (setRunOf flowId b flows) = setRunOf flowId b' flows.
Proof.
  unfold setRunOf. rewrite <-list_fmap_compose.
  apply list_fmap_ext. intros _ flow _. simpl.
  destruct (Z.eqb_spec (id flow) flowId) as [Hid|Hid]; simpl.
  - by rewrite <-Z.eqb_eq in Hid; rewrite Hid.
  - by rewrite <-Z.eqb_neq in Hid; rewrite Hid.
Qed.

(** X18: of two requests to start or stop the flows of one id the last one
    wins: after a first one, a second one leaves the application as it
    would have without the first; so ["Start"] and ["Stop"] are
    idempotent and undo each other. *)
Theorem oscHandlerSetParameter_last_wins theApp ip flowArg b b' ret theApp1
  effects :
  lo_address_errno (callerOf ip) = 0 →
  oscHandlerSetParameter theApp (runMessage ip flowArg b)
  = Returned ret theApp1 effects →
  oscHandlerSetParameter theApp1 (runMessage ip flowArg b')
  = oscHandlerSetParameter theApp (runMessage ip flowArg b').
Proof.
  intros Herrno. rewrite !oscHandlerSetParameter_run by done.
  intros [= <- <- <-]. simpl. by rewrite setRunOf_twice.
Qed.

End parameters.

Lemma oscHandlerSetParameter_unknown_witness :
  oscHandlerSetParameter demoApp
    [StringValue "10.0.0.1"; IntValue 7; StringValue "Start"]
  = Returned 0 demoApp [].
Proof.
  apply (oscHandlerSetParameter_unknown demoApp _ "10.0.0.1" 7);
    try reflexivity; simpl; lia.
Defined.

Lemma oscHandlerSetParameter_wrong_index_witness :
  oscHandlerSetParameter demoApp
    [StringValue "10.0.0.1"; IntValue 1; StringValue "Source";
     IntValue (-1); StringValue "exposure"; IntValue 3]
  = Returned 1 demoApp
      [sendString demoClient "/blobserver/setParameter"
         "Wrong source index"].
Proof.
  apply (oscHandlerSetParameter_wrong_index demoApp _ "10.0.0.1" 1 (-1));
    try reflexivity.
  - by vm_compute.
  - intros flow _. left. lia.
Defined.

Lemma oscHandlerSetParameter_any_caller_witness :
  oscHandlerSetParameter demoApp
    [StringValue "10.0.0.1"; IntValue 1; StringValue "Start"]
  = oscHandlerSetParameter demoApp
      [StringValue "192.168.0.9"; IntValue 1; StringValue "Start"].
Proof.
  apply (oscHandlerSetParameter_any_caller demoApp "10.0.0.1" "192.168.0.9");
    try reflexivity; simpl; lia.
Defined.

Lemma oscHandlerSetParameter_last_wins_witness :
  oscHandlerSetParameter
    {| mSources := [0%nat]; mFlows := [demoFlow true]; mCurrentId := 1;
       mHeap := mHeap demoApp |}
    (runMessage "10.0.0.1" 1 false)
  = oscHandlerSetParameter demoApp (runMessage "10.0.0.1" 1 false).
Proof.
  apply (oscHandlerSetParameter_last_wins demoApp "10.0.0.1" 1 true false 0
           _ []); reflexivity.
Defined.

(** **** The main loop: reports that are too short, and frame numbers *)

Section reports.
Context `{Platform}.

Lemma blobMessages_in_range message nbr size blobs :
  0 < nbr → 0 < size → 1 + nbr * size < Int.half_modulus →
  blobMessages message nbr size = Some blobs →
  2 + nbr * size ≤ Z.of_nat (length message).
Proof.
  intros Hnbr Hsize Hmax Hrun. unfold blobMessages in Hrun.
  assert (is_Some (blobMessage message size (nbr - 1))) as [blob Hblob].
  { pose proof (mapM_is_Some_1 _ _ (mk_is_Some _ _ Hrun)) as Hall.
    rewrite Forall_forall in Hall. apply (Hall (nbr - 1)).
    apply elem_of_seqZ. lia. }
  unfold blobMessage in Hblob.
  assert (is_Some (messageAt message
                     (Int.to_signed ((nbr - 1) * size + 2 + (size - 1)))))
    as [v Hv].
  { pose proof (mapM_is_Some_1 _ _ (mk_is_Some _ _ Hblob)) as Hall.
    rewrite Forall_forall in Hall. apply (Hall (size - 1)).
    apply elem_of_seqZ. lia. }
  rewrite IntFacts.to_signed_id in Hv by (unfold Int.in_int, Int.half_modulus in *; nia).
  unfold messageAt in Hv.
  destruct (Z.ltb_spec ((nbr - 1) * size + 2 + (size - 1)) 0); [done|].
  apply lookup_lt_Some in Hv. nia.
Qed.

(** X19: the loop does not check the report of the detector against its
    length.  When the report of a running flow announces [nbr > 0] blobs of
    [size > 0] values and holds fewer than [2 + nbr * size] values, the
    repacking reads [message[i * size + 2 + j]] past its end. *)
Theorem frameFlow_short_report_read frameNbr captures flow nbr size :
  let detected :=
    Detector_detect (detector flow) (captures <$> sources flow) in
  run flow = true →
  detected.1 !! 0%nat = Some (IntValue nbr) →
  detected.1 !! 1%nat = Some (IntValue size) →
  0 < nbr → 0 < size → 1 + nbr * size < Int.half_modulus →
  Z.of_nat (length detected.1) < 2 + nbr * size →
  frameFlow frameNbr captures flow = None.
Proof.
  intros detected Hrun H0 H1 Hnbr Hsize Hmax Hshort.
  unfold frameFlow. rewrite Hrun. simpl. fold detected.
  rewrite H0, H1. simpl.
  destruct (blobMessages detected.1 nbr size) as [blobs|] eqn:Hblobs;
    [|done].
  pose proof (blobMessages_in_range _ _ _ _ Hnbr Hsize Hmax Hblobs). lia.
Qed.

Lemma iterations_nonneg requests : 0 ≤ iterations requests.
Proof.
  induction requests as [|[] requests IH]; simpl; lia.
Qed.

Lemma ofOutcome_frameNbr n o s' effects :
  ofOutcome n o = Some (s', effects) → frameNbr s' = n.
Proof. destruct o; [|done]. by intros [= <- <-]. Qed.

Lemma handleAll_frameNbr s requests s' effects :
  0 ≤ frameNbr s →
  frameNbr s + iterations requests < Int.half_modulus →
  handleAll s requests = Some (s', effects) →
  frameNbr s' = frameNbr s + iterations requests.
Proof.
  revert s effects. induction requests as [|r requests IH];
    intros s effects Hn Hmax; simpl.
  { intros [= <- <-]. lia. }
  destruct (handle s r) as [[s1 effects1]|] eqn:Hstep; [|done]. simpl.
  destruct (handleAll s1 requests) as [[s2 effects2]|] eqn:Hrest; [|done].
  simpl. intros [= <- <-].
  pose proof (iterations_nonneg requests) as Hpos.
  destruct r as [devices message|message|message|captures];
    simpl in Hstep, Hmax.
  - apply ofOutcome_frameNbr in Hstep. rewrite <-Hstep in *.
    by apply (IH s1 effects2).
  - apply ofOutcome_frameNbr in Hstep. rewrite <-Hstep in *.
    by apply (IH s1 effects2).
  - apply ofOutcome_frameNbr in Hstep. rewrite <-Hstep in *.
    by apply (IH s1 effects2).
  - destruct (frameFlows _ _ _) as [[flows sent]|]; [|done].
    injection Hstep as <- <-.
    assert (Int.to_signed (frameNbr s + 1) = frameNbr s + 1) as Hnext
      by (apply IntFacts.to_signed_id;
          unfold Int.in_int, Int.half_modulus in *; lia).
    apply IH in Hrest; simpl; rewrite ?Hnext; [|lia..].
    simpl in Hrest. rewrite Hnext in Hrest. lia.
Qed.

(** X20: the frame number counts the iterations of the main loop, whatever
    requests are handled in between.  In a run from the start of the server
    the markers an iteration sends for a running flow carry the number of
    iterations made before it, the first one 0. *)
Theorem frame_numbers before s effects0 captures s' effects flow :
  handleAll initialSys before = Some (s, effects0) →
  iterations before < Int.half_modulus →
  handle s (LoopIteration captures) = Some (s', effects) →
  flow ∈ mFlows (theApp s) → run flow = true →
  frameNbr s = iterations before ∧
  startFrame (iterations before) flow ∈ effects ∧
  endFrame (iterations before) flow ∈ effects.
Proof.
  intros Hbefore Hmax Hstep Hflow Hrun.
  assert (frameNbr s = iterations before) as Hn.
  { by rewrite (handleAll_frameNbr initialSys before s effects0). }
  split; [done|]. rewrite <-Hn.
  simpl in Hstep.
  destruct (frameFlows _ _ _) as [[flows sent]|] eqn:Hflows; [|done].
  injection Hstep as <- <-.
  destruct (frameFlows_inv _ _ _ _ _ Hflows) as (_ & _ & Hmarkers).
  by apply Hmarkers.
Qed.

End reports.

Lemma frameFlow_short_report_read_witness :
  frameFlow 7 (λ _, noImage)
    {| detector := ([IntValue 1; IntValue 3; IntValue 10] : Message);
       sources := [0%nat]; client := demoClient;
       shm := "/tmp/blobserver_output_1"; id := 1; run := true |}
  = None.
Proof.
  by apply (frameFlow_short_report_read _ _ _ 1 3).
Defined.

Lemma frame_numbers_witness :
  ∃ s' effects,
    handle {| theApp := {| mSources := [0%nat]; mFlows := [demoFlow true];
                           mCurrentId := 1; mHeap := mHeap demoApp |};
              frameNbr := 1 |}
      (LoopIteration (λ _, noImage)) = Some (s', effects) ∧
    startFrame 1 (demoFlow true) ∈ effects.
Proof.
  assert (∃ s' effects,
            handle {| theApp := {| mSources := [0%nat];
                                   mFlows := [demoFlow true];
                                   mCurrentId := 1;
                                   mHeap := mHeap demoApp |};
                      frameNbr := 1 |}
              (LoopIteration (λ _, noImage)) = Some (s', effects))
    as (s' & effects & Hstep) by (by vm_compute; eexists _, _).
  exists s', effects. split; [exact Hstep|].
  destruct (frame_numbers
              [Connect (λ _, true) demoConnect;
               LoopIteration (λ _, noImage);
               SetParameter (runMessage "10.0.0.1" 1 true)]
              {| theApp := {| mSources := [0%nat];
                              mFlows := [demoFlow true];
                              mCurrentId := 1;
                              mHeap := mHeap demoApp |};
                 frameNbr := 1 |}
              [ShmOpen "/tmp/blobserver_output_1";
               Reply {| dest := demoClient; path := "/blobserver/connect";
                        args := [StringValue "Connected"; IntValue 1] |}]
              (λ _, noImage) s' effects (demoFlow true))
    as (_ & Hstart & _); try done.
  simpl. by left.
Defined.

(** **** What a flow keeps, and what tells the live flows apart *)

Section identity.
Context `{Platform}.

Lemma keeps_refl flow : keeps flow flow.
Proof. done. Qed.

Lemma survive_sublist flows flows' :
  flows' `sublist_of` flows → survive flows flows'.
Proof.
  intros Hsub. exists flows'. split; [done|].
  apply Forall_Forall2_diag, Forall_forall. intros flow _. apply keeps_refl.
Qed.

Lemma survive_Forall2 flows flows' :
  Forall2 keeps flows flows' → survive flows flows'.
Proof. intros Hkeeps. by exists flows. Qed.

Lemma survive_elem_of flows flows' flow' :
  survive flows flows' → flow' ∈ flows' →
  ∃ flow, flow ∈ flows ∧ keeps flow flow'.
Proof.
  intros (kept & Hsub & Hkeeps) [i Hi]%list_elem_of_lookup.
  destruct (Forall2_lookup_r _ _ _ _ _ Hkeeps Hi) as (flow & Hflow & Hk).
  exists flow. split; [|done].
  eapply elem_of_sublist; [|done]. by eapply list_elem_of_lookup_2.
Qed.

Lemma survive_ids flows flows' :
  survive flows flows' → id <$> flows' `sublist_of` id <$> flows.
Proof.
  intros (kept & Hsub & Hkeeps).
  replace (id <$> flows') with (id <$> kept); [by apply fmap_sublist|].
  clear Hsub. induction Hkeeps as [|flow flow' kept' flows'' (Hid & _) _ IH]; [done|].
  by rewrite !fmap_cons, Hid, IH.
Qed.

Lemma setParameterFlow_keeps message flow heap result flow' heap' result'
  sent :
  setParameterFlow message flow heap result
  = Some (flow', heap', result', sent) →
  keeps flow flow'.
Proof.
  unfold setParameterFlow. intros Hrun.
  destruct (message !! 2%nat ≫= toString) as [target|]; [|done].
  simpl in Hrun.
  repeat (case_match; simplify_option_eq; try done).
Qed.

Lemma setParameterFlows_keeps message flowId flows heap result
  flows' heap' result' sent :
  setParameterFlows message flowId flows heap result
  = Some (flows', heap', result', sent) →
  Forall2 keeps flows flows'.
Proof.
  revert heap result flows' heap' result' sent.
  induction flows as [|flow flows IH];
    intros heap result flows' heap' result' sent; simpl.
  { intros [= <- <- <- <-]. constructor. }
  destruct (id flow =? flowId).
  - destruct (setParameterFlow message flow heap result)
      as [[[[flow1 heap1] result1] sent1]|] eqn:Hflow; [|done].
    simpl.
    destruct (setParameterFlows message flowId flows heap1 result1)
      as [[[[rest2 heap2] result2] sent2]|] eqn:Hrest; [|done].
    simpl. intros [= <- <- <- <-]. constructor.
    + by eapply setParameterFlow_keeps.
    + by eapply IH.
  - destruct (setParameterFlows message flowId flows heap result)
      as [[[[rest2 heap2] result2] sent2]|] eqn:Hrest; [|done].
    simpl. intros [= <- <- <- <-]. constructor; [done|]. by eapply IH.
Qed.

Lemma frameFlows_keeps frameNbr captures flows flows' sent :
  frameFlows frameNbr captures flows = Some (flows', sent) →
  Forall2 keeps flows flows'.
Proof.
  revert flows' sent. induction flows as [|flow flows IH];
    intros flows' sent; simpl.
  { intros [= <- <-]. constructor. }
  destruct (frameFlow frameNbr captures flow) as [[flow1 sent1]|] eqn:Hflow;
    [|done].
  simpl. destruct (frameFlows frameNbr captures flows)
    as [[rest2 sent2]|] eqn:Hrest; [|done].
  simpl. intros [= <- <-]. constructor; [|by eapply IH].
  unfold frameFlow in Hflow. destruct (negb (run flow)).
  { by injection Hflow as <- <-. }
  simplify_option_eq. done.
Qed.

Lemma oscHandlerConnect_born theApp devices message theApp' effects :
  oscHandlerConnect theApp devices message = Returned 0 theApp' effects →
  ∃ flow, mFlows theApp' = mFlows theApp ++ [flow] ∧
          id flow = getValidId theApp ∧ shm flow = shmOf (id flow) ∧
          mCurrentId theApp' = getValidId theApp ∧
          connectedIds effects = [Int.to_signed (getValidId theApp)].
Proof.
  unfold oscHandlerConnect. intros Hrun.
  repeat (case_match; try done).
  injection Hrun as <- <-. eexists. simpl. by repeat split.
Qed.

(** What one request, or one iteration of the loop, does to the flows. *)
Lemma handle_flows s r s' effects :
  handle s r = Some (s', effects) →
  (connectedIds effects = [] ∧
   mCurrentId (theApp s') = mCurrentId (theApp s) ∧
   survive (mFlows (theApp s)) (mFlows (theApp s'))) ∨
  (∃ devices message flow,
     r = Connect devices message ∧
     mFlows (theApp s') = mFlows (theApp s) ++ [flow] ∧
     id flow = getValidId (theApp s) ∧ shm flow = shmOf (id flow) ∧
     mCurrentId (theApp s') = getValidId (theApp s) ∧
     connectedIds effects = [Int.to_signed (getValidId (theApp s))]).
Proof.
  destruct r as [devices message|message|message|captures]; simpl.
  - destruct (oscHandlerConnect (theApp s) devices message)
      as [ret theApp' effects'|] eqn:Hrun; [|done].
    intros [= <- <-]. simpl.
    destruct (oscHandlerConnect_inv _ _ _ _ _ _ Hrun)
      as [(_ & -> & Htext)|(-> & _)].
    + left. split; [by apply connectedIds_text|]. split; [done|].
      by apply survive_sublist.
    + right. destruct (oscHandlerConnect_born _ _ _ _ _ Hrun)
        as (flow & ? & ? & ? & ? & ?).
      by exists devices, message, flow.
  - destruct (oscHandlerDisconnect (theApp s) message)
      as [ret theApp' effects'|] eqn:Hrun; [|done].
    intros [= <- <-]. simpl.
    destruct (oscHandlerDisconnect_inv _ _ _ _ _ Hrun)
      as (Hsub & Hid & Htext).
    left. split; [by apply connectedIds_text|]. split; [done|].
    by apply survive_sublist.
  - destruct (oscHandlerSetParameter (theApp s) message)
      as [ret theApp' effects'|] eqn:Hrun; [|done].
    intros [= <- <-]. simpl.
    destruct (oscHandlerSetParameter_inv _ _ _ _ _ Hrun)
      as (Hid & Htext & _).
    left. split; [by apply connectedIds_text|]. split; [done|].
    unfold oscHandlerSetParameter in Hrun.
    repeat (case_match; try done); simplify_eq; simpl;
      try (by apply survive_sublist).
    apply survive_Forall2. by eapply setParameterFlows_keeps.
  - destruct (frameFlows (frameNbr s) captures (mFlows (theApp s)))
      as [[flows sent]|] eqn:Hflows; [|done].
    simpl. intros [= <- <-]. simpl. left.
    split; [|split; [done|]].
    + destruct (frameFlows_inv _ _ _ _ _ Hflows) as (_ & Hloop & _).
      unfold connectedIds. clear Hflows.
      induction sent as [|e sent IH]; [done|]. simpl.
      destruct (Hloop e) as (flow & _ & _ & He); [by left|].
      rewrite (loopFlow_connectedId _ _ He). apply IH.
      intros e' He'. apply Hloop. by right.
    + apply survive_Forall2. by eapply frameFlows_keeps.
Qed.

(** X21: a flow keeps its id, its client, its sources and its shared-memory
    path for as long as it lives, and the flows keep their order.  After
    any request and any iteration of the loop the flows are flows that were
    there before, in their order, with these four unchanged, followed by
    the new flow when the request is a connect that succeeded. *)
Theorem handle_keeps s r s' effects :
  handle s r = Some (s', effects) →
  ∃ survivors born,
    mFlows (theApp s') = survivors ++ born ∧
    survive (mFlows (theApp s)) survivors ∧
    (born = [] ∨
     ∃ devices message flow,
       r = Connect devices message ∧ born = [flow] ∧
       survivors = mFlows (theApp s) ∧ run flow = false).
Proof.
  intros Hstep.
  destruct (handle_flows _ _ _ _ Hstep)
    as [(_ & _ & Hsurvive)|
        (devices & message & flow & -> & Hflows & _)].
  - exists (mFlows (theApp s')), []. rewrite app_nil_r.
    split; [done|]. split; [done|]. by left.
  - exists (mFlows (theApp s)), [flow]. split; [done|].
    split; [by apply survive_sublist|]. right.
    exists devices, message, flow. repeat split.
    simpl in Hstep.
    destruct (oscHandlerConnect (theApp s) devices message)
      as [ret theApp' effects'|] eqn:Hrun; [|done].
    injection Hstep as <- <-. simpl in Hflows.
    destruct (oscHandlerConnect_inv _ _ _ _ _ _ Hrun)
      as [(_ & -> & _)|(_ & flow0 & _ & _ & Hflows0 & _ & Hrun0 & _)].
    + apply (f_equal length) in Hflows. rewrite length_app in Hflows.
      simpl in Hflows. lia.
    + rewrite Hflows in Hflows0. by apply app_inj_tail in Hflows0 as [_ ->].
Qed.

Lemma shmOf_inj a b :
  Int.in_unsigned a → Int.in_unsigned b → shmOf a = shmOf b → a = b.
Proof.
  intros Ha Hb Heq. unfold shmOf, sprintf_i in Heq.
  apply (inj (String.app _)), (inj pretty) in Heq.
  rewrite <-(IntFacts.to_unsigned_id a), <-(IntFacts.to_unsigned_id b)
    by done.
  by rewrite <-(IntFacts.to_unsigned_signed a),
    <-(IntFacts.to_unsigned_signed b), Heq.
Qed.

Lemma handleAll_distinct s requests s' effects c :
  0 ≤ c →
  mCurrentId (theApp s) = c →
  (∀ flow, flow ∈ mFlows (theApp s) →
           1 ≤ id flow ≤ c ∧ shm flow = shmOf (id flow)) →
  NoDup (id <$> mFlows (theApp s)) →
  handleAll s requests = Some (s', effects) →
  c + Z.of_nat (length (connectedIds effects)) < Int.modulus →
  mCurrentId (theApp s') = c + Z.of_nat (length (connectedIds effects)) ∧
  (∀ flow, flow ∈ mFlows (theApp s') →
           1 ≤ id flow ≤ c + Z.of_nat (length (connectedIds effects)) ∧
           shm flow = shmOf (id flow)) ∧
  NoDup (id <$> mFlows (theApp s')).
Proof.
  revert s effects c. induction requests as [|r requests IH];
    intros s effects c Hc Hcounter Hflows Hdup; simpl.
  { intros [= <- <-] _. simpl. rewrite Z.add_0_r.
    split; [done|]. by split. }
  destruct (handle s r) as [[s1 effects1]|] eqn:Hstep; [|done]. simpl.
  destruct (handleAll s1 requests) as [[s2 effects2]|] eqn:Hrest; [|done].
  simpl. intros [= <- <-]. unfold connectedIds.
  rewrite omap_app, length_app. fold (connectedIds effects1).
  fold (connectedIds effects2). intros Hmax.
  destruct (handle_flows _ _ _ _ Hstep)
    as [(Hnone & Hid & Hsurvive)|
        (devices & message & flow & _ & Hnew & Hflowid & Hshm & Hid & Hone)].
  - rewrite Hnone in *. simpl in *.
    apply (IH s1 effects2 c); try done; [congruence| |].
    + intros flow' Hflow'.
      destruct (survive_elem_of _ _ _ Hsurvive Hflow')
        as (flow & Hflow & Hi & _ & _ & Hs).
      rewrite Hi, Hs. by apply Hflows.
    + eapply sublist_NoDup; [|by apply survive_ids]. done.
  - rewrite Hone in *. simpl in *.
    assert (getValidId (theApp s) = c + 1) as Hvalid.
    { unfold getValidId. rewrite Hcounter.
      apply IntFacts.to_unsigned_id. unfold Int.in_unsigned. lia. }
    rewrite Hvalid in *.
    replace (c + Z.of_nat (S (length (connectedIds effects2))))
      with (c + 1 + Z.of_nat (length (connectedIds effects2))) by lia.
    apply (IH s1 effects2 (c + 1)); try done; [lia| | |lia].
    + intros flow'. rewrite Hnew.
      intros [Hflow'| ->%list_elem_of_singleton]%elem_of_app.
      * destruct (Hflows flow' Hflow'). split; [lia|done].
      * split; [lia|done].
    + rewrite Hnew, fmap_app. apply NoDup_app. split; [done|].
      split; [|apply NoDup_singleton].
      intros i Hi ->%list_elem_of_singleton.
      apply list_elem_of_fmap in Hi as (flow' & Hi & Hflow').
      destruct (Hflows flow' Hflow'). lia.
Qed.

(** X22: as long as fewer than [2^32] connects have succeeded since the
    start of the server, no two live flows have the same id, and no two
    have the same shared-memory path: a flow id designates one flow, and
    every flow writes to a file of its own. *)
Theorem live_flows_distinct requests s effects :
  handleAll initialSys requests = Some (s, effects) →
  Z.of_nat (length (connectedIds effects)) < Int.modulus →
  NoDup (id <$> mFlows (theApp s)) ∧
  NoDup (shm <$> mFlows (theApp s)) ∧
  ∀ flow, flow ∈ mFlows (theApp s) →
          1 ≤ id flow ≤ Z.of_nat (length (connectedIds effects)) ∧
          shm flow = shmOf (id flow).
Proof.
  intros Hrun Hmax.
  destruct (handleAll_distinct initialSys requests s effects 0)
    as (_ & Hflows & Hdup); try done.
  { by intros flow ?%elem_of_nil. }
  { apply NoDup_nil_2. }
  simpl in Hflows. split; [done|]. split; [|done].
  replace (shm <$> mFlows (theApp s))
    with (shmOf <$> (id <$> mFlows (theApp s))).
  2: { rewrite <-list_fmap_compose. apply list_fmap_ext.
       intros _ flow Hflow%list_elem_of_lookup_2. simpl.
       symmetry. by apply Hflows. }
  apply NoDup_fmap_2_strong; [|done].
  intros a b [flowa [-> Ha]]%list_elem_of_fmap
    [flowb [-> Hb]]%list_elem_of_fmap.
  apply shmOf_inj; unfold Int.in_unsigned.
  - destruct (Hflows flowa Ha). lia.
  - destruct (Hflows flowb Hb). lia.
Qed.

End identity.

Lemma handle_keeps_witness :
  ∃ survivors born,
    mFlows demoApp = survivors ++ born ∧
    survive (mFlows initialApp) survivors.
Proof.
  destruct (handle_keeps initialSys (Connect (λ _, true) demoConnect)
              {| theApp := demoApp; frameNbr := 0 |}
              [ShmOpen "/tmp/blobserver_output_1";
               Reply {| dest := demoClient; path := "/blobserver/connect";
                        args := [StringValue "Connected"; IntValue 1] |}])
    as (survivors & born & Hflows & Hsurvive & _).
  - by vm_compute.
  - by exists survivors, born.
Defined.

Lemma live_flows_distinct_witness :
  NoDup (id <$> mFlows demoApp) ∧ NoDup (shm <$> mFlows demoApp).
Proof.
  destruct (live_flows_distinct [Connect (λ _, true) demoConnect]
              {| theApp := demoApp; frameNbr := 0 |}
              [ShmOpen "/tmp/blobserver_output_1";
               Reply {| dest := demoClient; path := "/blobserver/connect";
                        args := [StringValue "Connected"; IntValue 1] |}])
    as (Hids & Hshm & _).
  - by vm_compute.
  - by vm_compute.
  - by split.
Defined.

(** **** The grabbing thread *)

Lemma filter_eq_notin (l : list nat) p :
  p ∉ l → filter (λ q, q = p) l = [].
Proof.
  induction l as [|q l IH]; [done|].
  rewrite not_elem_of_cons. intros [Hne Hl].
  rewrite filter_cons, decide_False by done. by apply IH.
Qed.

Lemma length_filter_eq_NoDup (l1 l2 : list nat) p :
  NoDup (l1 ++ p :: l2) → length (filter (λ q, q = p) (l1 ++ p :: l2)) = 1%nat.
Proof.
  intros (_ & Hl1 & [Hp _]%NoDup_cons)%NoDup_app.
  rewrite filter_app, filter_cons, decide_True by done.
  rewrite !filter_eq_notin; [done|done|].
  intros Hin. apply (Hl1 p Hin). by left.
Qed.

Lemma filter_eq_nil_notin (l : list nat) p :
  length (filter (λ q, q = p) l) = 0%nat → p ∉ l.
Proof.
  intros Hlen Hin.
  assert (p ∈ filter (λ q, q = p) l) as Hp by by apply list_elem_of_filter.
  destruct (filter (λ q, q = p) l); [by apply elem_of_nil in Hp|done].
Qed.

Section grabbing.
Context `{Queries}.

Lemma grabSources_spec flows done rest heap :
  NoDup (done ++ rest) →
  (grabSources flows done rest heap).1
  = done ++ filter (λ p, p ∈ usedSources flows) rest ∧
  ∀ q, (grabSources flows done rest heap).2 !! q
       = if decide (q ∈ rest)
         then if decide (q ∈ usedSources flows)
              then Source_grabFrame <$> heap !! q else None
         else heap !! q.
Proof.
  revert done heap. induction rest as [|p rest IH]; intros done heap Hdup.
  { simpl. rewrite app_nil_r. by split. }
  pose proof Hdup as (Hd & Hdone & [Hrest Hdup']%NoDup_cons)%NoDup_app.
  assert (p ∉ done) as Hp by (intros Hin; apply (Hdone p Hin); by left).
  simpl. unfold use_count. rewrite (length_filter_eq_NoDup _ _ _ Hdup).
  fold (usedSources flows).
  destruct (Z.eqb_spec
              (Z.of_nat 1 + 1
               + Z.of_nat (length (filter (λ q, q = p) (usedSources flows))))
              2) as [Hcount|Hcount].
  - assert (p ∉ usedSources flows) as Hunused
      by (apply filter_eq_nil_notin; lia).
    destruct (IH done (delete p (alter Source_grabFrame p heap)))
      as [Hkept Hheap].
    { apply NoDup_app. split; [done|]. split; [|done].
      intros q Hq Hq'. apply (Hdone q Hq). by right. }
    rewrite Hkept, filter_cons, decide_False by done. split; [done|].
    intros q. rewrite Hheap. destruct (decide (q = p)) as [->|Hne].
    + rewrite (decide_False (P:=p ∈ rest)) by done.
      rewrite (decide_True (P:=p ∈ p :: rest)) by by left.
      rewrite decide_False by done. apply lookup_delete_eq.
    + rewrite !lookup_delete_ne, !lookup_alter_ne by done.
      destruct (decide (q ∈ rest)) as [Hq|Hq],
        (decide (q ∈ p :: rest)) as [Hq'|Hq']; try done.
      * exfalso. apply Hq'. by right.
      * exfalso. apply elem_of_cons in Hq' as [->|?]; done.
  - assert (p ∈ usedSources flows) as Hused.
    { destruct (decide (p ∈ usedSources flows)) as [|Hnot]; [done|].
      rewrite (filter_eq_notin _ _ Hnot) in Hcount. simpl in Hcount. lia. }
    destruct (IH (done ++ [p]) (alter Source_grabFrame p heap))
      as [Hkept Hheap].
    { by rewrite <-app_assoc. }
    rewrite Hkept, filter_cons, decide_True, <-app_assoc by done.
    split; [done|].
    intros q. rewrite Hheap. destruct (decide (q = p)) as [->|Hne].
    + rewrite (decide_False (P:=p ∈ rest)) by done.
      rewrite (decide_True (P:=p ∈ p :: rest)) by by left.
      rewrite decide_True by done. apply lookup_alter_eq.
    + rewrite !lookup_alter_ne by done.
      destruct (decide (q ∈ rest)) as [Hq|Hq],
        (decide (q ∈ p :: rest)) as [Hq'|Hq']; try done.
      * exfalso. apply Hq'. by right.
      * exfalso. apply elem_of_cons in Hq' as [->|?]; done.
Qed.

(** X23: a pass of the grabbing thread releases exactly the sources that no
    flow points to.  The registered sources being distinct objects, after a
    pass [mSources] holds the sources that some flow uses, in their order;
    each of them was grabbed once; the object of a released one is gone;
    the flows, the counter and the other objects are left as they are. *)
Theorem updateSources_releases theApp :
  NoDup (mSources theApp) →
  mSources (updateSources theApp)
  = filter (λ p, p ∈ usedSources (mFlows theApp)) (mSources theApp) ∧
  mFlows (updateSources theApp) = mFlows theApp ∧
  mCurrentId (updateSources theApp) = mCurrentId theApp ∧
  (∀ p, p ∈ mSources (updateSources theApp) ↔
        p ∈ mSources theApp ∧
        ∃ flow, flow ∈ mFlows theApp ∧ p ∈ sources flow) ∧
  ∀ p, mHeap (updateSources theApp) !! p
       = if decide (p ∈ mSources theApp)
         then if decide (p ∈ usedSources (mFlows theApp))
              then Source_grabFrame <$> mHeap theApp !! p else None
         else mHeap theApp !! p.
Proof.
  intros Hdup.
  destruct (grabSources_spec (mFlows theApp) [] (mSources theApp)
              (mHeap theApp) Hdup) as [Hkept Hheap].
  unfold updateSources. simpl. rewrite Hkept. simpl.
  do 3 (split; [done|]). split; [|done].
  intros p. rewrite list_elem_of_filter. unfold usedSources.
  rewrite list_elem_of_join. split.
  - intros [(l & Hp & (flow & -> & Hflow)%list_elem_of_fmap) Hin].
    split; [done|]. by exists flow.
  - intros [Hin (flow & Hflow & Hp)]. split; [|done].
    exists (sources flow). split; [done|]. by apply list_elem_of_fmap_2.
Qed.

End grabbing.

Lemma updateSources_releases_witness :
  mSources (updateSources demoApp) = [0%nat] ∧
  mSources (updateSources
              {| mSources := [0%nat]; mFlows := []; mCurrentId := 1;
                 mHeap := mHeap demoApp |}) = [].
Proof.
  split.
  - destruct (updateSources_releases demoApp) as (-> & _).
    + apply NoDup_singleton.
    + by vm_compute.
  - destruct (updateSources_releases
                {| mSources := [0%nat]; mFlows := []; mCurrentId := 1;
                   mHeap := mHeap demoApp |}) as (-> & _).
    + apply NoDup_singleton.
    + by vm_compute.
Defined.

(** **** Get-parameter *)

Section getting.
Context `{Queries}.

Lemma getParameterFlows_unknown message flowId entity flows heap result :
  flowsOf flowId flows = [] →
  getParameterFlows message flowId entity flows heap result
  = Some (flows, heap, result, []).
Proof.
  induction flows as [|flow flows IH]; [done|].
  rewrite flowsOf_cons. simpl.
  destruct (id flow =? flowId); [done|]. intros Hnone.
  by rewrite IH.
Qed.

Lemma getParameterFlows_other message flowId entity flows heap result :
  entity ≠ "Detector" → entity ≠ "Sources" →
  getParameterFlows message flowId entity flows heap result
  = Some (flows, heap, result, []).
Proof.
  intros Hd Hs. induction flows as [|flow flows IH]; [done|].
  simpl. unfold getParameterFlow.
  rewrite !bool_decide_eq_false_2 by done.
  destruct (id flow =? flowId); simpl; by rewrite IH.
Qed.

Lemma setParameterFlows_other message flowId target flows heap result :
  message !! 2%nat = Some (StringValue target) →
  target ≠ "Detector" → target ≠ "Source" →
  target ≠ "Start" → target ≠ "Stop" →
  setParameterFlows message flowId flows heap result
  = Some (flows, heap, result, []).
Proof.
  intros Htarget Hd Hs Hstart Hstop.
  induction flows as [|flow flows IH]; [done|].
  simpl. unfold setParameterFlow. rewrite Htarget. simpl.
  rewrite !bool_decide_eq_false_2 by done.
  destruct (id flow =? flowId); simpl; by rewrite IH.
Qed.

(** X24: a get-parameter request for a flow id that no flow has changes
    nothing and sends nothing, and the handler returns 0. *)
Theorem oscHandlerGetParameter_unknown theApp message ip flowArg entity :
  message !! 0%nat = Some (StringValue ip) →
  message !! 1%nat = Some (IntValue flowArg) →
  message !! 2%nat = Some (StringValue entity) →
  (4 ≤ length message)%nat →
  flowsOf (Int.to_unsigned flowArg) (mFlows theApp) = [] →
  oscHandlerGetParameter theApp message = Returned 0 theApp [].
Proof.
  intros Hip Harg Hentity Hlen Hnone. unfold oscHandlerGetParameter.
  rewrite Hip, Harg, Hentity. simpl.
  destruct (Nat.ltb_spec (length message) 4); [lia|].
  rewrite getParameterFlows_unknown by done. by rewrite App_eta.
Qed.

(** X25: the two handlers do not name the sources alike, and neither tells
    of a word it does not know.  A get-parameter request whose entity is
    neither ["Detector"] nor ["Sources"], and a set-parameter request whose
    target is none of ["Detector"], ["Source"], ["Start"], ["Stop"], change
    nothing and send nothing, and the handler returns 0. *)
Theorem unknown_entity_ignored theApp message ip flowArg entity :
  message !! 0%nat = Some (StringValue ip) →
  message !! 1%nat = Some (IntValue flowArg) →
  message !! 2%nat = Some (StringValue entity) →
  (entity ≠ "Detector" → entity ≠ "Sources" → (4 ≤ length message)%nat →
   oscHandlerGetParameter theApp message = Returned 0 theApp []) ∧
  (entity ≠ "Detector" → entity ≠ "Source" →
   entity ≠ "Start" → entity ≠ "Stop" →
   lo_address_errno (callerOf ip) = 0 →
   oscHandlerSetParameter theApp message = Returned 0 theApp []).
Proof.
  intros Hip Harg Hentity. split.
  - intros Hd Hs Hlen. unfold oscHandlerGetParameter.
    rewrite Hip, Harg, Hentity. simpl.
    destruct (Nat.ltb_spec (length message) 4); [lia|].
    rewrite getParameterFlows_other by done. by rewrite App_eta.
  - intros Hd Hs Hstart Hstop Herrno. unfold oscHandlerSetParameter.
    rewrite Hip, Harg. simpl. fold (callerOf ip). rewrite Herrno. simpl.
    pose proof (lookup_lt_Some _ _ _ Hentity) as Hlen.
    destruct (Nat.ltb_spec (length message) 3); [lia|].
    rewrite (setParameterFlows_other _ _ entity) by done.
    by rewrite App_eta.
Qed.

Lemma answersFlow_cons flowId flow flows e :
  answersFlow flowId flows e → answersFlow flowId (flow :: flows) e.
Proof.
  intros (flow' & m & Hflow' & ?). exists flow', m. split; [by right|done].
Qed.

Lemma getParameterFlows_sent message flowId entity flows heap result
  flows' heap' result' sent :
  getParameterFlows message flowId entity flows heap result
  = Some (flows', heap', result', sent) →
  Forall2 (λ flow flow', keeps flow flow' ∧ run flow' = run flow)
          flows flows' ∧
  Forall (answersFlow flowId flows) sent.
Proof.
  revert heap result flows' heap' result' sent.
  induction flows as [|flow flows IH];
    intros heap result flows' heap' result' sent; simpl.
  { intros [= <- <- <- <-]. by split. }
  destruct (Z.eqb_spec (id flow) flowId) as [Hid|Hid].
  - destruct (getParameterFlow message entity flow heap result)
      as [[[[flow1 heap1] result1] sent1]|] eqn:Hflow; [|done].
    simpl.
    destruct (getParameterFlows message flowId entity flows heap1 result1)
      as [[[[rest2 heap2] result2] sent2]|] eqn:Hrest; [|done].
    simpl. intros [= <- <- <- <-].
    destruct (IH _ _ _ _ _ _ Hrest) as [Hkeeps Hsent].
    assert ((keeps flow flow1 ∧ run flow1 = run flow) ∧
            Forall (answersFlow flowId (flow :: flows)) sent1) as [Hk Hs].
    { unfold getParameterFlow in Hflow.
      assert (∀ msg, answersFlow flowId (flow :: flows)
                       (sendParameter flow msg)) as Hanswer.
      { intros msg. eexists flow, _. split; [by left|]. by repeat split. }
      assert (∀ text, answersFlow flowId (flow :: flows)
                        (sendString (client flow) "/blobserver/getParameter"
                           text)) as Herror.
      { intros text. eexists flow, _. split; [by left|]. by repeat split. }
      repeat (case_match; simplify_option_eq; try done);
        (split; [done|]); repeat constructor; done. }
    split; [by constructor|].
    apply Forall_app. split; [done|].
    eapply Forall_impl; [done|]. intros e. apply answersFlow_cons.
  - destruct (getParameterFlows message flowId entity flows heap result)
      as [[[[rest2 heap2] result2] sent2]|] eqn:Hrest; [|done].
    simpl. intros [= <- <- <- <-].
    destruct (IH _ _ _ _ _ _ Hrest) as [Hkeeps Hsent].
    split; [by constructor|].
    eapply Forall_impl; [done|]. intros e. apply answersFlow_cons.
Qed.

(** X26: whom a get-parameter request is answered.  The handler changes
    neither the flows' ids, clients, sources, paths and [run] flags nor
    the registered sources nor the counter.  A request of fewer than four
    values is answered ["Wrong number of arguments"] at port 9000 of the
    address it gives; otherwise every message goes on
    [/blobserver/getParameter] to the client of a flow that has the id of
    the request, whatever address the request gives. *)
Theorem oscHandlerGetParameter_answers theApp message ret theApp' effects :
  oscHandlerGetParameter theApp message = Returned ret theApp' effects →
  mSources theApp' = mSources theApp ∧
  mCurrentId theApp' = mCurrentId theApp ∧
  Forall2 (λ flow flow', keeps flow flow' ∧ run flow' = run flow)
          (mFlows theApp) (mFlows theApp') ∧
  ((effects = [] ∧ ret = 1 ∧ theApp' = theApp) ∨
   (∃ ip, message !! 0%nat = Some (StringValue ip) ∧
          (length message < 4)%nat ∧ ret = 1 ∧ theApp' = theApp ∧
          effects = [sendString (callerOf ip) "/blobserver/getParameter"
                       "Wrong number of arguments"]) ∨
   (∃ flowArg, message !! 1%nat = Some (IntValue flowArg) ∧
               (4 ≤ length message)%nat ∧
               Forall (answersFlow (Int.to_unsigned flowArg) (mFlows theApp))
                      effects)).
Proof.
  unfold oscHandlerGetParameter. intros Hrun.
  assert (Forall2 (λ flow flow', keeps flow flow' ∧ run flow' = run flow)
                  (mFlows theApp) (mFlows theApp)) as Hsame.
  { apply Forall_Forall2_diag, Forall_forall. by intros flow _. }
  destruct (message !! 0%nat) as [first|] eqn:Hfirst; [|done].
  destruct first as [|?|ip]; simpl in Hrun;
    try (injection Hrun as <- <- <-; do 3 (split; [done|]); by left).
  destruct (Nat.ltb_spec (length message) 4).
  { injection Hrun as <- <- <-. do 3 (split; [done|]). right. left.
    by exists ip. }
  destruct (message !! 1%nat ≫= toInt) as [flowArg|] eqn:Harg.
  2: { injection Hrun as <- <- <-. do 3 (split; [done|]). by left. }
  apply bind_toInt in Harg.
  destruct (message !! 2%nat ≫= toString) as [entity|].
  2: { injection Hrun as <- <- <-. do 3 (split; [done|]). by left. }
  destruct (getParameterFlows _ _ _ _ _ _)
    as [[[[flows heap] result] sent]|] eqn:Hflows; [|done].
  injection Hrun as <- <- <-. simpl.
  destruct (getParameterFlows_sent _ _ _ _ _ _ _ _ _ _ Hflows)
    as [Hkeeps Hsent].
  do 3 (split; [done|]). right. right. by exists flowArg.
Qed.

End getting.

Lemma oscHandlerGetParameter_unknown_witness :
  oscHandlerGetParameter demoApp
    [StringValue "10.0.0.1"; IntValue 7; StringValue "Detector";
     StringValue "threshold"]
  = Returned 0 demoApp [].
Proof.
  apply (oscHandlerGetParameter_unknown demoApp _ "10.0.0.1" 7 "Detector");
    try reflexivity; simpl; lia.
Defined.

Lemma unknown_entity_ignored_witness :
  oscHandlerGetParameter demoApp
    [StringValue "10.0.0.1"; IntValue 1; StringValue "Source";
     IntValue 0; StringValue "exposure"]
  = Returned 0 demoApp [] ∧
  oscHandlerSetParameter demoApp
    [StringValue "10.0.0.1"; IntValue 1; StringValue "Sources";
     IntValue 0; StringValue "exposure"; IntValue 3]
  = Returned 0 demoApp [].
Proof.
  split.
  - apply (unknown_entity_ignored demoApp _ "10.0.0.1" 1 "Source");
      try reflexivity; try done; simpl; lia.
  - apply (unknown_entity_ignored demoApp _ "10.0.0.1" 1 "Sources");
      try reflexivity; done.
Defined.

Lemma oscHandlerGetParameter_answers_witness :
  ∃ ret theApp' effects,
    oscHandlerGetParameter demoApp
      [StringValue "192.168.0.9"; IntValue 1; StringValue "Detector";
       StringValue "threshold"]
    = Returned ret theApp' effects ∧
    effects = [sendParameter (demoFlow false)
                 [StringValue "threshold"; IntValue 0]] ∧
    Forall2 (λ flow flow', keeps flow flow' ∧ run flow' = run flow)
            (mFlows demoApp) (mFlows theApp').
Proof.
  assert (∃ ret theApp' effects,
            oscHandlerGetParameter demoApp
              [StringValue "192.168.0.9"; IntValue 1; StringValue "Detector";
               StringValue "threshold"]
            = Returned ret theApp' effects ∧
            effects = [sendParameter (demoFlow false)
                         [StringValue "threshold"; IntValue 0]])
    as (ret & theApp' & effects & Hrun & Heffects)
    by (by vm_compute; eexists _, _, _).
  exists ret, theApp', effects. split; [exact Hrun|]. split; [exact Heffects|].
  by destruct (oscHandlerGetParameter_answers _ _ _ _ _ Hrun)
    as (_ & _ & Hkeeps & _).
Defined.

End ServerFacts.
